(** * Coordinated rendering of editor views

    A shallow embedding of [src/vs/editor/browser/view.ts]: the
    [EditorRenderingCoordinator] singleton, the rendering participants a
    [View] registers with it, and the four phase protocol
    (prepareRenderText, renderText, prepareRender, render).

    JavaScript objects are references: a participant, a frame handle and a
    ViewPart are identified by a reference and their mutable state lives in
    an explicit store.  Closures are represented by the data they capture.
    Code that can throw runs in the monad [Js]; side effects performed before
    a throw are kept, as in JavaScript. *)

From stdpp Require Import gmap list.

(** ** Exceptions and effects *)

Inductive Error : Type :=
  | BugIndicatingError
  | TypeError
  | ExternalError (code : nat).

#[global] Instance Error_eq_dec : EqDecision Error.
Proof. solve_decision. Defined.

Inductive Outcome (A : Type) : Type :=
  | Returned (a : A)
  | Thrown (e : Error).
Arguments Returned {A} a.
Arguments Thrown {A} e.

(** A computation over a store [S] that returns an [A] or throws. *)
Definition Js (S A : Type) : Type := S -> Outcome A * S.

Definition ret {S A} (a : A) : Js S A := fun s => (Returned a, s).

Definition throw {S A} (e : Error) : Js S A := fun s => (Thrown e, s).

Definition bind {S A B} (m : Js S A) (k : A -> Js S B) : Js S B :=
  fun s =>
    match m s with
    | (Returned a, s') => k a s'
    | (Thrown e, s') => (Thrown e, s')
    end.

Definition gets {S A} (f : S -> A) : Js S A := fun s => (Returned (f s), s).

Definition modify {S} (f : S -> S) : Js S unit := fun s => (Returned tt, f s).

(** [try { body } finally { cleanup }] *)
Definition tryFinally {S A} (body : Js S A) (cleanup : Js S unit) : Js S A :=
  fun s =>
    match body s with
    | (o, s') =>
        match cleanup s' with
        | (Returned _, s'') => (o, s'')
        | (Thrown e, s'') => (Thrown e, s'')
        end
    end.

Declare Scope js_scope.
Delimit Scope js_scope with js.
Notation "'let*' x ':=' m 'in' k" := (bind m (fun x => k))
  (at level 10, x pattern, m at level 100, k at level 200) : js_scope.
Notation "m ';;;' k" := (bind m (fun _ => k))
  (at level 100, k at level 200, right associativity) : js_scope.
Open Scope js_scope.

(** [for (const x of l) { body x }] *)
Fixpoint forOf {S A} (l : list A) (body : A -> Js S unit) : Js S unit :=
  match l with
  | [] => ret tt
  | x :: l' => body x ;;; forOf l' body
  end.

(** A loop that fills an array with one result per element. *)
Fixpoint forCollect {S A B} (l : list A) (body : A -> Js S B) : Js S (list B) :=
  match l with
  | [] => ret []
  | x :: l' =>
      let* y := body x in
      let* ys := forCollect l' body in
      ret (y :: ys)
  end.

(** Run a computation on a component of a larger store. *)
Definition zoom {S T A} (get : T -> S) (put : S -> T -> T) (m : Js S A) : Js T A :=
  fun t => match m (get t) with (o, s') => (o, put s' t) end.

Definition neverThrows {S A} (m : Js S A) : Prop :=
  forall s, exists a s', m s = (Returned a, s').

(** ** The rendering coordinator *)

Definition CodeWindow : Type := nat.
Definition FrameHandle : Type := nat.

(** Modelled from the spec: the windowing primitive
    ([dom.runAtThisOrScheduleAtNextAnimationFrame], base/browser/dom.ts is not
    under src) "supplies run a callback at or before next paint for window W
    and cancel a previously requested callback".  A request allocates a fresh
    handle; [requested] holds the requests that are neither cancelled nor
    fired, each with the window its runner closure captured. *)
Record FrameDriver : Type := {
  nextHandle : FrameHandle;
  requested : gmap FrameHandle CodeWindow
}.

Definition requestFrame (w : CodeWindow) (d : FrameDriver) : FrameHandle * FrameDriver :=
  (nextHandle d,
   {| nextHandle := S (nextHandle d); requested := <[nextHandle d := w]> (requested d) |}).

Definition cancelFrame (h : FrameHandle) (d : FrameDriver) : FrameDriver :=
  {| nextHandle := nextHandle d; requested := delete h (requested d) |}.

(** The four phases of a frame, in the order they run. *)
Inductive Phase : Type :=
  | PrepareRenderText
  | RenderText
  | PrepareRender
  | Render.

#[global] Instance Phase_eq_dec : EqDecision Phase.
Proof. solve_decision. Defined.

Definition phaseIndex (ph : Phase) : nat :=
  match ph with
  | PrepareRenderText => 0
  | RenderText => 1
  | PrepareRender => 2
  | Render => 3
  end.

Section Coordinator.
(** [R]: references to [ICoordinatedRendering] objects; [VP], [Ctx]: view
    parts and rendering contexts; [U]: the state of the rest of the
    program. *)
Context {R : Type} `{EqDecision R} {VP Ctx U : Type}.

(** The fields of [EditorRenderingCoordinator.INSTANCE], the frame driver
    and the error sink. *)
Record Env : Type := {
  _coordinatedRenderings : list R;
  _animationFrameRunners : gmap CodeWindow FrameHandle;
  frames : FrameDriver;
  unexpectedErrors : list Error;
  user : U
}.

Definition set_renderings (l : list R) (s : Env) : Env :=
  {| _coordinatedRenderings := l;
     _animationFrameRunners := _animationFrameRunners s;
     frames := frames s;
     unexpectedErrors := unexpectedErrors s;
     user := user s |}.

Definition set_runners (m : gmap CodeWindow FrameHandle) (s : Env) : Env :=
  {| _coordinatedRenderings := _coordinatedRenderings s;
     _animationFrameRunners := m;
     frames := frames s;
     unexpectedErrors := unexpectedErrors s;
     user := user s |}.

Definition set_frames (d : FrameDriver) (s : Env) : Env :=
  {| _coordinatedRenderings := _coordinatedRenderings s;
     _animationFrameRunners := _animationFrameRunners s;
     frames := d;
     unexpectedErrors := unexpectedErrors s;
     user := user s |}.

Definition set_errors (l : list Error) (s : Env) : Env :=
  {| _coordinatedRenderings := _coordinatedRenderings s;
     _animationFrameRunners := _animationFrameRunners s;
     frames := frames s;
     unexpectedErrors := l;
     user := user s |}.

Definition set_user (u : U) (s : Env) : Env :=
  {| _coordinatedRenderings := _coordinatedRenderings s;
     _animationFrameRunners := _animationFrameRunners s;
     frames := frames s;
     unexpectedErrors := unexpectedErrors s;
     user := u |}.

(** [interface ICoordinatedRendering] *)
Record ICoordinatedRendering : Type := {
  window : CodeWindow;
  prepareRenderText : Js Env unit;
  renderText : Js Env (option (list VP * Ctx));
  prepareRender : list VP -> Ctx -> Js Env unit;
  render : list VP -> Ctx -> Js Env unit
}.

(** Modelled from the spec: [onUnexpectedError] (base/common/errors.ts is
    not under src), the "process-wide handler for unexpected exceptions
    raised during any phase call"; it records the report. *)
Definition onUnexpectedError (e : Error) : Js Env unit :=
  modify (fun s => set_errors (unexpectedErrors s ++ [e]) s).

(** [function safeInvokeNoArg<T>(func: () => T): T | null] *)
Definition safeInvokeNoArg {T} (func : Js Env T) : Js Env (option T) :=
  fun s =>
    match func s with
    | (Returned a, s') => (Returned (Some a), s')
    | (Thrown e, s') => (onUnexpectedError e ;;; ret None) s'
    end.

(** The object a reference denotes. *)
Variable obj : R -> ICoordinatedRendering.

(** The disposable returned by [scheduleCoordinatedRendering]: a closure
    over the rendering it was created for. *)
Inductive IDisposable : Type :=
  | RenderingDisposable (rendering : R).

(** [Array.prototype.indexOf] followed by [splice(index, 1)]: the first
    occurrence is removed. *)
Fixpoint indexOf (x : R) (l : list R) : option nat :=
  match l with
  | [] => None
  | y :: l' => if decide (y = x) then Some 0 else S <$> indexOf x l'
  end.

Definition splice1 (i : nat) (l : list R) : list R := take i l ++ drop (S i) l.

(** [for (const [_, disposable] of this._animationFrameRunners)
      disposable.dispose()] *)
Definition disposeAllRunners (s : Env) : Env :=
  set_frames
    (foldr (fun wh d => cancelFrame wh.2 d) (frames s)
           (map_to_list (_animationFrameRunners s)))
    s.

(** [EditorRenderingCoordinator._scheduleRender(window)] *)
Definition Coordinator_scheduleRender (w : CodeWindow) : Js Env unit :=
  fun s =>
    match _animationFrameRunners s !! w with
    | Some _ => (Returned tt, s)
    | None =>
        let '(h, d) := requestFrame w (frames s) in
        (Returned tt, set_runners (<[w := h]> (_animationFrameRunners s)) (set_frames d s))
    end.

(** [scheduleCoordinatedRendering(rendering)] *)
Definition scheduleCoordinatedRendering (rendering : R) : Js Env IDisposable :=
  modify (fun s => set_renderings (_coordinatedRenderings s ++ [rendering]) s) ;;;
  Coordinator_scheduleRender (window (obj rendering)) ;;;
  ret (RenderingDisposable rendering).

(** The [dispose] method of the returned disposable. *)
Definition dispose (d : IDisposable) : Js Env unit :=
  let 'RenderingDisposable rendering := d in
  fun s =>
    match indexOf rendering (_coordinatedRenderings s) with
    | None => (Returned tt, s)
    | Some renderingIndex =>
        let s1 := set_renderings (splice1 renderingIndex (_coordinatedRenderings s)) s in
        if decide (length (_coordinatedRenderings s1) = 0)
        then (Returned tt, set_runners ∅ (disposeAllRunners s1))
        else (Returned tt, s1)
    end.

(** One entry per call the coordinator makes on a participant, with what
    [safeInvokeNoArg] handed back. *)
Inductive Call : Type :=
  | CallPrepareRenderText (r : R) (completed : bool)
  | CallRenderText (r : R) (data : option (list VP * Ctx))
  | CallPrepareRender (r : R) (viewParts : list VP) (ctx : Ctx) (completed : bool)
  | CallRender (r : R) (viewParts : list VP) (ctx : Ctx) (completed : bool).

(** The coordinator's store together with the log of its calls, which the
    participants cannot reach. *)
Record World : Type := {
  env : Env;
  calls : list Call
}.

Definition inEnv {A} (m : Js Env A) : Js World A :=
  zoom env (fun e w => {| env := e; calls := calls w |}) m.

Definition logCall (c : Call) : Js World unit :=
  modify (fun w => {| env := env w; calls := calls w ++ [c] |}).

Definition completed {A} (o : option A) : bool :=
  match o with Some _ => true | None => false end.

(** [EditorRenderingCoordinator._onRenderScheduled()] *)
Definition _onRenderScheduled : Js World unit :=
  let* coordinatedRenderings := inEnv (gets _coordinatedRenderings) in
  inEnv (modify (set_renderings [])) ;;;
  forOf coordinatedRenderings (fun rendering =>
    let* res := inEnv (safeInvokeNoArg (prepareRenderText (obj rendering))) in
    logCall (CallPrepareRenderText rendering (completed res))) ;;;
  let* datas := forCollect coordinatedRenderings (fun rendering =>
    let* res := inEnv (safeInvokeNoArg (renderText (obj rendering))) in
    let data := mjoin res in
    logCall (CallRenderText rendering data) ;;;
    ret data) in
  forOf (zip coordinatedRenderings datas) (fun '(rendering, data) =>
    match data with
    | None => ret tt
    | Some (viewParts, ctx) =>
        let* res := inEnv (safeInvokeNoArg (prepareRender (obj rendering) viewParts ctx)) in
        logCall (CallPrepareRender rendering viewParts ctx (completed res))
    end) ;;;
  forOf (zip coordinatedRenderings datas) (fun '(rendering, data) =>
    match data with
    | None => ret tt
    | Some (viewParts, ctx) =>
        let* res := inEnv (safeInvokeNoArg (render (obj rendering) viewParts ctx)) in
        logCall (CallRender rendering viewParts ctx (completed res))
    end).

(** The [runner] closure created by [_scheduleRender(window)]. *)
Definition runner (w : CodeWindow) : Js World unit :=
  inEnv (modify (fun s => set_runners (delete w (_animationFrameRunners s)) s)) ;;;
  _onRenderScheduled.

(** The frame driver fires request [h]: a cancelled or unknown request
    does nothing, otherwise the request is consumed and its runner runs. *)
Definition fireFrame (h : FrameHandle) : Js World unit :=
  let* d := inEnv (gets frames) in
  match requested d !! h with
  | None => ret tt
  | Some w =>
      inEnv (modify (set_frames (cancelFrame h d))) ;;;
      runner w
  end.

(** *** Vocabulary for statements about the log *)

Definition callee (c : Call) : R :=
  match c with
  | CallPrepareRenderText r _ => r
  | CallRenderText r _ => r
  | CallPrepareRender r _ _ _ => r
  | CallRender r _ _ _ => r
  end.

Definition phaseOf (c : Call) : Phase :=
  match c with
  | CallPrepareRenderText _ _ => PrepareRenderText
  | CallRenderText _ _ => RenderText
  | CallPrepareRender _ _ _ _ => PrepareRender
  | CallRender _ _ _ _ => Render
  end.

(** The participants called in phase [ph], in call order. *)
Definition participants (ph : Phase) (log : list Call) : list R :=
  callee <$> filter (fun c => phaseOf c = ph) log.

(** [m] does not throw, keeps [I] and appends to the log calls that
    satisfy [Φ] together with the result. *)
Definition logs (I : Env -> Prop) {A} (m : Js World A)
    (Φ : A -> list Call -> Prop) : Prop :=
  forall w, I (env w) ->
    exists a e' cs,
      m w = (Returned a, {| env := e'; calls := calls w ++ cs |})
      /\ I e' /\ Φ a cs.

(** The reachable states of the coordinator when no frame fires. *)
Inductive CoordinatorOp : Type :=
  | OpSchedule (rendering : R)
  | OpDispose (rendering : R).

Definition applyOp (op : CoordinatorOp) (s : Env) : Env :=
  match op with
  | OpSchedule r => (scheduleCoordinatedRendering r s).2
  | OpDispose r => (dispose (RenderingDisposable r) s).2
  end.

Definition applyOps (ops : list CoordinatorOp) (s : Env) : Env :=
  foldl (fun acc op => applyOp op acc) s ops.

Definition initialEnv (u : U) : Env :=
  {| _coordinatedRenderings := [];
     _animationFrameRunners := ∅;
     frames := {| nextHandle := 0; requested := ∅ |};
     unexpectedErrors := [];
     user := u |}.

(** The participants pending for window [w]. *)
Definition pendingFor (w : CodeWindow) (s : Env) : list R :=
  filter (fun r => window (obj r) = w) (_coordinatedRenderings s).

(** What phase 3 or 4 logs for one slot of the batch. *)
Definition slotCalls (mk : R -> list VP -> Ctx -> bool -> Call)
    (slot : R * option (list VP * Ctx)) (cs : list Call) : Prop :=
  match slot.2 with
  | None => cs = []
  | Some (viewParts, ctx) => exists ok, cs = [mk slot.1 viewParts ctx ok]
  end.

(** The calls of a later phase come after the calls of an earlier one. *)
Definition ordered (l : list Call) : Prop :=
  forall i j c d, l !! i = Some c -> l !! j = Some d ->
    phaseIndex (phaseOf c) < phaseIndex (phaseOf d) -> i < j.

(** The coordinator's map of runners and the outstanding frame requests
    agree, and the pending list is covered by them. *)
Record handlesInv (s : Env) : Prop := {
  inv_bij : forall h (w : CodeWindow),
    requested (frames s) !! h = Some w <-> _animationFrameRunners s !! w = Some h;
  inv_fresh : forall h (w : CodeWindow),
    requested (frames s) !! h = Some w -> h < nextHandle (frames s);
  inv_idle : _coordinatedRenderings s = [] -> requested (frames s) = ∅;
  inv_covered : forall r, r ∈ _coordinatedRenderings s ->
    is_Some (_animationFrameRunners s !! window (obj r))
}.

End Coordinator.

(** *** What the log records *)

Section Replay.
Context {R : Type} `{EqDecision R} {VP Ctx U : Type}.
Variable obj : R -> @ICoordinatedRendering R VP Ctx U.

(** The call recorded by [c] was made on the store [e]: the function of
    the participant ran under [safeInvokeNoArg], left the store [e'], and
    [c] holds what it handed back. *)
Definition performs (c : @Call R VP Ctx) (e e' : @Env R U) : Prop :=
  match c with
  | CallPrepareRenderText r ok =>
      exists o, safeInvokeNoArg (prepareRenderText (obj r)) e = (Returned o, e')
                /\ ok = completed o
  | CallRenderText r data =>
      exists o, safeInvokeNoArg (renderText (obj r)) e = (Returned o, e')
                /\ data = mjoin o
  | CallPrepareRender r viewParts ctx ok =>
      exists o, safeInvokeNoArg (prepareRender (obj r) viewParts ctx) e = (Returned o, e')
                /\ ok = completed o
  | CallRender r viewParts ctx ok =>
      exists o, safeInvokeNoArg (render (obj r) viewParts ctx) e = (Returned o, e')
                /\ ok = completed o
  end.

(** Making the calls of [log] one after the other takes the store [e] to
    [e']. *)
Fixpoint replays (e : @Env R U) (log : list (@Call R VP Ctx)) (e' : @Env R U) : Prop :=
  match log with
  | [] => e' = e
  | c :: rest => exists e1, performs c e e1 /\ replays e1 rest e'
  end.

(** [m] does not throw, and what it does to the coordinator's store is
    what the calls it logs do: it makes these calls and touches the store
    in no other way. *)
Definition replaying {A} (m : Js (@World R VP Ctx U) A) : Prop :=
  forall w,
    exists a e' cs,
      m w = (Returned a, {| env := e'; calls := calls w ++ cs |})
      /\ replays (env w) cs e'.

(** [r] waits for a later frame: it is pending and a frame is requested
    for its window. *)
Definition deferred (r : R) (e : @Env R U) : Prop :=
  r ∈ _coordinatedRenderings e
  /\ exists h, requested (frames e) !! h = Some (window (obj r)).

(** Every runner of the coordinator stands for an outstanding frame
    request of its window. *)
Definition runnersRequested (e : @Env R U) : Prop :=
  forall (w : CodeWindow) h,
    _animationFrameRunners e !! w = Some h -> requested (frames e) !! h = Some w.

(** The store the frame callback of request [h], window [w], starts its
    phases from: request consumed, runner forgotten, pending list
    swapped for an empty one. *)
Definition swapped (h : FrameHandle) (w : CodeWindow) (e : @Env R U) : @Env R U :=
  set_renderings []
    (set_runners (delete w (_animationFrameRunners e))
       (set_frames (cancelFrame h (frames e)) e)).
End Replay.

(** ** Views *)

Definition ViewId : Type := nat.

(** The object literal [View._scheduleRender] hands to the coordinator.  Its
    four methods are closures over [this] and over the object built by
    [_createCoordinatedRendering], which is again a closure over [this]; its
    [window] is read once, when the literal is built.  [rid] is the identity
    of the object. *)
Record Rendering : Type := {
  rid : nat;
  this : ViewId;
  renderingWindow : CodeWindow
}.

#[global] Instance Rendering_eq_dec : EqDecision Rendering.
Proof. solve_decision. Defined.

(** What a call into an external collaborator does in this run. *)
Inductive Behaviour : Type :=
  | Completes
  | Throws (e : Error).

(** Modelled from the spec: [ViewPart] (view/viewPart.ts is not under src),
    "a polymorphic unit of visual state with lifecycle hooks shouldRender,
    prepareRender, render, onDidRender, forceShouldRender" where "each
    ViewPart privately tracks whether it needs to render".  The dirty flag is
    [_shouldRender]: [forceShouldRender] sets it, [onDidRender] acknowledges
    the render and clears it.  What the concrete part does in [prepareRender]
    and [render] is out of scope; [onPrepareRender] and [onRender] say whether
    the call completes or throws. *)
Record ViewPart : Type := {
  _shouldRender : bool;
  onPrepareRender : Behaviour;
  onRender : Behaviour
}.

(** Modelled from the spec: the text subsystem [ViewLines]
    (viewParts/lines/viewLines.ts is not under src).  "Text layout can itself
    trigger scroll adjustments": [scrollInvalidates] lists the view parts
    (by index) that the scroll events raised by [renderText] mark dirty. *)
Record ViewLines : Type := {
  lines_shouldRender : bool;
  onRenderText : Behaviour;
  scrollInvalidates : list nat
}.

Definition ViewportData : Type := nat.

(** [new RenderingContext(viewLayout, viewportData, viewLines)] *)
Record RenderingContext : Type := {
  ctxView : ViewId;
  ctxViewportData : ViewportData
}.

(** The mutable state of a [View].  [_viewParts] is the array of view parts;
    a view part is referred to by its index.  The constructor stores the
    content widgets part in the array and in [_contentWidgets]; the field is
    its index. *)
Record View : Type := {
  isDisposed : bool;
  _renderAnimationFrame : option (@IDisposable Rendering);
  _shouldRecomputeGlyphMarginLanes : bool;
  _viewLines : ViewLines;
  _viewParts : list ViewPart;
  _contentWidgets : nat;
  domNodeWindow : CodeWindow;
  domNodeIsConnected : bool;
  linesViewportData : ViewportData
}.

(** The calls a view makes on its collaborators, in order.  [EvPhase] marks
    the entry into one of the four functions of the object built by
    [_createCoordinatedRendering]. *)
Inductive Event : Type :=
  | EvPhase (v : ViewId) (ph : Phase)
  | EvComputeGlyphMarginLanes (v : ViewId)
  | EvRenderStart (v : ViewId)
  | EvSetViewport (v : ViewId) (vd : ViewportData)
  | EvOnBeforeRender (v : ViewId)
  | EvLinesRenderText (v : ViewId)
  | EvPartPrepareRender (v : ViewId) (p : nat)
  | EvPartRender (v : ViewId) (p : nat)
  | EvPartOnDidRender (v : ViewId) (p : nat).

#[global] Instance Event_eq_dec : EqDecision Event.
Proof. solve_decision. Defined.

Record ViewWorld : Type := {
  views : gmap ViewId View;
  nextRid : nat;
  trace : list Event
}.

Abbreviation VEnv := (@Env Rendering ViewWorld).
Abbreviation VObj := (@ICoordinatedRendering Rendering nat RenderingContext ViewWorld).

Definition set_shouldRender (b : bool) (p : ViewPart) : ViewPart :=
  {| _shouldRender := b; onPrepareRender := onPrepareRender p; onRender := onRender p |}.

Definition set_lines_shouldRender (b : bool) (l : ViewLines) : ViewLines :=
  {| lines_shouldRender := b; onRenderText := onRenderText l;
     scrollInvalidates := scrollInvalidates l |}.

Definition set_isDisposed (b : bool) (view : View) : View :=
  {| isDisposed := b;
     _renderAnimationFrame := _renderAnimationFrame view;
     _shouldRecomputeGlyphMarginLanes := _shouldRecomputeGlyphMarginLanes view;
     _viewLines := _viewLines view;
     _viewParts := _viewParts view;
     _contentWidgets := _contentWidgets view;
     domNodeWindow := domNodeWindow view;
     domNodeIsConnected := domNodeIsConnected view;
     linesViewportData := linesViewportData view |}.

Definition set_renderAnimationFrame (d : option (@IDisposable Rendering)) (view : View) : View :=
  {| isDisposed := isDisposed view;
     _renderAnimationFrame := d;
     _shouldRecomputeGlyphMarginLanes := _shouldRecomputeGlyphMarginLanes view;
     _viewLines := _viewLines view;
     _viewParts := _viewParts view;
     _contentWidgets := _contentWidgets view;
     domNodeWindow := domNodeWindow view;
     domNodeIsConnected := domNodeIsConnected view;
     linesViewportData := linesViewportData view |}.

Definition set_shouldRecomputeGlyphMarginLanes (b : bool) (view : View) : View :=
  {| isDisposed := isDisposed view;
     _renderAnimationFrame := _renderAnimationFrame view;
     _shouldRecomputeGlyphMarginLanes := b;
     _viewLines := _viewLines view;
     _viewParts := _viewParts view;
     _contentWidgets := _contentWidgets view;
     domNodeWindow := domNodeWindow view;
     domNodeIsConnected := domNodeIsConnected view;
     linesViewportData := linesViewportData view |}.

Definition set_viewLines (l : ViewLines) (view : View) : View :=
  {| isDisposed := isDisposed view;
     _renderAnimationFrame := _renderAnimationFrame view;
     _shouldRecomputeGlyphMarginLanes := _shouldRecomputeGlyphMarginLanes view;
     _viewLines := l;
     _viewParts := _viewParts view;
     _contentWidgets := _contentWidgets view;
     domNodeWindow := domNodeWindow view;
     domNodeIsConnected := domNodeIsConnected view;
     linesViewportData := linesViewportData view |}.

Definition set_viewParts (ps : list ViewPart) (view : View) : View :=
  {| isDisposed := isDisposed view;
     _renderAnimationFrame := _renderAnimationFrame view;
     _shouldRecomputeGlyphMarginLanes := _shouldRecomputeGlyphMarginLanes view;
     _viewLines := _viewLines view;
     _viewParts := ps;
     _contentWidgets := _contentWidgets view;
     domNodeWindow := domNodeWindow view;
     domNodeIsConnected := domNodeIsConnected view;
     linesViewportData := linesViewportData view |}.

(** *** Access to the store *)

(** A method call on a view (or view part) that does not exist is a
    [TypeError]; no reachable state has one. *)
Definition getView (v : ViewId) : Js VEnv View :=
  fun s =>
    match views (user s) !! v with
    | Some view => (Returned view, s)
    | None => (Thrown TypeError, s)
    end.

Definition updateView (v : ViewId) (f : View -> View) : Js VEnv unit :=
  modify (fun s =>
    set_user {| views := alter f v (views (user s));
                nextRid := nextRid (user s);
                trace := trace (user s) |} s).

Definition emit (e : Event) : Js VEnv unit :=
  modify (fun s =>
    set_user {| views := views (user s);
                nextRid := nextRid (user s);
                trace := trace (user s) ++ [e] |} s).

Definition getPart (v : ViewId) (p : nat) : Js VEnv ViewPart :=
  let* view := getView v in
  match _viewParts view !! p with
  | Some part => ret part
  | None => throw TypeError
  end.

Definition updatePart (v : ViewId) (p : nat) (f : ViewPart -> ViewPart) : Js VEnv unit :=
  updateView v (fun view => set_viewParts (alter f p (_viewParts view)) view).

(** *** The hooks of a view part and of the text subsystem *)

Definition ViewPart_forceShouldRender (v : ViewId) (p : nat) : Js VEnv unit :=
  getPart v p ;;;
  updatePart v p (set_shouldRender true).

Definition ViewPart_onDidRender (v : ViewId) (p : nat) : Js VEnv unit :=
  getPart v p ;;;
  emit (EvPartOnDidRender v p) ;;;
  updatePart v p (set_shouldRender false).

Definition behave (b : Behaviour) : Js VEnv unit :=
  match b with
  | Completes => ret tt
  | Throws e => throw e
  end.

Definition ViewPart_prepareRender (v : ViewId) (p : nat) (ctx : RenderingContext) : Js VEnv unit :=
  let* part := getPart v p in
  emit (EvPartPrepareRender v p) ;;;
  behave (onPrepareRender part).

Definition ViewPart_render (v : ViewId) (p : nat) (ctx : RenderingContext) : Js VEnv unit :=
  let* part := getPart v p in
  emit (EvPartRender v p) ;;;
  behave (onRender part).

Definition ViewLines_forceShouldRender (v : ViewId) : Js VEnv unit :=
  updateView v (fun view => set_viewLines (set_lines_shouldRender true (_viewLines view)) view).

Definition ViewLines_onDidRender (v : ViewId) : Js VEnv unit :=
  updateView v (fun view => set_viewLines (set_lines_shouldRender false (_viewLines view)) view).

Definition invalidate (ps : list nat) (parts : list ViewPart) : list ViewPart :=
  foldr (fun p acc => alter (set_shouldRender true) p acc) parts ps.

Definition ViewLines_renderText (v : ViewId) (viewportData : ViewportData) : Js VEnv unit :=
  let* view := getView v in
  emit (EvLinesRenderText v) ;;;
  behave (onRenderText (_viewLines view)) ;;;
  updateView v (fun view =>
    set_viewParts (invalidate (scrollInvalidates (_viewLines view)) (_viewParts view)) view).

(** *** [View] *)

(** [View._getViewPartsToRender()]: the parts whose [shouldRender()] is
    true, in the order of [_viewParts]. *)
Fixpoint partsToRenderFrom (i : nat) (parts : list ViewPart) : list nat :=
  match parts with
  | [] => []
  | viewPart :: rest =>
      if _shouldRender viewPart
      then i :: partsToRenderFrom (S i) rest
      else partsToRenderFrom (S i) rest
  end.

Definition _getViewPartsToRender (view : View) : list nat :=
  partsToRenderFrom 0 (_viewParts view).

(** [this._contentWidgets.shouldRender()] *)
Definition contentWidgets_shouldRender (view : View) : bool :=
  match _viewParts view !! _contentWidgets view with
  | Some part => _shouldRender part
  | None => false
  end.

(** [View._computeGlyphMarginLanes()] followed by
    [configuration.setGlyphMarginDecorationLaneCount]: reads the model's
    margin decorations and the glyph widgets; only the call is recorded. *)
Definition _computeGlyphMarginLanes (v : ViewId) : Js VEnv unit :=
  emit (EvComputeGlyphMarginLanes v).

(** The object returned by [View._createCoordinatedRendering()]. *)
Record CoordinatedRendering : Type := {
  rendering_prepareRenderText : Js VEnv unit;
  rendering_renderText : Js VEnv (option (list nat * RenderingContext));
  rendering_prepareRender : list nat -> RenderingContext -> Js VEnv unit;
  rendering_render : list nat -> RenderingContext -> Js VEnv unit
}.

Definition _createCoordinatedRendering (v : ViewId) : CoordinatedRendering :=
  {| rendering_prepareRenderText :=
       emit (EvPhase v PrepareRenderText) ;;;
       let* view := getView v in
       (if _shouldRecomputeGlyphMarginLanes view
        then updateView v (set_shouldRecomputeGlyphMarginLanes false) ;;;
             _computeGlyphMarginLanes v
        else ret tt) ;;;
       emit (EvRenderStart v);
     rendering_renderText :=
       emit (EvPhase v RenderText) ;;;
       let* view := getView v in
       if negb (domNodeIsConnected view) then ret None else
       let viewPartsToRender := _getViewPartsToRender view in
       if negb (lines_shouldRender (_viewLines view))
          && bool_decide (length viewPartsToRender = 0)
       then ret None else
       let partialViewportData := linesViewportData view in
       emit (EvSetViewport v partialViewportData) ;;;
       let viewportData := partialViewportData in
       (if contentWidgets_shouldRender view
        then emit (EvOnBeforeRender v)
        else ret tt) ;;;
       let* viewPartsToRender :=
         (if lines_shouldRender (_viewLines view)
          then ViewLines_renderText v viewportData ;;;
               ViewLines_onDidRender v ;;;
               let* view' := getView v in
               ret (_getViewPartsToRender view')
          else ret viewPartsToRender) in
       ret (Some (viewPartsToRender,
                  {| ctxView := v; ctxViewportData := viewportData |}));
     rendering_prepareRender := fun viewPartsToRender ctx =>
       emit (EvPhase v PrepareRender) ;;;
       forOf viewPartsToRender (fun viewPart =>
         ViewPart_prepareRender v viewPart ctx);
     rendering_render := fun viewPartsToRender ctx =>
       emit (EvPhase v Render) ;;;
       forOf viewPartsToRender (fun viewPart =>
         ViewPart_render v viewPart ctx ;;;
         ViewPart_onDidRender v viewPart) |}.

(** [if (this._store.isDisposed) { throw new BugIndicatingError(); }] *)
Definition throwIfDisposed (v : ViewId) : Js VEnv unit :=
  let* view := getView v in
  if isDisposed view then throw BugIndicatingError else ret tt.

(** The participant a [Rendering] reference denotes: the methods of the
    object literal in [View._scheduleRender]. *)
Definition viewObj (r : Rendering) : VObj :=
  let rendering := _createCoordinatedRendering (this r) in
  {| window := renderingWindow r;
     prepareRenderText :=
       throwIfDisposed (this r) ;;;
       tryFinally (rendering_prepareRenderText rendering)
                  (updateView (this r) (set_renderAnimationFrame None));
     renderText :=
       throwIfDisposed (this r) ;;;
       rendering_renderText rendering;
     prepareRender := fun viewParts ctx =>
       throwIfDisposed (this r) ;;;
       rendering_prepareRender rendering viewParts ctx;
     render := fun viewParts ctx =>
       throwIfDisposed (this r) ;;;
       rendering_render rendering viewParts ctx |}.

(** Allocation of the object literal. *)
Definition newRendering (v : ViewId) (w : CodeWindow) : Js VEnv Rendering :=
  fun s =>
    (Returned {| rid := nextRid (user s); this := v; renderingWindow := w |},
     set_user {| views := views (user s);
                 nextRid := S (nextRid (user s));
                 trace := trace (user s) |} s).

(** [View._scheduleRender()] *)
Definition View_scheduleRender (v : ViewId) : Js VEnv unit :=
  throwIfDisposed v ;;;
  let* view := getView v in
  match _renderAnimationFrame view with
  | None =>
      let* rendering := newRendering v (domNodeWindow view) in
      let* disposable := scheduleCoordinatedRendering viewObj rendering in
      updateView v (set_renderAnimationFrame (Some disposable))
  | Some _ => ret tt
  end.

(** [View._flushAccumulatedAndRenderNow()] *)
Definition _flushAccumulatedAndRenderNow (v : ViewId) : Js VEnv unit :=
  let rendering := _createCoordinatedRendering v in
  safeInvokeNoArg (rendering_prepareRenderText rendering) ;;;
  let* data := safeInvokeNoArg (rendering_renderText rendering) in
  match mjoin data with
  | Some (viewParts, ctx) =>
      safeInvokeNoArg (rendering_prepareRender rendering viewParts ctx) ;;;
      safeInvokeNoArg (rendering_render rendering viewParts ctx) ;;;
      ret tt
  | None => ret tt
  end.

(** The body of [if (everything) { ... }] in [View.render]. *)
Definition forceEverything (v : ViewId) : Js VEnv unit :=
  ViewLines_forceShouldRender v ;;;
  let* view := getView v in
  forOf (seq 0 (length (_viewParts view))) (fun viewPart =>
    ViewPart_forceShouldRender v viewPart).

(** [View.render(now, everything)] *)
Definition View_render (v : ViewId) (now everything : bool) : Js VEnv unit :=
  (if everything then forceEverything v else ret tt) ;;;
  if now
  then _flushAccumulatedAndRenderNow v
  else View_scheduleRender v.

(** [View.dispose()]: the pending rendering is cancelled, the collaborators
    are disposed and [super.dispose()] marks the store as disposed. *)
Definition View_dispose (v : ViewId) : Js VEnv unit :=
  let* view := getView v in
  (match _renderAnimationFrame view with
   | Some disposable =>
       dispose disposable ;;;
       updateView v (set_renderAnimationFrame None)
   | None => ret tt
   end) ;;;
  updateView v (set_isDisposed true).

(** ** Vocabulary for the statements *)

(** The store with the views and the trace replaced. *)
Definition withUser (vs : gmap ViewId View) (tr : list Event) (s : VEnv) : VEnv :=
  set_user {| views := vs; nextRid := nextRid (user s); trace := tr |} s.

(** [View.render(_, true)] leaves every dirty flag of the view set. *)
Definition forceView (view : View) : View :=
  set_viewParts (set_shouldRender true <$> _viewParts view)
    (set_viewLines (set_lines_shouldRender true (_viewLines view)) view).

(** The coordinator's fields and the allocator are untouched. *)
Definition coordSame (s s' : VEnv) : Prop :=
  _coordinatedRenderings s' = _coordinatedRenderings s
  /\ _animationFrameRunners s' = _animationFrameRunners s
  /\ frames s' = frames s
  /\ nextRid (user s') = nextRid (user s).

(** View [v] exists and its root is detached. *)
Definition detached (v : ViewId) (s : VEnv) : Prop :=
  exists view, views (user s) !! v = Some view /\ domNodeIsConnected view = false.

(** A relation between the store before and after a computation. *)
Definition respects (Rel : VEnv -> VEnv -> Prop) {A} (m : Js VEnv A) : Prop :=
  forall s, Rel s (m s).2.

Definition anyEvent (e : Event) : Prop := True.
Definition anyUpdate (f : View -> View) : Prop := True.

(** Updates of a view that leave the attachment of its root alone. *)
Definition keepsRoot (f : View -> View) : Prop :=
  forall view, domNodeIsConnected (f view) = domNodeIsConnected view.

(** The computation leaves the coordinator alone and only appends events
    that satisfy [ok] to the trace. *)
Definition emits (ok : Event -> Prop) (s s' : VEnv) : Prop :=
  coordSame s s'
  /\ exists evs, trace (user s') = trace (user s) ++ evs /\ Forall ok evs.

(** Events other than the entry into phases 3 and 4 of view [v]. *)
Definition early (v : ViewId) (e : Event) : Prop :=
  e <> EvPhase v PrepareRender /\ e <> EvPhase v Render.

(** ** Scenarios *)

(** Participants of the coordinator alone: participant [r] lives in window
    [r], its renderText hands back [([r], r)], and the prepareRender of
    participant 2 throws. *)
Definition probeObj (r : nat) : @ICoordinatedRendering nat nat nat unit :=
  {| window := r;
     prepareRenderText := ret tt;
     renderText := ret (Some ([r], r));
     prepareRender := fun _ _ =>
       if decide (r = 2) then throw (ExternalError r) else ret tt;
     render := fun _ _ => ret tt |}.

(** Participants 1 and 2 registered, in this order, for windows 1 and 2. *)
Definition probeEnv : @Env nat unit :=
  applyOps probeObj [OpSchedule 1; OpSchedule 2] (initialEnv tt).

Definition probeWorld : @World nat nat nat unit :=
  {| env := probeEnv; calls := [] |}.

(** As [probeObj], but the prepareRenderText of participant 1 schedules
    participant 9 while the frame callback runs. *)
Definition eagerObj (r : nat) : @ICoordinatedRendering nat nat nat unit :=
  {| window := r;
     prepareRenderText :=
       if decide (r = 1)
       then scheduleCoordinatedRendering probeObj 9 ;;; ret tt
       else ret tt;
     renderText := ret (Some ([r], r));
     prepareRender := fun _ _ => ret tt;
     render := fun _ _ => ret tt |}.

Definition demoPart (dirty : bool) (b : Behaviour) : ViewPart :=
  {| _shouldRender := dirty; onPrepareRender := b; onRender := Completes |}.

Definition demoView (disposed connected : bool) (w : CodeWindow)
    (linesDirty : bool) (scrolls : list nat) (parts : list ViewPart) : View :=
  {| isDisposed := disposed;
     _renderAnimationFrame := None;
     _shouldRecomputeGlyphMarginLanes := false;
     _viewLines := {| lines_shouldRender := linesDirty;
                      onRenderText := Completes;
                      scrollInvalidates := scrolls |};
     _viewParts := parts;
     _contentWidgets := 0;
     domNodeWindow := w;
     domNodeIsConnected := connected;
     linesViewportData := 7 |}.

(** Three dirty parts; the second throws in prepareRender. *)
Definition editorA : View :=
  demoView false true 1 false []
    [demoPart true Completes; demoPart true (Throws (ExternalError 5));
     demoPart true Completes].

(** A view whose root is detached. *)
Definition editorB : View :=
  demoView false false 2 true [] [demoPart true Completes].

(** Two clean parts; text rendering scrolls and makes the second dirty. *)
Definition editorC : View :=
  demoView false true 1 true [1] [demoPart false Completes; demoPart false Completes].

(** A disposed view. *)
Definition editorD : View :=
  demoView true true 1 false [] [demoPart true Completes].

Definition demoEnv : VEnv :=
  {| _coordinatedRenderings := [];
     _animationFrameRunners := ∅;
     frames := {| nextHandle := 0; requested := ∅ |};
     unexpectedErrors := [];
     user := {| views := <[0 := editorA]> (<[1 := editorB]> (<[2 := editorC]>
                           (<[3 := editorD]> ∅)));
                nextRid := 0;
                trace := [] |} |}.

(** The rendering [editorA] registers first, and the context it renders
    with. *)
Definition renderingA : Rendering :=
  {| rid := 0; this := 0; renderingWindow := 1 |}.

Definition contextA : RenderingContext :=
  {| ctxView := 0; ctxViewportData := 7 |}.

(** [editorA] has scheduled a rendering and its frame fires. *)
Definition frameOfA : @World Rendering nat RenderingContext ViewWorld :=
  (fireFrame viewObj 0 {| env := (View_scheduleRender 0 demoEnv).2; calls := [] |}).2.

(** Participants that leave a mark: render of participant [r] appends [r]
    to the state of the rest of the program, and the prepareRender of
    participant 2 throws. *)
Definition markingObj (r : nat) : @ICoordinatedRendering nat nat nat (list nat) :=
  {| window := r;
     prepareRenderText := ret tt;
     renderText := ret (Some ([r], r));
     prepareRender := fun _ _ =>
       if decide (r = 2) then throw (ExternalError r) else ret tt;
     render := fun _ _ => modify (fun s => set_user (user s ++ [r]) s) |}.

(** Participants 1 and 2 registered, in this order. *)
Definition markingWorld : @World nat nat nat (list nat) :=
  {| env := applyOps markingObj [OpSchedule 1; OpSchedule 2] (initialEnv []);
     calls := [] |}.

(** Participant 1, whose prepareRenderText schedules participant 9, is
    pending and its frame is requested. *)
Definition eagerWorld : @World nat nat nat unit :=
  {| env := (scheduleCoordinatedRendering eagerObj 1 (initialEnv tt)).2;
     calls := [] |}.

(** ** More of [View]: event handlers and the widget interface *)

(** [View.onDecorationsChanged(e)], with [e.affectsGlyphMargin]. *)
Definition View_onDecorationsChanged (v : ViewId) (affectsGlyphMargin : bool)
    : Js VEnv bool :=
  (if affectsGlyphMargin
   then updateView v (set_shouldRecomputeGlyphMarginLanes true)
   else ret tt) ;;;
  ret false.

(** [onConfigurationChanged], [onCursorStateChanged], [onFocusChanged] and
    [onThemeChanged] touch the DOM node, the theme and [_selections], none
    of which is part of the store modelled here; each returns [false]. *)
Definition View_onConfigurationChanged (v : ViewId) : Js VEnv bool := ret false.
Definition View_onCursorStateChanged (v : ViewId) : Js VEnv bool := ret false.
Definition View_onFocusChanged (v : ViewId) : Js VEnv bool := ret false.
Definition View_onThemeChanged (v : ViewId) : Js VEnv bool := ret false.

(** The view events [View] has a handler for. *)
Inductive ViewEvent : Type :=
  | ViewConfigurationChanged
  | ViewCursorStateChanged
  | ViewDecorationsChanged (affectsGlyphMargin : bool)
  | ViewFocusChanged
  | ViewThemeChanged.

(** Modelled from the spec: [ViewEventHandler.handleEvents]
    (viewEventHandler.ts is not under src) "consumes a batch of model/view
    change notifications ... dispatched through a visitor-style contract;
    each event handler may set internal flags ... and must return whether
    that event alone requires an immediate layout reflow".  What the base
    class does with the handlers' results is not used by [View]. *)
Definition ViewEventHandler_handleEvents (v : ViewId) (events : list ViewEvent)
    : Js VEnv unit :=
  forOf events (fun e =>
    match e with
    | ViewConfigurationChanged => View_onConfigurationChanged v
    | ViewCursorStateChanged => View_onCursorStateChanged v
    | ViewDecorationsChanged affectsGlyphMargin =>
        View_onDecorationsChanged v affectsGlyphMargin
    | ViewFocusChanged => View_onFocusChanged v
    | ViewThemeChanged => View_onThemeChanged v
    end ;;;
    ret tt).

(** [View.handleEvents(events)] *)
Definition View_handleEvents (v : ViewId) (events : list ViewEvent) : Js VEnv unit :=
  ViewEventHandler_handleEvents v events ;;;
  View_scheduleRender v.

(** The widget interface.  The widget stores ([_contentWidgets],
    [_overlayWidgets], [_glyphMarginWidgets], [_viewZones]) are
    collaborators outside the store modelled here: of a call into them only
    the result the view branches on is kept, as the argument
    [shouldRender]. *)
Definition View_layoutContentWidget (v : ViewId) : Js VEnv unit :=
  View_scheduleRender v.

Definition View_addContentWidget (v : ViewId) : Js VEnv unit :=
  View_layoutContentWidget v ;;;
  View_scheduleRender v.

Definition View_removeContentWidget (v : ViewId) : Js VEnv unit :=
  View_scheduleRender v.

Definition View_layoutOverlayWidget (v : ViewId) (shouldRender : bool) : Js VEnv unit :=
  if shouldRender then View_scheduleRender v else ret tt.

Definition View_addOverlayWidget (v : ViewId) (shouldRender : bool) : Js VEnv unit :=
  View_layoutOverlayWidget v shouldRender ;;;
  View_scheduleRender v.

Definition View_removeOverlayWidget (v : ViewId) : Js VEnv unit :=
  View_scheduleRender v.

Definition View_addGlyphMarginWidget (v : ViewId) : Js VEnv unit :=
  updateView v (set_shouldRecomputeGlyphMarginLanes true) ;;;
  View_scheduleRender v.

Definition View_layoutGlyphMarginWidget (v : ViewId) (shouldRender : bool)
    : Js VEnv unit :=
  if shouldRender
  then updateView v (set_shouldRecomputeGlyphMarginLanes true) ;;;
       View_scheduleRender v
  else ret tt.

Definition View_removeGlyphMarginWidget (v : ViewId) : Js VEnv unit :=
  updateView v (set_shouldRecomputeGlyphMarginLanes true) ;;;
  View_scheduleRender v.

(** [View.change(callback)] *)
Definition View_change (v : ViewId) : Js VEnv unit :=
  View_scheduleRender v.

(** ** The whole system: views, coordinator and frames *)

(** What the constructor of [View] leaves in the fields modelled here:
    [_renderAnimationFrame = null], [_shouldRecomputeGlyphMarginLanes =
    false] and a store that is not disposed. *)
Definition constructed (view : View) : View :=
  set_isDisposed false
    (set_renderAnimationFrame None
       (set_shouldRecomputeGlyphMarginLanes false view)).

(** Freshly constructed views and the coordinator before any use. *)
Definition constructedEnv (vs : gmap ViewId View) : VEnv :=
  initialEnv {| views := constructed <$> vs; nextRid := 0; trace := [] |}.

Abbreviation VWorld := (@World Rendering nat RenderingContext ViewWorld).

Definition startWorld (vs : gmap ViewId View) : VWorld :=
  {| env := constructedEnv vs; calls := [] |}.

(** The calls a client makes on a view. *)
Inductive ApiCall : Type :=
  | ScheduleRender
  | RenderCall (now everything : bool)
  | DisposeCall
  | HandleEvents (events : list ViewEvent)
  | AddContentWidget
  | LayoutContentWidget
  | RemoveContentWidget
  | AddOverlayWidget (shouldRender : bool)
  | LayoutOverlayWidget (shouldRender : bool)
  | RemoveOverlayWidget
  | AddGlyphMarginWidget
  | LayoutGlyphMarginWidget (shouldRender : bool)
  | RemoveGlyphMarginWidget
  | Change.

Definition View_call (v : ViewId) (c : ApiCall) : Js VEnv unit :=
  match c with
  | ScheduleRender => View_scheduleRender v
  | RenderCall now everything => View_render v now everything
  | DisposeCall => View_dispose v
  | HandleEvents events => View_handleEvents v events
  | AddContentWidget => View_addContentWidget v
  | LayoutContentWidget => View_layoutContentWidget v
  | RemoveContentWidget => View_removeContentWidget v
  | AddOverlayWidget shouldRender => View_addOverlayWidget v shouldRender
  | LayoutOverlayWidget shouldRender => View_layoutOverlayWidget v shouldRender
  | RemoveOverlayWidget => View_removeOverlayWidget v
  | AddGlyphMarginWidget => View_addGlyphMarginWidget v
  | LayoutGlyphMarginWidget shouldRender => View_layoutGlyphMarginWidget v shouldRender
  | RemoveGlyphMarginWidget => View_removeGlyphMarginWidget v
  | Change => View_change v
  end.

(** What can happen to the system: a client calls a view, or the frame
    driver fires a request.  An exception of a call goes to the client; the
    store keeps what the call did before it threw. *)
Inductive ViewOp : Type :=
  | DoCall (v : ViewId) (c : ApiCall)
  | DoFrame (h : FrameHandle).

Definition stepView (op : ViewOp) (w : VWorld) : VWorld :=
  match op with
  | DoCall v c => (inEnv (View_call v c) w).2
  | DoFrame h => (fireFrame viewObj h w).2
  end.

Definition runViews (ops : list ViewOp) (w : VWorld) : VWorld :=
  foldl (fun acc op => stepView op acc) w ops.

(** The frame requests and the coordinator's map of runners agree, and
    every pending rendering has a runner for its window. *)
Record handlesOk (s : VEnv) : Prop := {
  ok_bij : forall h (win : CodeWindow),
    requested (frames s) !! h = Some win <-> _animationFrameRunners s !! win = Some h;
  ok_fresh : forall h (win : CodeWindow),
    requested (frames s) !! h = Some win -> h < nextHandle (frames s);
  ok_covered : forall r, r ∈ _coordinatedRenderings s ->
    is_Some (_animationFrameRunners s !! renderingWindow r)
}.

(** The pending list and the [_renderAnimationFrame] fields of the views
    agree. *)
Record armingOk (s : VEnv) : Prop := {
  ok_nodup : NoDup (_coordinatedRenderings s);
  ok_rid : forall r, r ∈ _coordinatedRenderings s -> rid r < nextRid (user s);
  ok_pending : forall r, r ∈ _coordinatedRenderings s ->
    exists view, views (user s) !! this r = Some view
                 /\ _renderAnimationFrame view = Some (RenderingDisposable r);
  ok_armed : forall v view r,
    views (user s) !! v = Some view ->
    _renderAnimationFrame view = Some (RenderingDisposable r) ->
    r ∈ _coordinatedRenderings s /\ this r = v;
  ok_disposed : forall v view,
    views (user s) !! v = Some view -> isDisposed view = true ->
    _renderAnimationFrame view = None
}.

Definition systemOk (s : VEnv) : Prop := handlesOk s /\ armingOk s.

(** The views that are disposed in [s] exist and are disposed in [s']. *)
Definition staysDisposed (s s' : VEnv) : Prop :=
  forall v view,
    views (user s) !! v = Some view -> isDisposed view = true ->
    exists view', views (user s') !! v = Some view' /\ isDisposed view' = true.

(** A computation that keeps the system consistent. *)
Definition apiSafe {A} (m : Js VEnv A) : Prop :=
  forall s, systemOk s -> systemOk (m s).2 /\ staysDisposed s (m s).2.

(** Updates of a view that keep [isDisposed] and [_renderAnimationFrame]. *)
Definition keepsArming (f : View -> View) : Prop :=
  forall view,
    isDisposed (f view) = isDisposed view
    /\ _renderAnimationFrame (f view) = _renderAnimationFrame view.

(** Updates that keep [isDisposed] and keep or clear
    [_renderAnimationFrame]. *)
Definition mayDisarm (f : View -> View) : Prop :=
  forall view,
    isDisposed (f view) = isDisposed view
    /\ (_renderAnimationFrame (f view) = _renderAnimationFrame view
        \/ _renderAnimationFrame (f view) = None).

(** The same views exist before and after, related by [P]; the coordinator
    is untouched. *)
Definition viewsEvolve (P : View -> View -> Prop) (s s' : VEnv) : Prop :=
  coordSame s s'
  /\ forall v, option_Forall2 P (views (user s) !! v) (views (user s') !! v).

Definition armingKept (a b : View) : Prop :=
  isDisposed b = isDisposed a /\ _renderAnimationFrame b = _renderAnimationFrame a.

Definition armingCleared (a b : View) : Prop :=
  isDisposed b = isDisposed a
  /\ (_renderAnimationFrame b = _renderAnimationFrame a
      \/ _renderAnimationFrame b = None).

(** The two halves of [_onRenderScheduled]: the loop of phase 1 and the
    loops of phases 2 to 4, over the snapshot [coordinatedRenderings]. *)
Definition phaseOne (coordinatedRenderings : list Rendering) : Js VWorld unit :=
  forOf coordinatedRenderings (fun rendering =>
    let* res := inEnv (safeInvokeNoArg (prepareRenderText (viewObj rendering))) in
    logCall (CallPrepareRenderText rendering (completed res))).

Definition laterPhases (coordinatedRenderings : list Rendering) : Js VWorld unit :=
  let* datas := forCollect coordinatedRenderings (fun rendering =>
    let* res := inEnv (safeInvokeNoArg (renderText (viewObj rendering))) in
    let data := mjoin res in
    logCall (CallRenderText rendering data) ;;;
    ret data) in
  forOf (zip coordinatedRenderings datas) (fun '(rendering, data) =>
    match data with
    | None => ret tt
    | Some (viewParts, ctx) =>
        let* res := inEnv (safeInvokeNoArg (prepareRender (viewObj rendering) viewParts ctx)) in
        logCall (CallPrepareRender rendering viewParts ctx (completed res))
    end) ;;;
  forOf (zip coordinatedRenderings datas) (fun '(rendering, data) =>
    match data with
    | None => ret tt
    | Some (viewParts, ctx) =>
        let* res := inEnv (safeInvokeNoArg (render (viewObj rendering) viewParts ctx)) in
        logCall (CallRender rendering viewParts ctx (completed res))
    end).

(** Every live view with a rendering in [l] accepts a new rendering. *)
Definition rearmed (l : list Rendering) (s : VEnv) : Prop :=
  forall r view,
    r ∈ l -> views (user s) !! this r = Some view -> isDisposed view = false ->
    _renderAnimationFrame view = None.

(** ** Vocabulary for the rendering of one view *)

(** The parts in [ps] have acknowledged a render. *)
Definition acknowledge (ps : list nat) (parts : list ViewPart) : list ViewPart :=
  foldr (fun p acc => alter (set_shouldRender false) p acc) parts ps.

(** Nothing of the view needs rendering. *)
Definition quiescent (view : View) : Prop :=
  lines_shouldRender (_viewLines view) = false
  /\ _getViewPartsToRender view = [].

(** ** A scenario of the whole system *)

Definition demoViews : gmap ViewId View :=
  <[0 := editorA]> (<[1 := editorB]> (<[2 := editorC]> (<[3 := editorD]> ∅))).

(** Views 0 and 2 schedule a render, view 1 is asked to render everything
    later, view 2 is disposed. *)
Definition demoOps : list ViewOp :=
  [DoCall 0 ScheduleRender; DoCall 2 ScheduleRender;
   DoCall 1 (RenderCall false true); DoCall 2 DisposeCall].

(** ** Vocabulary for the glyph margin lanes *)

Definition affectsGlyphMargin (e : ViewEvent) : bool :=
  match e with
  | ViewDecorationsChanged affects => affects
  | _ => false
  end.

(** The calls that set [_shouldRecomputeGlyphMarginLanes]. *)
Definition changesGlyphs (c : ApiCall) : bool :=
  match c with
  | AddGlyphMarginWidget | RemoveGlyphMarginWidget => true
  | LayoutGlyphMarginWidget shouldRender => shouldRender
  | HandleEvents events => existsb affectsGlyphMargin events
  | _ => false
  end.

(** The computations of the glyph margin lanes of view [v] among [evs]. *)
Definition lanesComputed (v : ViewId) (evs : list Event) : list Event :=
  filter (fun e => e = EvComputeGlyphMarginLanes v) evs.

Definition notLanes (e : Event) : Prop :=
  match e with
  | EvComputeGlyphMarginLanes _ => False
  | _ => True
  end.

(** Updates that keep [_shouldRecomputeGlyphMarginLanes]. *)
Definition keepsFlag (f : View -> View) : Prop :=
  forall view,
    _shouldRecomputeGlyphMarginLanes (f view) = _shouldRecomputeGlyphMarginLanes view.

Definition flagKept (a b : View) : Prop :=
  _shouldRecomputeGlyphMarginLanes b = _shouldRecomputeGlyphMarginLanes a.

(** The calls that end in [_scheduleRender]. *)
Definition schedules (c : ApiCall) : bool :=
  match c with
  | RenderCall now _ => negb now
  | DisposeCall => false
  | LayoutOverlayWidget shouldRender => shouldRender
  | LayoutGlyphMarginWidget shouldRender => shouldRender
  | _ => true
  end.

(** What a call that ends in [_scheduleRender] does to the flags of a view
    before it schedules. *)
Definition touched (c : ApiCall) (view : View) : View :=
  match c with
  | RenderCall _ true => forceView view
  | _ => if changesGlyphs c
         then set_shouldRecomputeGlyphMarginLanes true view
         else view
  end.

(** Three dirty parts; the second throws in render. *)
Definition editorE : View :=
  demoView false true 1 false []
    [demoPart true Completes;
     {| _shouldRender := true; onPrepareRender := Completes;
        onRender := Throws (ExternalError 7) |};
     demoPart true Completes].

Definition demoEnvE : VEnv :=
  withUser (<[4 := editorE]> (views (user demoEnv))) [] demoEnv.

(** The renderings of views 0 and 1 after [demoOps]. *)
Definition renderingOf0 : Rendering :=
  {| rid := 0; this := 0; renderingWindow := 1 |}.

Definition renderingOf1 : Rendering :=
  {| rid := 2; this := 1; renderingWindow := 2 |}.

(** ** The glyph margin lanes *)

(** What [View._computeGlyphMarginLanes] computes.  In the store of the
    views above only the call is recorded ([EvComputeGlyphMarginLanes]);
    here its inputs are the margin decorations of the model and the glyph
    margin widgets, and its result the calls it makes on the lane model. *)
Module GlyphLanes.

(** [Range]: the coordinates are numbers. *)
Record Range : Type := {
  startLineNumber : Z;
  startColumn : Z;
  endLineNumber : Z;
  endColumn : Z
}.

Inductive GlyphMarginLane : Type :=
  | LaneLeft
  | LaneCenter
  | LaneRight.

(** [decoration.options.glyphMargin], read through [?.]: the object and
    each of the two fields may be absent. *)
Record GlyphMarginOptions : Type := {
  position : option GlyphMarginLane;
  persistLane : option bool
}.

Record Decoration : Type := {
  decorationRange : Range;
  glyphMargin : option GlyphMarginOptions
}.

(** [widget.preference] *)
Record GlyphMarginWidget : Type := {
  preferenceRange : Range;
  preferenceLane : GlyphMarginLane
}.

(** [type Glyph = { range: Range; lane: GlyphMarginLane; persist?: boolean }] *)
Record Glyph : Type := {
  range : Range;
  lane : GlyphMarginLane;
  persist : option bool
}.

(** The calls on [this._context.viewModel.glyphLanes]. *)
Inductive LaneModelCall : Type :=
  | LaneReset (maxLine : Z)
  | LanePush (lane : GlyphMarginLane) (range : Range) (persist : option bool).

Section Compute.

(** [model.validateRange] and [Range.compareRangesUsingStarts] are
    collaborators (textModel.ts and core/range.ts are not under src). *)
Variable validateRange : Range -> Range.
Variable compareRangesUsingStarts : Range -> Range -> Z.

(** The callback of [getAllMarginDecorations().map]; it updates the
    captured [maxLineNumber]. *)
Definition decorationGlyph (decoration : Decoration) (maxLineNumber : Z) : Glyph * Z :=
  let lane := default LaneCenter (glyphMargin decoration ≫= position) in
  let maxLineNumber :=
    Z.max maxLineNumber (endLineNumber (decorationRange decoration)) in
  ({| range := decorationRange decoration;
      lane := lane;
      persist := glyphMargin decoration ≫= persistLane |},
   maxLineNumber).

(** The callback of [getWidgets().map]. *)
Definition widgetGlyph (widget : GlyphMarginWidget) (maxLineNumber : Z) : Glyph * Z :=
  let range := validateRange (preferenceRange widget) in
  let maxLineNumber := Z.max maxLineNumber (endLineNumber range) in
  ({| range := range; lane := preferenceLane widget; persist := None |},
   maxLineNumber).

(** [Array.prototype.map] with a callback that threads [maxLineNumber]. *)
Fixpoint mapWithMax {A} (f : A -> Z -> Glyph * Z) (l : list A) (maxLineNumber : Z)
    : list Glyph * Z :=
  match l with
  | [] => ([], maxLineNumber)
  | x :: l' =>
      let '(glyph, maxLineNumber) := f x maxLineNumber in
      let '(glyphs, maxLineNumber) := mapWithMax f l' maxLineNumber in
      (glyph :: glyphs, maxLineNumber)
  end.

(** [glyphs.sort((a, b) => Range.compareRangesUsingStarts(a.range, b.range))].
    [Array.prototype.sort] is stable, and for a consistent comparator its
    result is the one of this insertion sort: an element goes before the
    first later element it does not compare greater than. *)
Fixpoint insertGlyph (glyph : Glyph) (sorted : list Glyph) : list Glyph :=
  match sorted with
  | [] => [glyph]
  | other :: rest =>
      if (compareRangesUsingStarts (range glyph) (range other) <=? 0)%Z
      then glyph :: other :: rest
      else other :: insertGlyph glyph rest
  end.

Definition sortGlyphs (glyphs : list Glyph) : list Glyph :=
  foldr insertGlyph [] glyphs.

(** [View._computeGlyphMarginLanes()] *)
Definition _computeGlyphMarginLanes (decorations : list Decoration)
    (widgets : list GlyphMarginWidget) : list LaneModelCall :=
  let glyphs := [] in
  let maxLineNumber := 0%Z in
  let '(fromDecorations, maxLineNumber) :=
    mapWithMax decorationGlyph decorations maxLineNumber in
  let glyphs := glyphs ++ fromDecorations in
  let '(fromWidgets, maxLineNumber) :=
    mapWithMax widgetGlyph widgets maxLineNumber in
  let glyphs := glyphs ++ fromWidgets in
  let glyphs := sortGlyphs glyphs in
  LaneReset maxLineNumber
    :: ((fun glyph => LanePush (lane glyph) (range glyph) (persist glyph)) <$> glyphs).

(** The glyph of a decoration and of a widget. *)
Definition glyphOfDecoration (decoration : Decoration) : Glyph :=
  (decorationGlyph decoration 0).1.

Definition glyphOfWidget (widget : GlyphMarginWidget) : Glyph :=
  (widgetGlyph widget 0).1.

(** [a] does not start after [b]. *)
Definition startsBefore (a b : Glyph) : Prop :=
  (compareRangesUsingStarts (range a) (range b) <= 0)%Z.

Fixpoint sortedByStart (glyphs : list Glyph) : Prop :=
  match glyphs with
  | [] => True
  | glyph :: rest => Forall (startsBefore glyph) rest /\ sortedByStart rest
  end.

(** The comparator is a total preorder. *)
Definition consistentComparator : Prop :=
  (forall a b, (compareRangesUsingStarts a b <= 0 \/ compareRangesUsingStarts b a <= 0)%Z)
  /\ (forall a b c,
        (compareRangesUsingStarts a b <= 0)%Z ->
        (compareRangesUsingStarts b c <= 0)%Z ->
        (compareRangesUsingStarts a c <= 0)%Z).

End Compute.

(** A comparator for the scenarios: by start line, then by start column. *)
Definition compareStarts (a b : Range) : Z :=
  if (startLineNumber a =? startLineNumber b)%Z
  then (startColumn a - startColumn b)%Z
  else (startLineNumber a - startLineNumber b)%Z.

Definition lineRange (line column : Z) : Range :=
  {| startLineNumber := line; startColumn := column;
     endLineNumber := line; endColumn := column |}.

(** A model of four lines: ranges are clipped to its last line. *)
Definition clipToFourLines (r : Range) : Range :=
  {| startLineNumber := Z.min (startLineNumber r) 4;
     startColumn := startColumn r;
     endLineNumber := Z.min (endLineNumber r) 4;
     endColumn := endColumn r |}.

Definition demoDecorations : list Decoration :=
  [ {| decorationRange := lineRange 3 1; glyphMargin := None |};
    {| decorationRange := lineRange 1 1;
       glyphMargin := Some {| position := Some LaneRight; persistLane := Some true |} |} ].

Definition demoWidgets : list GlyphMarginWidget :=
  [ {| preferenceRange := lineRange 9 1; preferenceLane := LaneLeft |};
    {| preferenceRange := lineRange 1 1; preferenceLane := LaneLeft |} ].

End GlyphLanes.

(** * Properties *)

(** * Properties of the effect monad *)

Section JsFacts.
Context {S : Type}.

Lemma bind_returned {A B} (m : Js S A) (k : A -> Js S B) s a s' :
  m s = (Returned a, s') -> bind m k s = k a s'.
Proof. intros Hm. unfold bind. by rewrite Hm. Qed.

Lemma bind_thrown {A B} (m : Js S A) (k : A -> Js S B) s e s' :
  m s = (Thrown e, s') -> bind m k s = (Thrown e, s').
Proof. intros Hm. unfold bind. by rewrite Hm. Qed.

Lemma forOf_app {A} (l1 l2 : list A) (body : A -> Js S unit) s :
  forOf (l1 ++ l2) body s = (forOf l1 body ;;; forOf l2 body) s.
Proof.
  revert s. induction l1 as [|x l1 IH]; intros s; simpl.
  - reflexivity.
  - unfold bind in *. destruct (body x s) as [[[]|e] s1]; [|reflexivity].
    apply IH.
Qed.
End JsFacts.

Section CoordinatorFacts.
Context {R : Type} `{EqDecision R} {VP Ctx U : Type}.
Variable obj : R -> @ICoordinatedRendering R VP Ctx U.
Implicit Types (w : @World R VP Ctx U) (s : @Env R U) (c : @Call R VP Ctx).
Implicit Types (I : @Env R U -> Prop) (log cs : list (@Call R VP Ctx)).
Local Abbreviation Js_World := (Js (@World R VP Ctx U)).
Local Abbreviation Js_Env := (Js (@Env R U)).
Local Abbreviation Log := (list (@Call R VP Ctx)).

Lemma safeInvokeNoArg_returns {T} (f : Js_Env T) s :
  exists o s', safeInvokeNoArg f s = (Returned o, s').
Proof.
  unfold safeInvokeNoArg. destruct (f s) as [[a|e] s1]; eauto.
Qed.

(** *** Rules for [logs] *)

Lemma logs_ret I {A} (a : A) (Φ : A -> Log -> Prop) :
  Φ a [] -> logs I (ret a) Φ.
Proof.
  intros HΦ [e cs] HI. exists a, e, []. simpl. rewrite app_nil_r. auto.
Qed.

Lemma logs_bind I {A B} (m : Js_World A) (k : A -> Js_World B)
    (Φ1 : A -> Log -> Prop) (Φ2 : A -> B -> Log -> Prop) :
  logs I m Φ1 ->
  (forall a, logs I (k a) (Φ2 a)) ->
  logs I (bind m k)
    (fun b cs => exists a cs1 cs2, cs = cs1 ++ cs2 /\ Φ1 a cs1 /\ Φ2 a b cs2).
Proof.
  intros Hm Hk w HI.
  destruct (Hm w HI) as (a & e1 & cs1 & Em & HI1 & H1).
  destruct (Hk a {| env := e1; calls := calls w ++ cs1 |} HI1)
    as (b & e2 & cs2 & Ek & HI2 & H2).
  exists b, e2, (cs1 ++ cs2). split; [|split; [done|]].
  - rewrite (bind_returned _ _ _ _ _ Em), Ek. simpl. by rewrite app_assoc.
  - by exists a, cs1, cs2.
Qed.

Lemma logs_weaken I {A} (m : Js_World A)
    (Φ Ψ : A -> Log -> Prop) :
  logs I m Φ -> (forall a cs, Φ a cs -> Ψ a cs) -> logs I m Ψ.
Proof.
  intros Hm HΦ w HI. destruct (Hm w HI) as (a & e' & cs & E & HI' & H1).
  exists a, e', cs. auto.
Qed.

Lemma logs_inEnv I {A} (m : Js_Env A) (Ψ : A -> Prop) :
  (forall s, I s -> exists a s', m s = (Returned a, s') /\ I s' /\ Ψ a) ->
  logs I (inEnv m) (fun a cs => cs = [] /\ Ψ a).
Proof.
  intros Hm [e cs] HI. simpl in HI.
  destruct (Hm e HI) as (a & s' & E & HI' & HΨ).
  exists a, s', []. unfold inEnv, zoom. simpl. rewrite E, app_nil_r. auto.
Qed.

Lemma logs_logCall I c :
  logs I (logCall c) (fun _ cs => cs = [c]).
Proof. intros [e cs] HI. exists tt, e, [c]. auto. Qed.

Lemma logs_forOf I {A} (body : A -> Js_World unit)
    (P : A -> Log -> Prop) (l : list A) :
  (forall x, logs I (body x) (fun _ cs => P x cs)) ->
  logs I (forOf l body)
    (fun _ cs => exists css, cs = concat css /\ Forall2 P l css).
Proof.
  intros Hbody. induction l as [|x l IH]; simpl.
  - apply logs_ret. exists []. split; [done|constructor].
  - eapply logs_weaken; [eapply logs_bind; [apply Hbody|intros ?; apply IH]|].
    intros _ cs (_ & cs1 & cs2 & -> & H1 & css & -> & H2).
    exists (cs1 :: css). split; [done|by constructor].
Qed.

Lemma logs_forCollect I {A B} (body : A -> Js_World B)
    (P : A -> B -> Prop) (mk : A -> B -> Call) (l : list A) :
  (forall x, logs I (body x) (fun y cs => cs = [mk x y] /\ P x y)) ->
  logs I (forCollect l body)
    (fun ys cs => cs = zip_with mk l ys /\ Forall2 P l ys).
Proof.
  intros Hbody. induction l as [|x l IH]; simpl.
  - apply logs_ret. split; [done|constructor].
  - eapply logs_weaken.
    { eapply logs_bind; [apply Hbody|]. intros y.
      eapply logs_bind; [apply IH|]. intros ys.
      apply (logs_ret I (y :: ys) (fun r cs => r = y :: ys /\ cs = [])). done. }
    simpl. intros r cs (y & cs1 & cs2 & E1 & [E2 Hy] & ys & cs3 & cs4 & E3 & [E4 Hys] & E5 & E6).
    subst. split; [by rewrite app_nil_r|by constructor].
Qed.

Lemma Forall2_concat_singletons {A} (P : A -> Call -> Prop) (l : list A) (css : list Log) :
  Forall2 (fun x cs => exists c, cs = [c] /\ P x c) l css ->
  Forall2 P l (concat css).
Proof.
  induction 1 as [|x cs l css (c & -> & Hc) _ IH]; simpl; by constructor.
Qed.

(** *** The frame callback *)


Section Frame.
Variable I : @Env R U -> Prop.
Variable Q : R -> option (list VP * Ctx) -> Prop.
Hypothesis I_swap : forall s, I s -> I (set_renderings [] s).
Hypothesis I_prepareRenderText :
  forall r s, I s -> I (safeInvokeNoArg (prepareRenderText (obj r)) s).2.
Hypothesis I_renderText :
  forall r s, I s ->
    I (safeInvokeNoArg (renderText (obj r)) s).2 /\
    forall o, (safeInvokeNoArg (renderText (obj r)) s).1 = Returned o -> Q r (mjoin o).
Hypothesis I_prepareRender :
  forall r vps ctx s, I s -> I (safeInvokeNoArg (prepareRender (obj r) vps ctx) s).2.
Hypothesis I_render :
  forall r vps ctx s, I s -> I (safeInvokeNoArg (render (obj r) vps ctx) s).2.

Lemma logs_safeInvoke {T} (f : Js_Env T) (Ψ : option T -> Prop) :
  (forall s, I s -> I (safeInvokeNoArg f s).2 /\
     forall o, (safeInvokeNoArg f s).1 = Returned o -> Ψ o) ->
  logs I (inEnv (safeInvokeNoArg f)) (fun o cs => cs = [] /\ Ψ o).
Proof.
  intros Hf. apply logs_inEnv. intros s HI.
  destruct (safeInvokeNoArg_returns f s) as (o & s' & E).
  destruct (Hf s HI) as [HI' HΨ]. rewrite E in HI', HΨ.
  exists o, s'. auto.
Qed.

Lemma onRenderScheduled_logs w :
  I (env w) ->
  let batch := _coordinatedRenderings (env w) in
  exists e' L1 datas css3 css4,
    _onRenderScheduled obj w =
      (Returned tt,
       {| env := e';
          calls := calls w ++ L1 ++ zip_with CallRenderText batch datas
                     ++ concat css3 ++ concat css4 |})
    /\ I e'
    /\ Forall2 (fun r c => exists ok, c = CallPrepareRenderText r ok) batch L1
    /\ Forall2 Q batch datas
    /\ Forall2 (slotCalls CallPrepareRender) (zip batch datas) css3
    /\ Forall2 (slotCalls CallRender) (zip batch datas) css4.
Proof.
  destruct w as [e cs0]. simpl. intros HI.
  set (batch := _coordinatedRenderings e).
  unfold _onRenderScheduled.
  rewrite (bind_returned _ _ _ batch {| env := e; calls := cs0 |}) by reflexivity.
  rewrite (bind_returned _ _ _ tt {| env := set_renderings [] e; calls := cs0 |})
    by reflexivity.
  lazymatch goal with
  | |- exists e' L1 datas css3 css4, ?T ?w1 = _ /\ _ =>
      assert (HT : logs I T (fun _ cs =>
        exists L1 datas css3 css4,
          cs = L1 ++ zip_with CallRenderText batch datas
                  ++ concat css3 ++ concat css4
          /\ Forall2 (fun r c => exists ok, c = CallPrepareRenderText r ok) batch L1
          /\ Forall2 Q batch datas
          /\ Forall2 (slotCalls CallPrepareRender) (zip batch datas) css3
          /\ Forall2 (slotCalls CallRender) (zip batch datas) css4))
  end.
  { eapply logs_weaken.
    - eapply logs_bind.
      + apply (logs_forOf I _
          (fun r cs => exists c, cs = [c] /\ exists ok, c = CallPrepareRenderText r ok)).
        intros r. eapply logs_weaken.
        * eapply logs_bind; [apply (logs_safeInvoke _ (fun _ => True))|].
          { intros s Hs. split; [by apply I_prepareRenderText|done]. }
          intros res. apply logs_logCall.
        * simpl. intros _ cs (res & cs1 & cs2 & -> & [-> _] & ->). simpl. eauto.
      + intros ?. eapply logs_bind.
        * apply (logs_forCollect I _ Q CallRenderText).
          intros r. eapply logs_weaken.
          -- eapply logs_bind; [apply (logs_safeInvoke _ (fun o => Q r (mjoin o)))|].
             { intros s Hs. by apply I_renderText. }
             intros res. eapply logs_bind; [apply logs_logCall|].
             intros ?. apply (logs_ret I _ (fun d cs => d = mjoin res /\ cs = [])). done.
          -- simpl. intros d cs (res & cs1 & cs2 & -> & [-> HQ] & [] & cs3 & cs4 & -> & -> & -> & ->).
             simpl. done.
        * intros datas. eapply logs_bind.
          -- apply (logs_forOf I _ (slotCalls CallPrepareRender)).
             intros [r [[vps ctx]|]]; unfold slotCalls; simpl.
             ++ eapply logs_weaken.
                ** eapply logs_bind; [apply (logs_safeInvoke _ (fun _ => True))|].
                   { intros s Hs. split; [by apply I_prepareRender|done]. }
                   intros res. apply logs_logCall.
                ** simpl. intros _ cs (res & cs1 & cs2 & -> & [-> _] & ->). eauto.
             ++ by apply logs_ret.
          -- intros ?. apply (logs_forOf I _ (slotCalls CallRender)).
             intros [r [[vps ctx]|]]; unfold slotCalls; simpl.
             ++ eapply logs_weaken.
                ** eapply logs_bind; [apply (logs_safeInvoke _ (fun _ => True))|].
                   { intros s Hs. split; [by apply I_render|done]. }
                   intros res. apply logs_logCall.
                ** simpl. intros _ cs (res & cs1 & cs2 & -> & [-> _] & ->). eauto.
             ++ by apply logs_ret.
    - simpl. intros _ cs
        ([] & cs1 & cs2 & -> & (css1 & -> & H1)
         & datas & cs3 & cs4 & -> & [-> H2]
         & [] & cs5 & cs6 & -> & (css3 & -> & H3) & (css4 & -> & H4)).
      exists (concat css1), datas, css3, css4.
      split; [done|]. split; [by apply Forall2_concat_singletons|done]. }
  destruct (HT {| env := set_renderings [] e; calls := cs0 |} (I_swap _ HI))
    as ([] & e' & cs & E & HI' & L1 & datas & css3 & css4 & -> & H1 & H2 & H3 & H4).
  exists e', L1, datas, css3, css4. simpl in E. auto 10.
Qed.
End Frame.

(** *** Reading the log *)


Lemma ordered_const ph (l : Log) :
  Forall (fun c => phaseOf c = ph) l -> ordered l.
Proof.
  intros Hl i j c d Hi Hj Hlt.
  rewrite Forall_lookup in Hl.
  rewrite (Hl _ _ Hi), (Hl _ _ Hj) in Hlt. lia.
Qed.

Lemma ordered_app n (l1 l2 : Log) :
  Forall (fun c => phaseIndex (phaseOf c) <= n) l1 ->
  Forall (fun d => n <= phaseIndex (phaseOf d)) l2 ->
  ordered l1 -> ordered l2 -> ordered (l1 ++ l2).
Proof.
  intros H1 H2 O1 O2 i j c d Hi Hj Hlt.
  rewrite Forall_lookup in H1. rewrite Forall_lookup in H2.
  apply lookup_app_Some in Hi as [Hi|[Hi1 Hi2]];
    apply lookup_app_Some in Hj as [Hj|[Hj1 Hj2]].
  - eauto.
  - apply lookup_lt_Some in Hi. lia.
  - specialize (H2 _ _ Hi2). specialize (H1 _ _ Hj). lia.
  - specialize (O2 _ _ _ _ Hi2 Hj2 Hlt). lia.
Qed.

Lemma filter_phase_all ph (l : Log) :
  Forall (fun c => phaseOf c = ph) l ->
  filter (fun c => phaseOf c = ph) l = l.
Proof.
  induction 1 as [|c l Hc _ IH]; [done|].
  rewrite filter_cons_True by done. by rewrite IH.
Qed.

Lemma filter_phase_none ph ph' (l : Log) :
  ph <> ph' ->
  Forall (fun c => phaseOf c = ph') l ->
  filter (fun c => phaseOf c = ph) l = [].
Proof.
  intros Hne. induction 1 as [|c l Hc _ IH]; [done|].
  rewrite filter_cons_False by congruence. done.
Qed.

Lemma phase1_shape (batch : list R) (L1 : Log) :
  Forall2 (fun r c => exists ok, c = CallPrepareRenderText r ok) batch L1 ->
  callee <$> L1 = batch /\ Forall (fun c => phaseOf c = PrepareRenderText) L1.
Proof.
  induction 1 as [|r c batch L1 [ok ->] _ [IH1 IH2]]; csimpl.
  - split; [done|constructor].
  - rewrite IH1. split; [done|by constructor].
Qed.

Lemma phase2_shape (batch : list R) (datas : list (option (list VP * Ctx))) :
  length batch = length datas ->
  callee <$> zip_with CallRenderText batch datas = batch
  /\ Forall (fun c => phaseOf c = RenderText) (zip_with CallRenderText batch datas).
Proof.
  revert datas. induction batch as [|r batch IH]; intros [|d datas] Hlen;
    csimpl in *; try discriminate.
  - split; [done|constructor].
  - destruct (IH datas) as [IH1 IH2]; [lia|].
    rewrite IH1. split; [done|by constructor].
Qed.

Lemma slots_shape (mk : R -> list VP -> Ctx -> bool -> Call) ph
    (batch : list R) (datas : list (option (list VP * Ctx))) (css : list Log) :
  (forall r vps ctx ok, callee (mk r vps ctx ok) = r /\ phaseOf (mk r vps ctx ok) = ph) ->
  Forall2 (slotCalls mk) (zip batch datas) css ->
  sublist (callee <$> concat css) batch
  /\ Forall (fun c => phaseOf c = ph) (concat css).
Proof.
  intros Hmk. revert datas css.
  induction batch as [|r batch IH]; intros datas css Hcss.
  - simpl in Hcss. inversion Hcss; subst. csimpl. split; [done|constructor].
  - destruct datas as [|d datas].
    { simpl in Hcss. inversion Hcss; subst. csimpl.
      split; [apply sublist_nil_l|constructor]. }
    simpl in Hcss. inversion Hcss as [|slot cs slots css' Hslot Hrest]; subst.
    destruct (IH _ _ Hrest) as [IH1 IH2].
    unfold slotCalls in Hslot. simpl in Hslot. destruct d as [[vps ctx]|].
    + destruct Hslot as [ok ->]. destruct (Hmk r vps ctx ok) as [E1 E2]. csimpl.
      rewrite E1. split; [by apply sublist_skip|by constructor].
    + subst cs. csimpl. split; [by apply sublist_cons|done].
Qed.

Lemma elem_of_concat (c : Call) (css : list Log) :
  c ∈ concat css <-> exists i cs, css !! i = Some cs /\ c ∈ cs.
Proof.
  induction css as [|cs css IH]; simpl.
  - split; [by intros ?%elem_of_nil|by intros (i & cs & ? & _)].
  - rewrite elem_of_app, IH. split.
    + intros [Hc|(i & cs' & Hi & Hc)]; [by exists 0, cs|by exists (S i), cs'].
    + intros ([|i] & cs' & Hi & Hc); simpl in Hi; [left; congruence|right; eauto].
Qed.

Lemma slots_lookup (mk : R -> list VP -> Ctx -> bool -> Call)
    (slots : list (R * option (list VP * Ctx))) (css : list Log) c :
  Forall2 (slotCalls mk) slots css ->
  c ∈ concat css ->
  exists i r vps ctx ok,
    slots !! i = Some (r, Some (vps, ctx)) /\ c = mk r vps ctx ok.
Proof.
  intros Hcss (i & cs & Hi & Hc)%elem_of_concat.
  destruct (Forall2_lookup_r _ _ _ _ _ Hcss Hi) as ([r d] & Hslot & Hcs).
  unfold slotCalls in Hcs. simpl in Hcs. destruct d as [[vps ctx]|].
  - destruct Hcs as [ok ->]. apply list_elem_of_singleton in Hc.
    by exists i, r, vps, ctx, ok.
  - subst cs. by apply elem_of_nil in Hc.
Qed.

Lemma slots_elem (mk : R -> list VP -> Ctx -> bool -> Call)
    (slots : list (R * option (list VP * Ctx))) (css : list Log) i r vps ctx :
  Forall2 (slotCalls mk) slots css ->
  slots !! i = Some (r, Some (vps, ctx)) ->
  exists ok, mk r vps ctx ok ∈ concat css.
Proof.
  intros Hcss Hslot.
  destruct (Forall2_lookup_l _ _ _ _ _ Hcss Hslot) as (cs & Hi & Hcs).
  unfold slotCalls in Hcs. simpl in Hcs. destruct Hcs as [ok ->].
  exists ok. apply elem_of_concat. exists i, [mk r vps ctx ok].
  split; [done|]. by apply list_elem_of_singleton.
Qed.

(** Whatever the participants do, the frame callback returns and its log
    is made of four blocks, one per phase. *)
Lemma onRenderScheduled_blocks w :
  let batch := _coordinatedRenderings (env w) in
  exists e' L1 datas css3 css4,
    _onRenderScheduled obj w =
      (Returned tt,
       {| env := e';
          calls := calls w ++ L1 ++ zip_with CallRenderText batch datas
                     ++ concat css3 ++ concat css4 |})
    /\ Forall2 (fun r c => exists ok, c = CallPrepareRenderText r ok) batch L1
    /\ length batch = length datas
    /\ Forall2 (slotCalls CallPrepareRender) (zip batch datas) css3
    /\ Forall2 (slotCalls CallRender) (zip batch datas) css4.
Proof.
  destruct (onRenderScheduled_logs (fun _ => True) (fun _ _ => True)) with (w := w)
    as (e' & L1 & datas & css3 & css4 & E & _ & H1 & H2 & H3 & H4); try done.
  exists e', L1, datas, css3, css4.
  split; [done|]. split; [done|]. split; [|done].
  by eapply Forall2_length.
Qed.

(** The facts read off a log made of the four blocks. *)
Lemma blocks_facts (batch : list R) (L1 : Log) datas css3 css4 :
  Forall2 (fun r c => exists ok, c = CallPrepareRenderText r ok) batch L1 ->
  length batch = length datas ->
  Forall2 (slotCalls CallPrepareRender) (zip batch datas) css3 ->
  Forall2 (slotCalls CallRender) (zip batch datas) css4 ->
  let log := L1 ++ zip_with CallRenderText batch datas ++ concat css3 ++ concat css4 in
  ordered log
  /\ participants PrepareRenderText log = batch
  /\ participants RenderText log = batch
  /\ sublist (participants PrepareRender log) batch
  /\ sublist (participants Render log) batch
  /\ (forall c, c ∈ log -> callee c ∈ batch).
Proof.
  intros H1 Hlen H3 H4 log.
  destruct (phase1_shape _ _ H1) as [C1 P1].
  destruct (phase2_shape _ _ Hlen) as [C2 P2].
  destruct (slots_shape CallPrepareRender PrepareRender _ _ _ ltac:(done) H3) as [C3 P3].
  destruct (slots_shape CallRender Render _ _ _ ltac:(done) H4) as [C4 P4].
  split; [|split; [|split; [|split; [|split]]]].
  - unfold log.
    apply (ordered_app 0).
    { eapply Forall_impl; [exact P1|]. by intros c ->. }
    { repeat apply Forall_app_2; (eapply Forall_impl; [eassumption|]);
        intros c ->; simpl; lia. }
    { by eapply ordered_const. }
    apply (ordered_app 1).
    { eapply Forall_impl; [exact P2|]. by intros c ->. }
    { repeat apply Forall_app_2; (eapply Forall_impl; [eassumption|]);
        intros c ->; simpl; lia. }
    { by eapply ordered_const. }
    apply (ordered_app 2).
    { eapply Forall_impl; [exact P3|]. by intros c ->. }
    { eapply Forall_impl; [exact P4|]. intros c ->. simpl. lia. }
    { by eapply ordered_const. }
    by eapply ordered_const.
  - unfold participants, log. rewrite !filter_app.
    rewrite (filter_phase_all _ _ P1).
    rewrite (filter_phase_none PrepareRenderText RenderText _ ltac:(done) P2).
    rewrite (filter_phase_none PrepareRenderText PrepareRender _ ltac:(done) P3).
    rewrite (filter_phase_none PrepareRenderText Render _ ltac:(done) P4).
    by rewrite !app_nil_r.
  - unfold participants, log. rewrite !filter_app.
    rewrite (filter_phase_none RenderText PrepareRenderText _ ltac:(done) P1).
    rewrite (filter_phase_all _ _ P2).
    rewrite (filter_phase_none RenderText PrepareRender _ ltac:(done) P3).
    rewrite (filter_phase_none RenderText Render _ ltac:(done) P4).
    by rewrite !app_nil_r.
  - unfold participants, log. rewrite !filter_app.
    rewrite (filter_phase_none PrepareRender PrepareRenderText _ ltac:(done) P1).
    rewrite (filter_phase_none PrepareRender RenderText _ ltac:(done) P2).
    rewrite (filter_phase_all _ _ P3).
    rewrite (filter_phase_none PrepareRender Render _ ltac:(done) P4).
    by rewrite !app_nil_r.
  - unfold participants, log. rewrite !filter_app.
    rewrite (filter_phase_none Render PrepareRenderText _ ltac:(done) P1).
    rewrite (filter_phase_none Render RenderText _ ltac:(done) P2).
    rewrite (filter_phase_none Render PrepareRender _ ltac:(done) P3).
    rewrite (filter_phase_all _ _ P4).
    done.
  - intros c. unfold log. rewrite !elem_of_app.
    intros [Hc|[Hc|[Hc|Hc]]].
    + pose proof (list_elem_of_fmap_2 callee _ _ Hc) as Hin. by rewrite C1 in Hin.
    + pose proof (list_elem_of_fmap_2 callee _ _ Hc) as Hin. by rewrite C2 in Hin.
    + eapply elem_of_sublist; [|exact C3]. by apply list_elem_of_fmap_2.
    + eapply elem_of_sublist; [|exact C4]. by apply list_elem_of_fmap_2.
Qed.

(** C1. In every invocation of the frame callback the calls are made phase
    by phase over the whole batch: every prepareRenderText call precedes
    every renderText call, every renderText call precedes every
    prepareRender call and every prepareRender call precedes every render
    call; within a phase the participants are visited in the order of the
    pending list, which is the order of registration. *)
Theorem C1_phases_ordered_over_batch w :
  let batch := _coordinatedRenderings (env w) in
  exists w' log,
    _onRenderScheduled obj w = (Returned tt, w')
    /\ calls w' = calls w ++ log
    /\ (forall i j c d, log !! i = Some c -> log !! j = Some d ->
          phaseIndex (phaseOf c) < phaseIndex (phaseOf d) -> i < j)
    /\ participants PrepareRenderText log = batch
    /\ participants RenderText log = batch
    /\ sublist (participants PrepareRender log) batch
    /\ sublist (participants Render log) batch.
Proof.
  intros batch.
  destruct (onRenderScheduled_blocks w)
    as (e' & L1 & datas & css3 & css4 & E & H1 & Hlen & H3 & H4).
  destruct (blocks_facts _ _ _ _ _ H1 Hlen H3 H4) as (F1 & F2 & F3 & F4 & F5 & _).
  eexists _, _. split; [exact E|]. split; [reflexivity|]. auto.
Qed.

Lemma fireFrame_runs_callback w h win :
  requested (frames (env w)) !! h = Some win ->
  fireFrame obj h w =
    _onRenderScheduled obj
      {| env := set_runners (delete win (_animationFrameRunners (env w)))
                  (set_frames (cancelFrame h (frames (env w))) (env w));
         calls := calls w |}.
Proof.
  intros Hh. destruct w as [e cs]. simpl in *.
  unfold fireFrame.
  rewrite (bind_returned _ _ _ (frames e) {| env := e; calls := cs |}) by reflexivity.
  rewrite Hh. reflexivity.
Qed.

Lemma fireFrame_blocks w h win :
  requested (frames (env w)) !! h = Some win ->
  let batch := _coordinatedRenderings (env w) in
  exists e' L1 datas css3 css4,
    fireFrame obj h w =
      (Returned tt,
       {| env := e';
          calls := calls w ++ L1 ++ zip_with CallRenderText batch datas
                     ++ concat css3 ++ concat css4 |})
    /\ Forall2 (fun r c => exists ok, c = CallPrepareRenderText r ok) batch L1
    /\ length batch = length datas
    /\ Forall2 (slotCalls CallPrepareRender) (zip batch datas) css3
    /\ Forall2 (slotCalls CallRender) (zip batch datas) css4.
Proof.
  intros Hh batch. rewrite (fireFrame_runs_callback _ _ _ Hh).
  match goal with |- context [_onRenderScheduled obj ?w0] =>
    destruct (onRenderScheduled_blocks w0)
      as (e' & L1 & datas & css3 & css4 & E & H1 & Hlen & H3 & H4)
  end.
  simpl in *. by exists e', L1, datas, css3, css4.
Qed.

(** *** Rules for [replaying] *)

Lemma replays_app e l1 e1 l2 e2 :
  replays obj e l1 e1 -> replays obj e1 l2 e2 -> replays obj e (l1 ++ l2) e2.
Proof.
  revert e. induction l1 as [|c l1 IH]; intros e; simpl.
  - by intros ->.
  - intros (e' & Hc & Hl) H2. exists e'. split; [done|]. by apply IH.
Qed.

Lemma replays_split e l1 l2 e2 :
  replays obj e (l1 ++ l2) e2 ->
  exists e1, replays obj e l1 e1 /\ replays obj e1 l2 e2.
Proof.
  revert e. induction l1 as [|c l1 IH]; intros e; simpl.
  - intros H. by exists e.
  - intros (e' & Hc & Hl). destruct (IH e' Hl) as (e1 & H1 & H2).
    exists e1. split; [|done]. by exists e'.
Qed.

Lemma performs_unique c e a b : performs obj c e a -> performs obj c e b -> a = b.
Proof.
  destruct c; simpl; intros (o1 & E1 & _) (o2 & E2 & _); congruence.
Qed.

Lemma replays_unique e l a b : replays obj e l a -> replays obj e l b -> a = b.
Proof.
  revert e. induction l as [|c l IH]; intros e; simpl.
  - congruence.
  - intros (e1 & Hc1 & H1) (e2 & Hc2 & H2).
    rewrite (performs_unique _ _ _ _ Hc1 Hc2) in H1. by apply (IH e2).
Qed.

Lemma replays_keeps (P : @Env R U -> Prop) e l e' :
  (forall c a b, c ∈ l -> performs obj c a b -> P a -> P b) ->
  replays obj e l e' -> P e -> P e'.
Proof.
  revert e. induction l as [|c l IH]; intros e Hl; simpl.
  - by intros ->.
  - intros (e1 & Hc & Hr) He. apply (IH e1); [|done|].
    + intros c' a b Hc'. apply Hl. by right.
    + apply (Hl c e e1); [by left|done..].
Qed.

Lemma replaying_ret {A} (a : A) : replaying obj (ret a : Js_World A).
Proof. intros [e cs]. exists a, e, []. simpl. by rewrite app_nil_r. Qed.

Lemma replaying_bind {A B} (m : Js_World A) (k : A -> Js_World B) :
  replaying obj m -> (forall a, replaying obj (k a)) -> replaying obj (bind m k).
Proof.
  intros Hm Hk w.
  destruct (Hm w) as (a & e1 & cs1 & Em & H1).
  destruct (Hk a {| env := e1; calls := calls w ++ cs1 |}) as (b & e2 & cs2 & Ek & H2).
  exists b, e2, (cs1 ++ cs2). split.
  - rewrite (bind_returned _ _ _ _ _ Em), Ek. simpl. by rewrite app_assoc.
  - by eapply replays_app.
Qed.

Lemma replaying_forOf {A} (l : list A) (body : A -> Js_World unit) :
  (forall x, replaying obj (body x)) -> replaying obj (forOf l body).
Proof.
  intros Hb. induction l as [|x l IH]; simpl.
  - apply replaying_ret.
  - apply replaying_bind; [apply Hb|intros _; apply IH].
Qed.

Lemma replaying_forCollect {A B} (l : list A) (body : A -> Js_World B) :
  (forall x, replaying obj (body x)) -> replaying obj (forCollect l body).
Proof.
  intros Hb. induction l as [|x l IH]; simpl.
  - apply replaying_ret.
  - apply replaying_bind; [apply Hb|]. intros y.
    apply replaying_bind; [apply IH|]. intros ys. apply replaying_ret.
Qed.

(** A call under [safeInvokeNoArg] followed by its log entry. *)
Lemma replaying_invoke {T} (f : Js_Env T) (mk : option T -> @Call R VP Ctx) :
  (forall o e e', safeInvokeNoArg f e = (Returned o, e') -> performs obj (mk o) e e') ->
  replaying obj (let* res := inEnv (safeInvokeNoArg f) in logCall (mk res)).
Proof.
  intros Hmk [e cs]. destruct (safeInvokeNoArg_returns f e) as (o & e' & E).
  exists tt, e', [mk o]. split.
  - rewrite (bind_returned _ _ _ o {| env := e'; calls := cs |}); [done|].
    unfold inEnv, zoom. simpl. by rewrite E.
  - simpl. exists e'. split; [by apply Hmk|done].
Qed.

Lemma replaying_invoke_then {T B} (f : Js_Env T) (mk : option T -> @Call R VP Ctx)
    (k : option T -> B) :
  (forall o e e', safeInvokeNoArg f e = (Returned o, e') -> performs obj (mk o) e e') ->
  replaying obj (let* res := inEnv (safeInvokeNoArg f) in logCall (mk res) ;;; ret (k res)).
Proof.
  intros Hmk [e cs]. destruct (safeInvokeNoArg_returns f e) as (o & e' & E).
  exists (k o), e', [mk o]. split.
  - rewrite (bind_returned _ _ _ o {| env := e'; calls := cs |}); [done|].
    unfold inEnv, zoom. simpl. by rewrite E.
  - simpl. exists e'. split; [by apply Hmk|done].
Qed.

(** The frame callback makes the calls it logs, in the order of the log,
    from the store with the pending list swapped, and does nothing else to
    the store. *)
Lemma onRenderScheduled_replays w :
  exists e' log,
    _onRenderScheduled obj w
    = (Returned tt, {| env := e'; calls := calls w ++ log |})
    /\ replays obj (set_renderings [] (env w)) log e'.
Proof.
  destruct w as [e cs0]. simpl.
  unfold _onRenderScheduled.
  rewrite (bind_returned _ _ _ (_coordinatedRenderings e) {| env := e; calls := cs0 |})
    by reflexivity.
  rewrite (bind_returned _ _ _ tt {| env := set_renderings [] e; calls := cs0 |})
    by reflexivity.
  lazymatch goal with
  | |- exists e' log, ?T ?w1 = _ /\ _ => assert (replaying obj T) as HT
  end.
  { apply replaying_bind.
    - apply replaying_forOf. intros r.
      apply (replaying_invoke _ (fun res => CallPrepareRenderText r (completed res))).
      intros o a b E. simpl. eauto.
    - intros _. apply replaying_bind.
      + apply replaying_forCollect. intros r.
        apply (replaying_invoke_then _ (fun res => CallRenderText r (mjoin res)) mjoin).
        intros o a b E. simpl. eauto.
      + intros datas. apply replaying_bind.
        * apply replaying_forOf. intros [r [[vps ctx]|]]; [|apply replaying_ret].
          apply (replaying_invoke _ (fun res => CallPrepareRender r vps ctx (completed res))).
          intros o a b E. simpl. eauto.
        * intros _. apply replaying_forOf. intros [r [[vps ctx]|]]; [|apply replaying_ret].
          apply (replaying_invoke _ (fun res => CallRender r vps ctx (completed res))).
          intros o a b E. simpl. eauto. }
  destruct (HT {| env := set_renderings [] e; calls := cs0 |}) as ([] & e' & log & E & Hr).
  by exists e', log.
Qed.

Lemma fireFrame_replays w h (win : CodeWindow) :
  requested (frames (env w)) !! h = Some win ->
  exists e' log,
    fireFrame obj h w = (Returned tt, {| env := e'; calls := calls w ++ log |})
    /\ replays obj (swapped h win (env w)) log e'.
Proof.
  intros Hh. rewrite (fireFrame_runs_callback _ _ _ Hh).
  exact (onRenderScheduled_replays
           {| env := set_runners (delete win (_animationFrameRunners (env w)))
                       (set_frames (cancelFrame h (frames (env w))) (env w));
              calls := calls w |}).
Qed.

(** Scheduling appends to the pending list and makes sure a frame is
    requested for the window. *)
Lemma scheduleCoordinatedRendering_defers r s :
  runnersRequested s ->
  _coordinatedRenderings (scheduleCoordinatedRendering obj r s).2
  = _coordinatedRenderings s ++ [r]
  /\ deferred obj r (scheduleCoordinatedRendering obj r s).2.
Proof.
  intros Hs.
  unfold scheduleCoordinatedRendering, bind, modify, ret, Coordinator_scheduleRender.
  simpl.
  destruct (_animationFrameRunners s !! window (obj r)) as [h|] eqn:Ew; simpl.
  - split; [done|]. split.
    + apply elem_of_app. right. by apply list_elem_of_singleton.
    + exists h. by apply Hs.
  - split; [done|]. split.
    + apply elem_of_app. right. by apply list_elem_of_singleton.
    + exists (nextHandle (frames s)). simpl. apply lookup_insert_eq.
Qed.

(** C2 (amended). When a frame callback fires for a window, the batch it
    processes is the whole pending list of the coordinator at that time,
    whatever window each participant was registered for; every call of the
    frame goes to a member of that batch, so a participant that is not
    pending when the callback starts (one scheduled during the callback)
    receives no call in this frame.  Such a participant is deferred to a
    later frame: the callback starts from the store with the pending list
    swapped for an empty one, makes the calls of its log and does nothing
    else to the store, so a participant that is pending with a frame
    requested for its window after the call that scheduled it is still so
    when the callback returns, unless a later call of the frame undoes it;
    and scheduling appends to the pending list and makes sure a frame is
    requested for the window. *)
Theorem C2_batch_is_pending_list_at_fire_time w h win :
  requested (frames (env w)) !! h = Some win ->
  let batch := _coordinatedRenderings (env w) in
  exists w' log,
    fireFrame obj h w = (Returned tt, w')
    /\ calls w' = calls w ++ log
    /\ participants PrepareRenderText log = batch
    /\ (forall c, c ∈ log -> callee c ∈ batch)
    /\ (forall r, r ∉ batch -> r ∉ callee <$> log)
    /\ replays obj (swapped h win (env w)) log (env w')
    /\ (forall r l1 c l2 e1 e2,
          log = l1 ++ c :: l2 ->
          replays obj (swapped h win (env w)) l1 e1 ->
          performs obj c e1 e2 ->
          deferred obj r e2 ->
          (forall c' a b, c' ∈ l2 -> performs obj c' a b ->
             deferred obj r a -> deferred obj r b) ->
          deferred obj r (env w'))
    /\ (forall r s,
          runnersRequested s ->
          _coordinatedRenderings (scheduleCoordinatedRendering obj r s).2
          = _coordinatedRenderings s ++ [r]
          /\ deferred obj r (scheduleCoordinatedRendering obj r s).2).
Proof.
  intros Hh batch.
  destruct (fireFrame_blocks w h win Hh)
    as (e' & L1 & datas & css3 & css4 & E & H1 & Hlen & H3 & H4).
  destruct (blocks_facts _ _ _ _ _ H1 Hlen H3 H4) as (_ & F2 & _ & _ & _ & F6).
  destruct (fireFrame_replays w h win Hh) as (e'' & log & E' & Hrep).
  rewrite E in E'. injection E' as <- Elog. apply app_inv_head in Elog.
  eexists _, _. split; [exact E|]. split; [reflexivity|].
  split; [done|]. split; [done|]. split.
  { intros r Hr (c & -> & Hc)%list_elem_of_fmap. auto. }
  simpl. rewrite Elog. split; [done|]. split.
  - intros r l1 c l2 e1 e2 -> Hl1 Hc Hd Hkeep.
    destruct (replays_split _ _ _ _ Hrep) as (e1' & Hl1' & (e2' & Hc' & Hl2)).
    rewrite <- (replays_unique _ _ _ _ Hl1 Hl1') in Hc'.
    rewrite <- (performs_unique _ _ _ _ Hc Hc') in Hl2.
    by apply (replays_keeps (deferred obj r) e2 l2 e').
  - apply scheduleCoordinatedRendering_defers.
Qed.

(** C10. For every participant of the batch whose renderText handed back
    a result, the coordinator calls render with the view parts and the
    context of that result; this holds whether or not its prepareRender
    call completed, so an exception escaping prepareRender does not make
    the coordinator skip render.  The calls of the log are the calls made:
    the store after the callback is what they make, in this order, of the
    store with the pending list swapped, so the render function of the
    participant has run on the store, with these view parts and this
    context, and the log entry holds whether it completed. *)
Theorem C10_render_called_despite_prepareRender_failure w r vps ctx :
  exists w' log,
    _onRenderScheduled obj w = (Returned tt, w')
    /\ calls w' = calls w ++ log
    /\ replays obj (set_renderings [] (env w)) log (env w')
    /\ (CallRenderText r (Some (vps, ctx)) ∈ log ->
        exists ok3 ok4,
          CallPrepareRender r vps ctx ok3 ∈ log /\ CallRender r vps ctx ok4 ∈ log)
    /\ (forall ok3, CallPrepareRender r vps ctx ok3 ∈ log ->
        exists ok4, CallRender r vps ctx ok4 ∈ log)
    /\ (forall ok4, CallRender r vps ctx ok4 ∈ log ->
        exists l1 l2 e1 e2 o,
          log = l1 ++ CallRender r vps ctx ok4 :: l2
          /\ replays obj (set_renderings [] (env w)) l1 e1
          /\ safeInvokeNoArg (render (obj r) vps ctx) e1 = (Returned o, e2)
          /\ ok4 = completed o
          /\ replays obj e2 l2 (env w')).
Proof.
  destruct (onRenderScheduled_blocks w)
    as (e' & L1 & datas & css3 & css4 & E & H1 & Hlen & H3 & H4).
  destruct (onRenderScheduled_replays w) as (e'' & log & E' & Hrep).
  rewrite E in E'. injection E' as <- Elog. apply app_inv_head in Elog.
  eexists _, _. split; [exact E|]. split; [reflexivity|].
  simpl. split; [by rewrite Elog|].
  destruct (phase1_shape _ _ H1) as [_ P1].
  rewrite Forall_forall in P1.
  split; [|split].
  - rewrite !elem_of_app. intros [Hc|[Hc|[Hc|Hc]]].
    + by apply P1 in Hc.
    + apply elem_of_lookup_zip_with in Hc as (i & r' & d & Ec & Hr & Hd).
      injection Ec as <- <-.
      assert (zip (_coordinatedRenderings (env w)) datas !! i
              = Some (r, Some (vps, ctx))) as Hslot.
      { apply lookup_zip_with_Some. eauto. }
      destruct (slots_elem _ _ _ _ _ _ _ H3 Hslot) as [ok3 Hok3].
      destruct (slots_elem _ _ _ _ _ _ _ H4 Hslot) as [ok4 Hok4].
      exists ok3, ok4. rewrite !elem_of_app. auto.
    + by destruct (slots_lookup _ _ _ _ H3 Hc) as (? & ? & ? & ? & ? & _ & ?).
    + by destruct (slots_lookup _ _ _ _ H4 Hc) as (? & ? & ? & ? & ? & _ & ?).
  - intros ok3. rewrite !elem_of_app. intros [Hc|[Hc|[Hc|Hc]]].
    + by apply P1 in Hc.
    + by apply elem_of_lookup_zip_with in Hc as (? & ? & ? & ? & _).
    + destruct (slots_lookup _ _ _ _ H3 Hc) as (i & r' & vps' & ctx' & ok & Hslot & Ec).
      injection Ec as <- <- <- _.
      destruct (slots_elem _ _ _ _ _ _ _ H4 Hslot) as [ok4 Hok4].
      exists ok4. rewrite !elem_of_app. auto.
    + by destruct (slots_lookup _ _ _ _ H4 Hc) as (? & ? & ? & ? & ? & _ & ?).
  - intros ok4 Hin. rewrite Elog in Hin.
    apply list_elem_of_split in Hin as (l1 & l2 & El). rewrite El in Hrep.
    destruct (replays_split _ _ _ _ Hrep) as (e1 & Hl1 & (e2 & (o & Ho & Hok) & Hl2)).
    exists l1, l2, e1, e2, o. by rewrite Elog.
Qed.

(** *** Frame handles *)


Lemma scheduleCoordinatedRendering_result r s :
  scheduleCoordinatedRendering obj r s =
    (Returned (RenderingDisposable r),
     let s1 := set_renderings (_coordinatedRenderings s ++ [r]) s in
     match _animationFrameRunners s !! window (obj r) with
     | Some _ => s1
     | None =>
         set_runners (<[window (obj r) := nextHandle (frames s)]> (_animationFrameRunners s))
           (set_frames (requestFrame (window (obj r)) (frames s)).2 s1)
     end).
Proof.
  unfold scheduleCoordinatedRendering, bind, modify, Coordinator_scheduleRender, ret.
  simpl. by destruct (_animationFrameRunners s !! window (obj r)).
Qed.

Lemma indexOf_Some x (l : list R) i :
  indexOf x l = Some i ->
  exists l1 l2, l = l1 ++ (x :: l2) /\ (x ∉ l1) /\ splice1 i l = l1 ++ l2.
Proof.
  revert i. induction l as [|y l IH]; intros i; simpl; [done|].
  destruct (decide (y = x)) as [->|Hne].
  - intros [= <-]. exists [], l. split; [done|]. split; [apply not_elem_of_nil|].
    unfold splice1. simpl. by rewrite drop_0.
  - destruct (indexOf x l) as [j|] eqn:Ej; simpl; [|done].
    intros [= <-]. destruct (IH j eq_refl) as (l1 & l2 & -> & Hnin & Hsp).
    exists (y :: l1), l2. split; [done|]. split.
    + apply not_elem_of_cons. auto.
    + unfold splice1 in *. simpl. by rewrite Hsp.
Qed.

Lemma indexOf_None x (l : list R) : indexOf x l = None -> x ∉ l.
Proof.
  induction l as [|y l IH]; simpl; [intros _; apply not_elem_of_nil|].
  destruct (decide (y = x)) as [->|Hne]; [done|].
  destruct (indexOf x l); simpl; [done|]. intros _.
  apply not_elem_of_cons. auto.
Qed.

Lemma cancel_all_requested (l : list (CodeWindow * FrameHandle)) d h (w : CodeWindow) :
  requested (foldr (fun wh d => cancelFrame wh.2 d) d l) !! h = Some w ->
  requested d !! h = Some w /\ forall w' : CodeWindow, (w', h) ∉ l.
Proof.
  induction l as [|[w0 h0] l IH]; simpl.
  - intros Hh. split; [done|]. intros w'. apply not_elem_of_nil.
  - intros [Hne Hh]%lookup_delete_Some. destruct (IH Hh) as [H1 H2].
    split; [done|]. intros w'. apply not_elem_of_cons. split; [|done].
    intros [= _ ->]. done.
Qed.

Lemma disposeAllRunners_empties s :
  (forall h (w : CodeWindow), requested (frames s) !! h = Some w ->
               _animationFrameRunners s !! w = Some h) ->
  requested (frames (disposeAllRunners s)) = ∅.
Proof.
  intros Hbij. apply map_empty. intros h.
  destruct (requested (frames (disposeAllRunners s)) !! h) as [w|] eqn:Eh; [|done].
  unfold disposeAllRunners in Eh. simpl in Eh.
  apply cancel_all_requested in Eh as [Hreq Hnin].
  exfalso. apply (Hnin w). apply elem_of_map_to_list. auto.
Qed.

Lemma handlesInv_initial u : handlesInv obj (initialEnv u).
Proof.
  split; simpl.
  - intros h w. by rewrite !lookup_empty.
  - intros h w. by rewrite lookup_empty.
  - done.
  - intros r Hr. by apply elem_of_nil in Hr.
Qed.

Lemma handlesInv_schedule r s :
  handlesInv obj s -> handlesInv obj (scheduleCoordinatedRendering obj r s).2.
Proof.
  intros [Hbij Hfresh Hidle Hcov].
  rewrite scheduleCoordinatedRendering_result. simpl.
  destruct (_animationFrameRunners s !! window (obj r)) as [h0|] eqn:Ew.
  - split; simpl; try done.
    + intros E. by destruct (_coordinatedRenderings s).
    + intros r' [Hr'|Hr'%list_elem_of_singleton]%elem_of_app; [auto|].
      subst r'. by rewrite Ew.
  - split; simpl.
    + intros h w. rewrite !lookup_insert_Some. split.
      * intros [[<- <-]|[Hne Hh]]; [by left|]. right. split; [|by apply Hbij].
        intros <-. apply Hbij in Hh. congruence.
      * intros [[<- <-]|[Hne Hh]]; [by left|]. right. split; [|by apply Hbij].
        intros <-. apply Hbij, Hfresh in Hh. lia.
    + intros h w [[<- <-]|[Hne Hh]]%lookup_insert_Some; [lia|].
      apply Hfresh in Hh. lia.
    + intros E. by destruct (_coordinatedRenderings s).
    + intros r' [Hr'|Hr'%list_elem_of_singleton]%elem_of_app.
      * destruct (Hcov r' Hr') as [h' Hh'].
        destruct (decide (window (obj r) = window (obj r'))) as [E|Hne].
        -- rewrite <- E. rewrite lookup_insert_eq. eauto.
        -- rewrite lookup_insert_ne by done. eauto.
      * subst r'. rewrite lookup_insert_eq. eauto.
Qed.

Lemma dispose_result r s :
  dispose (RenderingDisposable r) s =
    (Returned tt,
     match indexOf r (_coordinatedRenderings s) with
     | None => s
     | Some i =>
         let s1 := set_renderings (splice1 i (_coordinatedRenderings s)) s in
         if decide (length (splice1 i (_coordinatedRenderings s)) = 0)
         then set_runners ∅ (disposeAllRunners s1)
         else s1
     end).
Proof.
  unfold dispose. destruct (indexOf r (_coordinatedRenderings s)); [|done].
  simpl. by case_decide.
Qed.

Lemma handlesInv_dispose r s :
  handlesInv obj s -> handlesInv obj (dispose (RenderingDisposable r) s).2.
Proof.
  intros Hinv. rewrite dispose_result. simpl.
  destruct (indexOf r (_coordinatedRenderings s)) as [i|] eqn:Ei; [|done].
  destruct Hinv as [Hbij Hfresh Hidle Hcov].
  destruct (indexOf_Some _ _ _ Ei) as (l1 & l2 & El & Hnin & Hsp).
  case_decide as Hlen.
  - assert (requested (frames (disposeAllRunners
              (set_renderings (splice1 i (_coordinatedRenderings s)) s))) = ∅) as Hempty.
    { apply disposeAllRunners_empties. simpl. intros h w. apply Hbij. }
    split; simpl.
    + intros h w. simpl in Hempty. rewrite Hempty. by rewrite !lookup_empty.
    + intros h w. simpl in Hempty. rewrite Hempty. by rewrite lookup_empty.
    + intros _. exact Hempty.
    + intros r' Hr'. apply nil_length_inv in Hlen. rewrite Hlen in Hr'.
      by apply elem_of_nil in Hr'.
  - split; simpl; try done.
    + intros E. rewrite E in Hlen. done.
    + intros r' Hr'. apply Hcov. rewrite El. rewrite Hsp in Hr'.
      apply elem_of_app in Hr' as [?|?]; apply elem_of_app; [by left|right].
      by apply elem_of_cons; right.
Qed.

Lemma handlesInv_applyOps ops s :
  handlesInv obj s -> handlesInv obj (applyOps obj ops s).
Proof.
  revert s. induction ops as [|op ops IH]; intros s Hs; [done|].
  simpl. apply IH. destruct op; simpl.
  - by apply handlesInv_schedule.
  - by apply handlesInv_dispose.
Qed.

(** C5 (amended). In every state reached by scheduling participants and
    disposing cancellation handles: each window has at most one
    outstanding frame request, and the coordinator's map of runners records
    exactly the outstanding requests; when the coordinator has no pending
    participant at all, no window has an outstanding request; a window
    with a pending participant has one.  Disposing the handle of a pending
    participant removes its first occurrence from the pending list, and
    when the pending list becomes empty every outstanding request is
    cancelled; disposing the handle of a participant that is not pending
    changes nothing. *)
Theorem C5_frame_handles_invariant (u : U) (ops : list (@CoordinatorOp R)) :
  let s := applyOps obj ops (initialEnv u) in
  (forall h1 h2 (w : CodeWindow),
      requested (frames s) !! h1 = Some w ->
      requested (frames s) !! h2 = Some w -> h1 = h2)
  /\ (forall h (w : CodeWindow),
      requested (frames s) !! h = Some w <-> _animationFrameRunners s !! w = Some h)
  /\ (_coordinatedRenderings s = [] -> requested (frames s) = ∅)
  /\ (forall r, r ∈ _coordinatedRenderings s ->
      exists h, requested (frames s) !! h = Some (window (obj r)))
  /\ (forall r,
      let s' := (dispose (RenderingDisposable r) s).2 in
      (r ∉ _coordinatedRenderings s -> s' = s)
      /\ (r ∈ _coordinatedRenderings s ->
          exists l1 l2,
            _coordinatedRenderings s = l1 ++ (r :: l2) /\ (r ∉ l1)
            /\ _coordinatedRenderings s' = l1 ++ l2)
      /\ (_coordinatedRenderings s' = [] -> requested (frames s') = ∅)).
Proof.
  intros s.
  assert (handlesInv obj s) as Hinv
    by (apply handlesInv_applyOps, handlesInv_initial).
  split; [|split; [|split; [|split]]].
  - intros h1 h2 w H1%(inv_bij obj _ Hinv) H2%(inv_bij obj _ Hinv). congruence.
  - apply (inv_bij obj _ Hinv).
  - apply (inv_idle obj _ Hinv).
  - intros r Hr. destruct (inv_covered obj _ Hinv r Hr) as [h Hh].
    exists h. by apply (inv_bij obj _ Hinv).
  - intros r s'. split; [|split].
    + intros Hnin. unfold s'. rewrite dispose_result. simpl.
      destruct (indexOf r (_coordinatedRenderings s)) as [i|] eqn:Ei; [|done].
      destruct (indexOf_Some _ _ _ Ei) as (l1 & l2 & El & _).
      exfalso. apply Hnin. rewrite El. apply elem_of_app. right. apply elem_of_cons. by left.
    + intros Hin. unfold s'. rewrite dispose_result. simpl.
      destruct (indexOf r (_coordinatedRenderings s)) as [i|] eqn:Ei.
      * destruct (indexOf_Some _ _ _ Ei) as (l1 & l2 & El & Hnin & Hsp).
        exists l1, l2. split; [done|]. split; [done|]. by case_decide.
      * by apply indexOf_None in Ei.
    + apply (inv_idle obj _ (handlesInv_dispose r s Hinv)).
Qed.
End CoordinatorFacts.


Section ViewFacts.
Implicit Types (s : VEnv) (v : ViewId) (view : View).

Lemma getView_Some v view s :
  views (user s) !! v = Some view -> getView v s = (Returned view, s).
Proof. intros Hv. unfold getView. by rewrite Hv. Qed.

Lemma throwIfDisposed_live v view s :
  views (user s) !! v = Some view -> isDisposed view = false ->
  throwIfDisposed v s = (Returned tt, s).
Proof.
  intros Hv Hd. unfold throwIfDisposed.
  rewrite (bind_returned _ _ _ _ _ (getView_Some _ _ _ Hv)). by rewrite Hd.
Qed.

Lemma throwIfDisposed_disposed v view s :
  views (user s) !! v = Some view -> isDisposed view = true ->
  throwIfDisposed v s = (Thrown BugIndicatingError, s).
Proof.
  intros Hv Hd. unfold throwIfDisposed.
  rewrite (bind_returned _ _ _ _ _ (getView_Some _ _ _ Hv)). by rewrite Hd.
Qed.

Lemma View_scheduleRender_pending v view d s :
  views (user s) !! v = Some view -> isDisposed view = false ->
  _renderAnimationFrame view = Some d ->
  View_scheduleRender v s = (Returned tt, s).
Proof.
  intros Hv Hd Hp. unfold View_scheduleRender.
  rewrite (bind_returned _ _ _ _ _ (throwIfDisposed_live _ _ _ Hv Hd)).
  rewrite (bind_returned _ _ _ _ _ (getView_Some _ _ _ Hv)). by rewrite Hp.
Qed.

Lemma alter_Some {A} (f : A -> A) (m : gmap nat A) k x :
  m !! k = Some x -> alter f k m = <[k := f x]> m.
Proof.
  intros Hk. apply map_eq. intros j. rewrite lookup_alter.
  destruct (decide (k = j)) as [<-|Hne].
  - by rewrite lookup_insert_eq, Hk.
  - by rewrite lookup_insert_ne.
Qed.

Lemma View_scheduleRender_first v view s :
  views (user s) !! v = Some view -> isDisposed view = false ->
  _renderAnimationFrame view = None ->
  let r := {| rid := nextRid (user s); this := v; renderingWindow := domNodeWindow view |} in
  exists s1,
    View_scheduleRender v s = (Returned tt, s1)
    /\ _coordinatedRenderings s1 = _coordinatedRenderings s ++ [r]
    /\ views (user s1)
       = <[v := set_renderAnimationFrame (Some (RenderingDisposable r)) view]>
           (views (user s)).
Proof.
  intros Hv Hd Hp r. unfold View_scheduleRender.
  rewrite (bind_returned _ _ _ _ _ (throwIfDisposed_live _ _ _ Hv Hd)).
  rewrite (bind_returned _ _ _ _ _ (getView_Some _ _ _ Hv)). rewrite Hp.
  unfold newRendering, bind at 1. fold r.
  rewrite (bind_returned _ _ _ _ _ (scheduleCoordinatedRendering_result _ _ _)).
  unfold updateView, modify. eexists. split; [reflexivity|].
  simpl. destruct (_animationFrameRunners s !! domNodeWindow view); simpl;
    (split; [done|by apply alter_Some]).
Qed.

Lemma forOf_replicate_noop {A} (m : A -> Js VEnv unit) (x : A) n s :
  m x s = (Returned tt, s) -> forOf (replicate n x) m s = (Returned tt, s).
Proof.
  intros Hm. induction n as [|n IH]; simpl; [done|].
  by rewrite (bind_returned _ _ _ _ _ Hm).
Qed.

Lemma filter_this_none v (l : list Rendering) :
  (forall r, r ∈ l -> this r <> v) -> filter (fun r => this r = v) l = [].
Proof.
  induction l as [|r l IH]; intros Hl; [done|].
  rewrite filter_cons_False.
  - apply IH. intros r' Hr'. apply Hl. by apply elem_of_cons; right.
  - apply Hl. by apply elem_of_cons; left.
Qed.

(** C4. On a live view with no rendering pending, the first
    [scheduleRender] registers one participant with the coordinator and
    every further call, issued while that rendering is pending, changes
    nothing; the participant is the only one of this view in the pending
    list, and the batch of any frame that fires next contains it exactly
    once. *)
Theorem C4_scheduleRender_idempotent s v view n :
  views (user s) !! v = Some view ->
  isDisposed view = false ->
  _renderAnimationFrame view = None ->
  (forall r', r' ∈ _coordinatedRenderings s -> this r' <> v) ->
  let r := {| rid := nextRid (user s); this := v;
              renderingWindow := domNodeWindow view |} in
  exists s1,
    View_scheduleRender v s = (Returned tt, s1)
    /\ forOf (replicate n v) View_scheduleRender s1 = (Returned tt, s1)
    /\ _coordinatedRenderings s1 = _coordinatedRenderings s ++ [r]
    /\ filter (fun r' => this r' = v) (_coordinatedRenderings s1) = [r]
    /\ forall cs h win,
         requested (frames s1) !! h = Some win ->
         exists w' log,
           fireFrame viewObj h {| env := s1; calls := cs |} = (Returned tt, w')
           /\ calls w' = cs ++ log
           /\ filter (fun r' => this r' = v) (participants PrepareRenderText log) = [r].
Proof.
  intros Hv Hd Hp Hfree r.
  destruct (View_scheduleRender_first v view s Hv Hd Hp) as (s1 & E1 & Hl & Hvs).
  fold r in Hl, Hvs.
  assert (filter (fun r' => this r' = v) (_coordinatedRenderings s1) = [r]) as Hone.
  { rewrite Hl, filter_app, (filter_this_none _ _ Hfree).
    by rewrite filter_cons_True. }
  exists s1. split; [done|]. split; [|split; [done|split; [done|]]].
  - apply forOf_replicate_noop.
    eapply (View_scheduleRender_pending v _ (RenderingDisposable r)).
    + rewrite Hvs. apply lookup_insert_eq.
    + done.
    + done.
  - intros cs h win Hh.
    destruct (fireFrame_blocks viewObj {| env := s1; calls := cs |} h win Hh)
      as (e' & L1 & datas & css3 & css4 & E & H1 & Hlen & H3 & H4).
    destruct (blocks_facts _ _ _ _ _ H1 Hlen H3 H4) as (_ & F2 & _).
    simpl in E, F2.
    eexists _, _. split; [exact E|]. split; [reflexivity|].
    etransitivity; [|exact Hone]. f_equal. exact F2.
Qed.
End ViewFacts.



Section Respects.
Variable Rel : VEnv -> VEnv -> Prop.
Variable allowed : Event -> Prop.
Variable benign : (View -> View) -> Prop.
Hypothesis Rel_refl : forall s, Rel s s.
Hypothesis Rel_trans : forall s1 s2 s3, Rel s1 s2 -> Rel s2 s3 -> Rel s1 s3.
Hypothesis Rel_emit : forall e s, allowed e -> Rel s (emit e s).2.
Hypothesis Rel_updateView : forall v f s, benign f -> Rel s (updateView v f s).2.
Hypothesis Rel_error : forall e s, Rel s (onUnexpectedError e s).2.

Lemma respects_ret {A} (a : A) : respects Rel (ret a).
Proof. intros s. apply Rel_refl. Qed.

Lemma respects_throw {A} e : respects Rel (@throw VEnv A e).
Proof. intros s. apply Rel_refl. Qed.

Lemma respects_bind {A B} (m : Js VEnv A) (k : A -> Js VEnv B) :
  respects Rel m -> (forall a, respects Rel (k a)) -> respects Rel (bind m k).
Proof.
  intros Hm Hk s. unfold bind. specialize (Hm s).
  destruct (m s) as [[a|e] s1]; simpl in *; [|done].
  eapply Rel_trans; [exact Hm|apply Hk].
Qed.

Lemma respects_forOf {A} (l : list A) (body : A -> Js VEnv unit) :
  (forall x, respects Rel (body x)) -> respects Rel (forOf l body).
Proof.
  intros Hb. induction l as [|x l IH]; simpl.
  - apply respects_ret.
  - apply respects_bind; [apply Hb|intros _; apply IH].
Qed.

Lemma respects_tryFinally {A} (body : Js VEnv A) (cleanup : Js VEnv unit) :
  respects Rel body -> respects Rel cleanup -> respects Rel (tryFinally body cleanup).
Proof.
  intros Hb Hc s. unfold tryFinally. specialize (Hb s).
  destruct (body s) as [o s1]. specialize (Hc s1).
  destruct (cleanup s1) as [[[]|e] s2]; simpl in *; eauto.
Qed.

Lemma respects_safeInvoke {T} (f : Js VEnv T) :
  respects Rel f -> respects Rel (safeInvokeNoArg f).
Proof.
  intros Hf s. unfold safeInvokeNoArg. specialize (Hf s).
  destruct (f s) as [[a|e] s1]; simpl in *; [done|].
  eapply Rel_trans; [exact Hf|]. apply (Rel_error e s1).
Qed.

Lemma respects_getView v : respects Rel (getView v).
Proof. intros s. unfold getView. destruct (views (user s) !! v); apply Rel_refl. Qed.

Lemma respects_emit e : allowed e -> respects Rel (emit e).
Proof. intros He s. by apply Rel_emit. Qed.

Lemma respects_updateView v f : benign f -> respects Rel (updateView v f).
Proof. intros Hf s. by apply Rel_updateView. Qed.
End Respects.

(** One step of a proof that a computation of a view respects a relation;
    [side] discharges the conditions on emitted events and on updates. *)
Ltac respects_step side :=
  lazymatch goal with
  | |- forall _, _ => intros ?
  | |- respects _ (bind _ _) => eapply respects_bind; try eassumption
  | |- respects _ (ret _) => eapply respects_ret; eassumption
  | |- respects _ (throw _) => eapply respects_throw; eassumption
  | |- respects _ (forOf _ _) => eapply respects_forOf; try eassumption
  | |- respects _ (tryFinally _ _) => eapply respects_tryFinally; try eassumption
  | |- respects _ (safeInvokeNoArg _) => eapply respects_safeInvoke; try eassumption
  | |- respects _ (getView _) => eapply respects_getView; eassumption
  | |- respects _ (emit _) => eapply respects_emit; [eassumption|side]
  | |- respects _ (updateView _ _) => eapply respects_updateView; [eassumption|side]
  | |- respects _ (if ?b then _ else _) => destruct b
  | |- respects _ (match ?x with _ => _ end) => destruct x
  | |- respects _ (getPart _ _) => unfold getPart
  | |- respects _ (updatePart _ _ _) => unfold updatePart
  | |- respects _ (behave _) => unfold behave
  | |- respects _ (throwIfDisposed _) => unfold throwIfDisposed
  | |- respects _ (ViewPart_prepareRender _ _ _) => unfold ViewPart_prepareRender
  | |- respects _ (ViewPart_render _ _ _) => unfold ViewPart_render
  | |- respects _ (ViewPart_onDidRender _ _) => unfold ViewPart_onDidRender
  | |- respects _ (ViewPart_forceShouldRender _ _) => unfold ViewPart_forceShouldRender
  | |- respects _ (ViewLines_renderText _ _) => unfold ViewLines_renderText
  | |- respects _ (ViewLines_onDidRender _) => unfold ViewLines_onDidRender
  | |- respects _ (ViewLines_forceShouldRender _) => unfold ViewLines_forceShouldRender
  | |- respects _ (_computeGlyphMarginLanes _) => unfold _computeGlyphMarginLanes
  | |- respects _ (rendering_prepareRenderText _) =>
      unfold rendering_prepareRenderText, _createCoordinatedRendering
  | |- respects _ (rendering_renderText _) =>
      unfold rendering_renderText, _createCoordinatedRendering
  | |- respects _ (rendering_prepareRender _ _ _) =>
      unfold rendering_prepareRender, _createCoordinatedRendering
  | |- respects _ (rendering_render _ _ _) =>
      unfold rendering_render, _createCoordinatedRendering
  | |- respects _ (prepareRenderText _) => unfold prepareRenderText, viewObj
  | |- respects _ (renderText _) => unfold renderText, viewObj
  | |- respects _ (prepareRender _ _ _) => unfold prepareRender, viewObj
  | |- respects _ (render _ _ _) => unfold render, viewObj
  | |- respects _ _ => progress cbv zeta
  end.

Ltac respects_auto side := repeat respects_step side.

Section RespectsViews.
Variable Rel : VEnv -> VEnv -> Prop.
Variable allowed : Event -> Prop.
Variable benign : (View -> View) -> Prop.
Hypothesis Rel_refl : forall s, Rel s s.
Hypothesis Rel_trans : forall s1 s2 s3, Rel s1 s2 -> Rel s2 s3 -> Rel s1 s3.
Hypothesis Rel_emit : forall e s, allowed e -> Rel s (emit e s).2.
Hypothesis Rel_updateView : forall v f s, benign f -> Rel s (updateView v f s).2.
Hypothesis Rel_error : forall e s, Rel s (onUnexpectedError e s).2.
Hypothesis allowed_all : forall e, allowed e.
Hypothesis benign_flags : forall f,
  (forall view, domNodeIsConnected (f view) = domNodeIsConnected view) -> benign f.

Lemma respects_participant (r : Rendering) :
  respects Rel (safeInvokeNoArg (prepareRenderText (viewObj r)))
  /\ respects Rel (safeInvokeNoArg (renderText (viewObj r)))
  /\ (forall vps ctx, respects Rel (safeInvokeNoArg (prepareRender (viewObj r) vps ctx)))
  /\ (forall vps ctx, respects Rel (safeInvokeNoArg (render (viewObj r) vps ctx))).
Proof.
  repeat split; intros;
    respects_auto ltac:(first [apply allowed_all | apply benign_flags; intros; reflexivity]).
Qed.
End RespectsViews.


Section ForceFacts.
Implicit Types (s : VEnv) (v : ViewId) (view : View).

Lemma withUser_id s : withUser (views (user s)) (trace (user s)) s = s.
Proof. by destruct s as [? ? ? ? []]. Qed.

Lemma set_viewParts_id view : set_viewParts (_viewParts view) view = view.
Proof. by destruct view. Qed.

Lemma updateView_Some v view f s :
  views (user s) !! v = Some view ->
  updateView v f s
  = (Returned tt, withUser (<[v := f view]> (views (user s))) (trace (user s)) s).
Proof.
  intros Hv. unfold updateView, modify, withUser. by rewrite (alter_Some _ _ _ _ Hv).
Qed.

Lemma getPart_Some v view p part s :
  views (user s) !! v = Some view -> _viewParts view !! p = Some part ->
  getPart v p s = (Returned part, s).
Proof.
  intros Hv Hp. unfold getPart.
  rewrite (bind_returned _ _ _ _ _ (getView_Some _ _ _ Hv)). by rewrite Hp.
Qed.

Lemma force_loop v ps :
  forall s view,
    views (user s) !! v = Some view ->
    (forall p, p ∈ ps -> p < length (_viewParts view)) ->
    exists parts',
      forOf ps (ViewPart_forceShouldRender v) s
      = (Returned tt,
         withUser (<[v := set_viewParts parts' view]> (views (user s)))
                  (trace (user s)) s)
      /\ length parts' = length (_viewParts view)
      /\ forall i part, _viewParts view !! i = Some part ->
           parts' !! i
           = Some (if decide (i ∈ ps) then set_shouldRender true part else part).
Proof.
  induction ps as [|p ps IH]; intros s view Hv Hps.
  - exists (_viewParts view). simpl. split; [|split; [done|]].
    + rewrite set_viewParts_id, (insert_id _ _ _ Hv), withUser_id. done.
    + intros i part Hi. rewrite Hi. destruct (decide (i ∈ [])) as [Hin|]; [|done].
      by apply elem_of_nil in Hin.
  - assert (p < length (_viewParts view)) as Hp by (apply Hps; by left).
    destruct (lookup_lt_is_Some_2 _ _ Hp) as [part0 Hpart0].
    set (view1 := set_viewParts (alter (set_shouldRender true) p (_viewParts view)) view).
    set (s1 := withUser (<[v := view1]> (views (user s))) (trace (user s)) s).
    assert (ViewPart_forceShouldRender v p s = (Returned tt, s1)) as E1.
    { unfold ViewPart_forceShouldRender.
      rewrite (bind_returned _ _ _ _ _ (getPart_Some _ _ _ _ _ Hv Hpart0)).
      unfold updatePart. by rewrite (updateView_Some _ _ _ _ Hv). }
    destruct (IH s1 view1) as (parts' & E2 & Hlen & Hlk).
    { simpl. apply lookup_insert_eq. }
    { intros q Hq. simpl. rewrite length_alter. apply Hps. by right. }
    exists parts'. split; [|split].
    + simpl. rewrite (bind_returned _ _ _ _ _ E1), E2.
      unfold s1. simpl. unfold withUser. simpl. by rewrite insert_insert_eq.
    + rewrite Hlen. simpl. by rewrite length_alter.
    + intros i part Hi. simpl in Hlk.
      destruct (decide (i = p)) as [->|Hne].
      * rewrite (Hlk p (set_shouldRender true part)).
        -- destruct (decide (p ∈ p :: ps)) as [_|Hn]; [|exfalso; apply Hn; by left].
           by destruct (decide (p ∈ ps)).
        -- rewrite list_lookup_alter_eq, Hi. done.
      * rewrite (Hlk i part).
        -- destruct (decide (i ∈ ps)) as [Hin|Hnin];
             destruct (decide (i ∈ p :: ps)) as [Hin'|Hnin']; try done.
           ++ exfalso. apply Hnin'. by right.
           ++ by apply elem_of_cons in Hin' as [?|?].
        -- by rewrite list_lookup_alter_ne.
Qed.

Lemma forceEverything_result v view s :
  views (user s) !! v = Some view ->
  forceEverything v s
  = (Returned tt,
     withUser (<[v := forceView view]> (views (user s))) (trace (user s)) s).
Proof.
  intros Hv. unfold forceEverything, ViewLines_forceShouldRender.
  rewrite (bind_returned _ _ _ _ _ (updateView_Some _ _ _ _ Hv)).
  set (view1 := set_viewLines (set_lines_shouldRender true (_viewLines view)) view).
  set (s1 := withUser (<[v := view1]> (views (user s))) (trace (user s)) s).
  assert (views (user s1) !! v = Some view1) as Hv1 by apply lookup_insert_eq.
  rewrite (bind_returned _ _ _ _ _ (getView_Some _ _ _ Hv1)).
  destruct (force_loop v (seq 0 (length (_viewParts view1))) s1 view1 Hv1)
    as (parts' & E & Hlen & Hlk).
  { intros p Hp. apply elem_of_seq in Hp. lia. }
  etransitivity; [exact E|]. f_equal. unfold s1, withUser. simpl. rewrite insert_insert_eq.
  assert (parts' = set_shouldRender true <$> _viewParts view) as ->; [|done].
  apply list_eq. intros i. rewrite list_lookup_fmap.
  destruct (_viewParts view !! i) as [part|] eqn:Ei; simpl.
  - rewrite (Hlk i part Ei). rewrite decide_True; [done|].
    apply elem_of_seq. apply lookup_lt_Some in Ei. simpl. lia.
  - apply lookup_ge_None. apply lookup_ge_None in Ei. simpl in Hlen. lia.
Qed.
End ForceFacts.


Section DisposedAndDetached.
Implicit Types (s : VEnv) (v : ViewId) (view : View).

Lemma wrapper_disposed {A} v view (m : Js VEnv A) s :
  views (user s) !! v = Some view -> isDisposed view = true ->
  (throwIfDisposed v ;;; m) s = (Thrown BugIndicatingError, s).
Proof.
  intros Hv Hd. by rewrite (bind_thrown _ _ _ _ _ (throwIfDisposed_disposed _ _ _ Hv Hd)).
Qed.

(** C7 (amended). On a disposed view, scheduling a rendering fails at
    once with [BugIndicatingError] and registers nothing with the
    coordinator: this holds for [_scheduleRender], for [render] with
    [now = false], and for the four methods of a participant the view
    registered earlier. *)
Theorem C7_disposed_view_rejects_scheduling s v view :
  views (user s) !! v = Some view ->
  isDisposed view = true ->
  View_scheduleRender v s = (Thrown BugIndicatingError, s)
  /\ (forall everything, exists s',
        View_render v false everything s = (Thrown BugIndicatingError, s')
        /\ coordSame s s')
  /\ (forall r, this r = v ->
        prepareRenderText (viewObj r) s = (Thrown BugIndicatingError, s)
        /\ renderText (viewObj r) s = (Thrown BugIndicatingError, s)
        /\ (forall vps ctx,
              prepareRender (viewObj r) vps ctx s = (Thrown BugIndicatingError, s)
              /\ render (viewObj r) vps ctx s = (Thrown BugIndicatingError, s))).
Proof.
  intros Hv Hd. split; [|split].
  - unfold View_scheduleRender. by apply (wrapper_disposed v view).
  - intros [|]; unfold View_render.
    + rewrite (bind_returned _ _ _ _ _ (forceEverything_result _ _ _ Hv)).
      eexists. split.
      * unfold View_scheduleRender. apply (wrapper_disposed v (forceView view)).
        -- simpl. apply lookup_insert_eq.
        -- done.
      * done.
    + exists s. split; [|done].
      unfold View_scheduleRender.
      rewrite (bind_returned _ _ _ tt s) by reflexivity.
      by apply (wrapper_disposed v view).
  - intros r <-. repeat split; intros; by apply (wrapper_disposed (this r) view).
Qed.

Lemma detached_respected :
  let Rel := fun s s' => forall v, detached v s -> detached v s' in
  (forall s, Rel s s)
  /\ (forall s1 s2 s3, Rel s1 s2 -> Rel s2 s3 -> Rel s1 s3)
  /\ (forall e s, anyEvent e -> Rel s (emit e s).2)
  /\ (forall v f s, keepsRoot f -> Rel s (updateView v f s).2)
  /\ (forall e s, Rel s (onUnexpectedError (R:=Rendering) e s).2).
Proof.
  intros Rel. unfold Rel. repeat split; try done.
  - eauto.
  - intros v f s Hf v0 (view & Hv & Hc). simpl. unfold detached. simpl.
    rewrite lookup_alter. case_decide as Hvv.
    + subst. rewrite Hv. simpl. eexists. split; [done|]. by rewrite Hf.
    + eauto.
Qed.

Lemma detached_participant (r : Rendering) v s :
  detached v s ->
  detached v (safeInvokeNoArg (prepareRenderText (viewObj r)) s).2
  /\ detached v (safeInvokeNoArg (renderText (viewObj r)) s).2
  /\ (forall vps ctx, detached v (safeInvokeNoArg (prepareRender (viewObj r) vps ctx) s).2)
  /\ (forall vps ctx, detached v (safeInvokeNoArg (render (viewObj r) vps ctx) s).2).
Proof.
  intros Hs.
  destruct detached_respected as (H1 & H2 & H3 & H4 & H5).
  destruct (respects_participant _ anyEvent keepsRoot
              H1 H2 H3 H4 H5 ltac:(done) ltac:(done) r) as (P1 & P2 & P3 & P4).
  split; [by apply P1|]. split; [by apply P2|].
  split; intros; [by apply P3|by apply P4].
Qed.

Lemma renderText_detached (r : Rendering) s o :
  detached (this r) s ->
  (safeInvokeNoArg (renderText (viewObj r)) s).1 = Returned o ->
  mjoin o = None.
Proof.
  intros (view & Hv & Hc). unfold safeInvokeNoArg, renderText, viewObj.
  destruct (isDisposed view) eqn:Hd.
  - rewrite (wrapper_disposed _ _ _ _ Hv Hd). simpl. by intros [= <-].
  - rewrite (bind_returned _ _ _ _ _ (throwIfDisposed_live _ _ _ Hv Hd)).
    unfold rendering_renderText, _createCoordinatedRendering.
    rewrite (bind_returned _ _ _ tt
               (withUser (views (user s)) (trace (user s) ++ [EvPhase (this r) RenderText]) s))
      by reflexivity.
    rewrite (bind_returned _ _ _ view _) by (apply getView_Some; exact Hv).
    rewrite Hc. simpl. by intros [= <-].
Qed.

(** C8. When the root of a view is not attached, every participant of
    that view in the batch gets a null result from renderText and receives
    no prepareRender and no render call in this frame, and the frame
    callback returns normally. *)
Theorem C8_detached_root_is_a_noop w v view :
  views (user (env w)) !! v = Some view ->
  domNodeIsConnected view = false ->
  exists w' log,
    _onRenderScheduled viewObj w = (Returned tt, w')
    /\ calls w' = calls w ++ log
    /\ (forall r, r ∈ _coordinatedRenderings (env w) -> this r = v ->
          CallRenderText r None ∈ log)
    /\ (forall c, c ∈ log -> this (callee c) = v ->
          (exists ok, c = CallPrepareRenderText (callee c) ok)
          \/ c = CallRenderText (callee c) None).
Proof.
  intros Hv Hc.
  destruct (onRenderScheduled_logs viewObj (detached v)
              (fun r d => this r = v -> d = None)) with (w := w)
    as (e' & L1 & datas & css3 & css4 & E & _ & H1 & H2 & H3 & H4).
  - done.
  - intros r s Hs. by apply detached_participant.
  - intros r s Hs. split; [by apply detached_participant|].
    intros o Ho <-. by apply (renderText_detached r s).
  - intros r vps ctx s Hs. by apply detached_participant.
  - intros r vps ctx s Hs. by apply detached_participant.
  - by exists view.
  - eexists _, _. split; [exact E|]. split; [reflexivity|]. split.
    + intros r Hr Hthis.
      apply list_elem_of_lookup in Hr as [i Hi].
      destruct (Forall2_lookup_l _ _ _ _ _ H2 Hi) as (d & Hd & HQ).
      rewrite (HQ Hthis) in Hd.
      apply elem_of_app. right. apply elem_of_app. left.
      apply elem_of_lookup_zip_with. by exists i, r, None.
    + intros c. rewrite !elem_of_app. intros [Hin|[Hin|[Hin|Hin]]] Hthis.
      * left. apply list_elem_of_lookup in Hin as [i Hi].
        destruct (Forall2_lookup_r _ _ _ _ _ H1 Hi) as (r & _ & ok & ->).
        by exists ok.
      * right. apply elem_of_lookup_zip_with in Hin as (i & r & d & -> & Hr & Hd).
        destruct (Forall2_lookup_lr _ _ _ _ _ _ H2 Hr Hd); done.
      * exfalso.
        destruct (slots_lookup _ _ _ _ H3 Hin) as (i & r & vps & ctx & ok & Hslot & ->).
        apply lookup_zip_with_Some in Hslot as (r' & d & [= <- <-] & Hr & Hd).
        by pose proof (Forall2_lookup_lr _ _ _ _ _ _ H2 Hr Hd Hthis).
      * exfalso.
        destruct (slots_lookup _ _ _ _ H4 Hin) as (i & r & vps & ctx & ok & Hslot & ->).
        apply lookup_zip_with_Some in Hslot as (r' & d & [= <- <-] & Hr & Hd).
        by pose proof (Forall2_lookup_lr _ _ _ _ _ _ H2 Hr Hd Hthis).
Qed.
End DisposedAndDetached.

Lemma emit_result e (s : VEnv) :
  emit e s = (Returned tt, withUser (views (user s)) (trace (user s) ++ [e]) s).
Proof. reflexivity. Qed.

(** Rewriting of one store access whose view is known. *)
Ltac js_access :=
  match goal with
  | |- context [emit ?e ?st] => rewrite (emit_result e st)
  | |- context [getView ?v ?st] =>
      let H := fresh in
      eassert (views (user st) !! v = Some _) as H
        by (simpl; first [eassumption | apply lookup_insert_eq]);
      rewrite (getView_Some v _ st H); clear H
  | |- context [updateView ?v ?f ?st] =>
      let H := fresh in
      eassert (views (user st) !! v = Some _) as H
        by (simpl; first [eassumption | apply lookup_insert_eq]);
      rewrite (updateView_Some v _ f st H); clear H
  end; cbv beta iota.

Section PhaseFacts.
Implicit Types (s : VEnv) (v : ViewId) (view : View).

Lemma elem_of_partsToRenderFrom k (parts : list ViewPart) p :
  p ∈ partsToRenderFrom k parts <->
  exists i part, p = k + i /\ parts !! i = Some part /\ _shouldRender part = true.
Proof.
  revert k. induction parts as [|part parts IH]; intros k; simpl.
  - split; [by intros ?%elem_of_nil|by intros (i & ? & _ & ? & _)].
  - destruct (_shouldRender part) eqn:Ed.
    + rewrite elem_of_cons, IH. split.
      * intros [->|(i & part' & -> & Hi & Hd)].
        -- exists 0, part. split; [lia|done].
        -- exists (S i), part'. split; [lia|done].
      * intros ([|i] & part' & -> & Hi & Hd); simpl in Hi.
        -- left. lia.
        -- right. exists i, part'. split; [lia|done].
    + rewrite IH. split.
      * intros (i & part' & -> & Hi & Hd). exists (S i), part'. split; [lia|done].
      * intros ([|i] & part' & -> & Hi & Hd); simpl in Hi.
        -- congruence.
        -- exists i, part'. split; [lia|done].
Qed.

Lemma elem_of_getViewPartsToRender view p :
  p ∈ _getViewPartsToRender view <->
  exists part, _viewParts view !! p = Some part /\ _shouldRender part = true.
Proof.
  unfold _getViewPartsToRender. rewrite elem_of_partsToRenderFrom. split.
  - intros (i & part & -> & Hi & Hd). by exists part.
  - intros (part & Hp & Hd). by exists p, part.
Qed.

Lemma invalidate_length ps (parts : list ViewPart) :
  length (invalidate ps parts) = length parts.
Proof.
  induction ps as [|p ps IH]; simpl; [done|]. by rewrite length_alter.
Qed.

Lemma invalidate_lookup ps (parts : list ViewPart) i part :
  parts !! i = Some part ->
  invalidate ps parts !! i
  = Some (if decide (i ∈ ps) then set_shouldRender true part else part).
Proof.
  intros Hi. induction ps as [|p ps IH].
  - simpl. rewrite Hi. destruct (decide (i ∈ [])) as [Hin|]; [|done].
    by apply elem_of_nil in Hin.
  - change (invalidate (p :: ps) parts)
      with (alter (set_shouldRender true) p (invalidate ps parts)).
    destruct (decide (i = p)) as [->|Hne].
    + rewrite list_lookup_alter_eq, IH. simpl.
      destruct (decide (p ∈ p :: ps)) as [_|Hn]; [|exfalso; apply Hn; by left].
      by destruct (decide (p ∈ ps)).
    + rewrite list_lookup_alter_ne by done. rewrite IH.
      destruct (decide (i ∈ ps)) as [Hin|Hnin];
        destruct (decide (i ∈ p :: ps)) as [Hin'|Hnin']; try done.
      * exfalso. apply Hnin'. by right.
      * by apply elem_of_cons in Hin' as [?|?].
Qed.

(** Phase 1 of a live rendering. *)
Lemma prepareRenderText_result v view s :
  views (user s) !! v = Some view ->
  rendering_prepareRenderText (_createCoordinatedRendering v) s
  = (Returned tt,
     withUser (<[v := set_shouldRecomputeGlyphMarginLanes false view]> (views (user s)))
       (trace (user s) ++ [EvPhase v PrepareRenderText]
          ++ (if _shouldRecomputeGlyphMarginLanes view
              then [EvComputeGlyphMarginLanes v] else [])
          ++ [EvRenderStart v]) s).
Proof.
  intros Hv. unfold rendering_prepareRenderText, _createCoordinatedRendering.
  rewrite (bind_returned _ _ _ _ _ (emit_result _ _)).
  rewrite (bind_returned _ _ _ view _) by (apply getView_Some; exact Hv).
  destruct (_shouldRecomputeGlyphMarginLanes view) eqn:Ef.
  - unfold bind, updateView, _computeGlyphMarginLanes, emit, modify, withUser. simpl.
    rewrite (alter_Some _ _ _ _ Hv). by rewrite <- !app_assoc.
  - unfold bind, ret, emit, modify, withUser. simpl.
    rewrite insert_id; [by rewrite <- !app_assoc|].
    rewrite Hv. f_equal. destruct view; simpl in *. by subst.
Qed.

(** Phase 2 when the text subsystem renders and completes. *)
Lemma renderText_with_text v view s :
  views (user s) !! v = Some view ->
  domNodeIsConnected view = true ->
  lines_shouldRender (_viewLines view) = true ->
  onRenderText (_viewLines view) = Completes ->
  let view' :=
    set_viewLines (set_lines_shouldRender false (_viewLines view))
      (set_viewParts (invalidate (scrollInvalidates (_viewLines view)) (_viewParts view))
         view) in
  rendering_renderText (_createCoordinatedRendering v) s
  = (Returned (Some (_getViewPartsToRender view',
                     {| ctxView := v; ctxViewportData := linesViewportData view |})),
     withUser (<[v := view']> (views (user s)))
       (trace (user s) ++ [EvPhase v RenderText; EvSetViewport v (linesViewportData view)]
          ++ (if contentWidgets_shouldRender view then [EvOnBeforeRender v] else [])
          ++ [EvLinesRenderText v]) s).
Proof.
  intros Hv Hc Hl Ht view'.
  unfold rendering_renderText, _createCoordinatedRendering.
  rewrite (bind_returned _ _ _ _ _ (emit_result _ _)).
  rewrite (bind_returned _ _ _ view _) by (apply getView_Some; exact Hv).
  rewrite Hc, Hl. cbn [negb andb]. cbv beta iota zeta.
  rewrite (bind_returned _ _ _ _ _ (emit_result _ _)).
  set (sA := withUser _ _ _).
  assert (views (user sA) !! v = Some view) as HvA by exact Hv.
  assert (forall sB, views (user sB) !! v = Some view ->
            (let* viewPartsToRender :=
               (ViewLines_renderText v (linesViewportData view) ;;;
                ViewLines_onDidRender v ;;;
                let* view'0 := getView v in ret (_getViewPartsToRender view'0)) in
             ret (Some (viewPartsToRender,
                   {| ctxView := v; ctxViewportData := linesViewportData view |}))) sB
            = (Returned (Some (_getViewPartsToRender view',
                     {| ctxView := v; ctxViewportData := linesViewportData view |})),
               withUser (<[v := view']> (views (user sB)))
                 (trace (user sB) ++ [EvLinesRenderText v]) sB)) as Hrest.
  { intros sB HvB. unfold ViewLines_renderText, ViewLines_onDidRender, bind.
    do 2 js_access. rewrite Ht. simpl behave. unfold ret at 1. cbv beta iota.
    do 3 js_access. unfold ret, withUser. simpl. by rewrite insert_insert_eq. }
  destruct (contentWidgets_shouldRender view).
  - rewrite (bind_returned _ _ _ _ _ (emit_result _ _)).
    etransitivity; [apply Hrest; exact Hv|].
    unfold sA, withUser. simpl. by rewrite <- !app_assoc.
  - rewrite (bind_returned _ _ _ tt sA) by reflexivity.
    etransitivity; [apply Hrest; exact Hv|].
    unfold sA, withUser. simpl. by rewrite <- !app_assoc.
Qed.
End PhaseFacts.

Section PartLoops.
Implicit Types (s : VEnv) (v : ViewId) (view : View).

(** C9. When the text subsystem needs rendering, the list of view parts
    handed to the prepareRender and render phases is computed after text
    rendering has completed: it holds exactly the parts that report
    shouldRender() at that point, so a part that text rendering made dirty
    is in it even if it was clean before. *)
Theorem C9_parts_recollected_after_text_rendering s v view :
  views (user s) !! v = Some view ->
  domNodeIsConnected view = true ->
  lines_shouldRender (_viewLines view) = true ->
  onRenderText (_viewLines view) = Completes ->
  exists s' view' viewParts ctx,
    rendering_renderText (_createCoordinatedRendering v) s
    = (Returned (Some (viewParts, ctx)), s')
    /\ views (user s') !! v = Some view'
    /\ EvLinesRenderText v ∈ trace (user s')
    /\ viewParts = _getViewPartsToRender view'
    /\ (forall p, p ∈ viewParts <->
          exists part', _viewParts view' !! p = Some part' /\ _shouldRender part' = true)
    /\ (forall p part, _viewParts view !! p = Some part ->
          p ∈ scrollInvalidates (_viewLines view) -> p ∈ viewParts)
    /\ (forall p part, _viewParts view !! p = Some part ->
          _shouldRender part = true -> p ∈ viewParts).
Proof.
  intros Hv Hc Hl Ht.
  eexists _, _, _, _. split; [by apply renderText_with_text|].
  split; [simpl; apply lookup_insert_eq|].
  split; [simpl; set_solver|].
  split; [done|]. split; [apply elem_of_getViewPartsToRender|].
  split.
  - intros p part Hp Hin. apply elem_of_getViewPartsToRender. simpl.
    rewrite (invalidate_lookup _ _ _ _ Hp). rewrite decide_True by done.
    by eexists.
  - intros p part Hp Hd. apply elem_of_getViewPartsToRender. simpl.
    rewrite (invalidate_lookup _ _ _ _ Hp). eexists. split; [done|].
    by destruct (decide _).
Qed.

Lemma ViewPart_prepareRender_result v view p part ctx s :
  views (user s) !! v = Some view ->
  _viewParts view !! p = Some part ->
  ViewPart_prepareRender v p ctx s
  = (match onPrepareRender part with Completes => Returned tt | Throws e => Thrown e end,
     withUser (views (user s)) (trace (user s) ++ [EvPartPrepareRender v p]) s).
Proof.
  intros Hv Hp. unfold ViewPart_prepareRender.
  rewrite (bind_returned _ _ _ _ _ (getPart_Some _ _ _ _ _ Hv Hp)).
  rewrite (bind_returned _ _ _ _ _ (emit_result _ _)).
  by destruct (onPrepareRender part).
Qed.

Lemma ViewPart_render_result v view p part ctx s :
  views (user s) !! v = Some view ->
  _viewParts view !! p = Some part ->
  ViewPart_render v p ctx s
  = (match onRender part with Completes => Returned tt | Throws e => Thrown e end,
     withUser (views (user s)) (trace (user s) ++ [EvPartRender v p]) s).
Proof.
  intros Hv Hp. unfold ViewPart_render.
  rewrite (bind_returned _ _ _ _ _ (getPart_Some _ _ _ _ _ Hv Hp)).
  rewrite (bind_returned _ _ _ _ _ (emit_result _ _)).
  by destruct (onRender part).
Qed.

Lemma ViewPart_onDidRender_result v view p part s :
  views (user s) !! v = Some view ->
  _viewParts view !! p = Some part ->
  ViewPart_onDidRender v p s
  = (Returned tt,
     withUser (<[v := set_viewParts (alter (set_shouldRender false) p (_viewParts view))
                        view]> (views (user s)))
       (trace (user s) ++ [EvPartOnDidRender v p]) s).
Proof.
  intros Hv Hp. unfold ViewPart_onDidRender.
  rewrite (bind_returned _ _ _ _ _ (getPart_Some _ _ _ _ _ Hv Hp)).
  rewrite (bind_returned _ _ _ _ _ (emit_result _ _)).
  unfold updatePart. by js_access.
Qed.

Lemma prepareRender_loop_completes v view ctx ps :
  forall s,
    views (user s) !! v = Some view ->
    (forall q, q ∈ ps ->
       exists part, _viewParts view !! q = Some part /\ onPrepareRender part = Completes) ->
    forOf ps (fun viewPart => ViewPart_prepareRender v viewPart ctx) s
    = (Returned tt,
       withUser (views (user s)) (trace (user s) ++ (EvPartPrepareRender v <$> ps)) s).
Proof.
  induction ps as [|p ps IH]; intros s Hv Hps.
  - simpl. by rewrite app_nil_r, withUser_id.
  - destruct (Hps p) as (part & Hp & Hb); [by left|].
    simpl. rewrite (bind_returned _ _ _ tt _
                      (eq_trans (ViewPart_prepareRender_result _ _ _ _ ctx _ Hv Hp)
                                ltac:(by rewrite Hb))).
    rewrite IH.
    + unfold withUser. simpl. by rewrite <- app_assoc.
    + exact Hv.
    + intros q Hq. apply Hps. by right.
Qed.

Lemma render_loop v ctx ps :
  forall s view,
    views (user s) !! v = Some view ->
    (forall q, q ∈ ps ->
       exists part, _viewParts view !! q = Some part /\ onRender part = Completes) ->
    exists parts',
      forOf ps (fun viewPart =>
                  ViewPart_render v viewPart ctx ;;; ViewPart_onDidRender v viewPart) s
      = (Returned tt,
         withUser (<[v := set_viewParts parts' view]> (views (user s)))
           (trace (user s) ++ (ps ≫= fun q => [EvPartRender v q; EvPartOnDidRender v q])) s)
      /\ forall i part, _viewParts view !! i = Some part ->
           exists part', parts' !! i = Some part' /\ onRender part' = onRender part.
Proof.
  induction ps as [|p ps IH]; intros s view Hv Hps.
  - exists (_viewParts view). split; [|by eauto].
    simpl. by rewrite set_viewParts_id, (insert_id _ _ _ Hv), app_nil_r, withUser_id.
  - destruct (Hps p) as (part0 & Hp & Hb); [by left|].
    set (view1 := set_viewParts (alter (set_shouldRender false) p (_viewParts view)) view).
    set (s1 := withUser (<[v := view1]> (views (user s)))
                 (trace (user s) ++ [EvPartRender v p; EvPartOnDidRender v p]) s).
    assert ((ViewPart_render v p ctx ;;; ViewPart_onDidRender v p) s = (Returned tt, s1)) as E1.
    { erewrite bind_returned.
      2: { erewrite ViewPart_render_result; [|exact Hv|exact Hp].
           rewrite Hb. reflexivity. }
      erewrite ViewPart_onDidRender_result; [|exact Hv|exact Hp].
      unfold s1, withUser. simpl. by rewrite <- app_assoc. }
    destruct (IH s1 view1) as (parts' & E2 & Hlk).
    { simpl. apply lookup_insert_eq. }
    { intros q Hq. destruct (Hps q) as (part & Hq' & Hbq); [by right|]. simpl.
      destruct (decide (q = p)) as [->|Hne].
      - rewrite list_lookup_alter_eq, Hq'. simpl. by eexists.
      - rewrite list_lookup_alter_ne by done. by eexists. }
    exists parts'. split.
    + simpl. rewrite (bind_returned _ _ _ _ _ E1). etransitivity; [exact E2|].
      unfold s1, withUser. simpl. rewrite insert_insert_eq. by rewrite <- app_assoc.
    + intros i part Hi. simpl in Hlk.
      destruct (decide (i = p)) as [->|Hne].
      * destruct (Hlk p (set_shouldRender false part)) as (part' & ? & ?).
        { by rewrite list_lookup_alter_eq, Hi. }
        by exists part'.
      * apply Hlk. by rewrite list_lookup_alter_ne.
Qed.

(** C3 (amended). When a view part of the batch throws during its
    prepareRender call, the prepareRender phase of that participant ends
    there: the parts before it have been prepared, the parts after it
    receive no prepareRender call in this frame.  The render phase still
    runs over the whole batch, so every part, the throwing one included,
    receives its render and onDidRender calls, and the error sink receives
    exactly one report, the exception thrown. *)
Theorem C3_prepareRender_failure_ends_the_phase_only s v view pre p post ctx e :
  views (user s) !! v = Some view ->
  (forall q, q ∈ pre ->
     exists part, _viewParts view !! q = Some part /\ onPrepareRender part = Completes) ->
  (exists part, _viewParts view !! p = Some part /\ onPrepareRender part = Throws e) ->
  (forall q, q ∈ pre ++ p :: post ->
     exists part, _viewParts view !! q = Some part /\ onRender part = Completes) ->
  let batch := pre ++ p :: post in
  let rendering := _createCoordinatedRendering v in
  exists s1 s2,
    safeInvokeNoArg (rendering_prepareRender rendering batch ctx) s = (Returned None, s1)
    /\ safeInvokeNoArg (rendering_render rendering batch ctx) s1 = (Returned (Some tt), s2)
    /\ trace (user s2)
       = trace (user s)
           ++ [EvPhase v PrepareRender] ++ (EvPartPrepareRender v <$> pre ++ [p])
           ++ [EvPhase v Render]
           ++ (batch ≫= fun q => [EvPartRender v q; EvPartOnDidRender v q])
    /\ unexpectedErrors s2 = unexpectedErrors s ++ [e].
Proof.
  intros Hv Hpre (part & Hp & Hthrow) Hrender batch rendering.
  set (sA := withUser (views (user s)) (trace (user s) ++ [EvPhase v PrepareRender]) s).
  assert (rendering_prepareRender rendering batch ctx s
          = (Thrown e,
             withUser (views (user s))
               (trace (user s) ++ [EvPhase v PrepareRender]
                  ++ (EvPartPrepareRender v <$> pre ++ [p])) s)) as E3.
  { unfold rendering, rendering_prepareRender, _createCoordinatedRendering.
    rewrite (bind_returned _ _ _ _ _ (emit_result _ _)). fold sA.
    unfold batch. rewrite forOf_app.
    rewrite (bind_returned _ _ _ _ _
               (prepareRender_loop_completes v view ctx pre sA Hv Hpre)).
    simpl. erewrite bind_thrown.
    2: { erewrite ViewPart_prepareRender_result; [|exact Hv|exact Hp].
         rewrite Hthrow. reflexivity. }
    unfold sA, withUser. simpl. by rewrite fmap_app, <- !app_assoc. }
  set (s1 := set_errors (unexpectedErrors s ++ [e])
               (withUser (views (user s))
                  (trace (user s) ++ [EvPhase v PrepareRender]
                     ++ (EvPartPrepareRender v <$> pre ++ [p])) s)).
  assert (views (user s1) !! v = Some view) as Hv1 by exact Hv.
  destruct (render_loop v ctx batch
              (withUser (views (user s1)) (trace (user s1) ++ [EvPhase v Render]) s1)
              view Hv1 Hrender) as (parts' & E4 & _).
  exists s1. eexists. split; [|split; [|split]].
  - unfold safeInvokeNoArg. rewrite E3. reflexivity.
  - unfold safeInvokeNoArg, rendering, rendering_render, _createCoordinatedRendering.
    rewrite (bind_returned _ _ _ _ _ (emit_result _ _)). rewrite E4. reflexivity.
  - simpl. by rewrite <- !app_assoc.
  - done.
Qed.
End PartLoops.


Section RenderNow.
Implicit Types (s : VEnv) (v : ViewId) (view : View).

Lemma emits_respected (ok : Event -> Prop) :
  (forall s, emits ok s s)
  /\ (forall s1 s2 s3, emits ok s1 s2 -> emits ok s2 s3 -> emits ok s1 s3)
  /\ (forall e s, ok e -> emits ok s (emit e s).2)
  /\ (forall v (f : View -> View) s, anyUpdate f -> emits ok s (updateView v f s).2)
  /\ (forall e s, emits ok s (onUnexpectedError (R:=Rendering) e s).2).
Proof.
  repeat split; try done.
  - exists []. by rewrite app_nil_r.
  - destruct H as [(? & ? & ? & ?) _], H0 as [(? & ? & ? & ?) _]. congruence.
  - destruct H as [(? & ? & ? & ?) _], H0 as [(? & ? & ? & ?) _]. congruence.
  - destruct H as [(? & ? & ? & ?) _], H0 as [(? & ? & ? & ?) _]. congruence.
  - destruct H as [(? & ? & ? & ?) _], H0 as [(? & ? & ? & ?) _]. congruence.
  - destruct H as [_ (evs1 & E1 & F1)], H0 as [_ (evs2 & E2 & F2)].
    exists (evs1 ++ evs2). rewrite E2, E1, <- app_assoc.
    split; [done|by apply Forall_app].
  - exists [e]. split; [done|by constructor].
  - exists []. by rewrite app_nil_r.
  - exists []. by rewrite app_nil_r.
Qed.

Lemma safeInvoke_phase (ok : Event -> Prop) {T} (e : Event) (m : Js VEnv T) s :
  respects (emits ok) m ->
  exists o s' evs,
    safeInvokeNoArg (emit e ;;; m) s = (Returned o, s')
    /\ coordSame s s'
    /\ trace (user s') = trace (user s) ++ e :: evs
    /\ Forall ok evs.
Proof.
  intros Hm. unfold safeInvokeNoArg.
  rewrite (bind_returned _ _ _ _ _ (emit_result _ _)).
  specialize (Hm (withUser (views (user s)) (trace (user s) ++ [e]) s)).
  destruct (m _) as [[a|err] s1]; simpl in Hm;
    destruct Hm as [(C1 & C2 & C3 & C4) (evs & E & F)].
  - exists (Some a), s1, evs. split; [done|]. split; [done|].
    split; [|done]. rewrite E. simpl. by rewrite <- app_assoc.
  - eexists None, _, evs. split; [reflexivity|]. split; [done|].
    split; [|done]. simpl. rewrite E. simpl. by rewrite <- app_assoc.
Qed.

Lemma phases_respect_emits (ok : Event -> Prop) v :
  (forall e, early v e -> ok e) ->
  let rendering := _createCoordinatedRendering v in
  respects (emits ok)
    (let* view := getView v in
     (if _shouldRecomputeGlyphMarginLanes view
      then updateView v (set_shouldRecomputeGlyphMarginLanes false) ;;;
           _computeGlyphMarginLanes v
      else ret tt) ;;;
     emit (EvRenderStart v))
  /\ respects (emits ok)
    (let* view := getView v in
     if negb (domNodeIsConnected view) then ret None else
     let viewPartsToRender := _getViewPartsToRender view in
     if negb (lines_shouldRender (_viewLines view))
        && bool_decide (length viewPartsToRender = 0)
     then ret None else
     let partialViewportData := linesViewportData view in
     emit (EvSetViewport v partialViewportData) ;;;
     let viewportData := partialViewportData in
     (if contentWidgets_shouldRender view
      then emit (EvOnBeforeRender v)
      else ret tt) ;;;
     let* viewPartsToRender :=
       (if lines_shouldRender (_viewLines view)
        then ViewLines_renderText v viewportData ;;;
             ViewLines_onDidRender v ;;;
             let* view' := getView v in
             ret (_getViewPartsToRender view')
        else ret viewPartsToRender) in
     ret (Some (viewPartsToRender,
                {| ctxView := v; ctxViewportData := viewportData |}))).
Proof.
  intros Hok rendering.
  destruct (emits_respected ok) as (H1 & H2 & H3 & H4 & H5).
  split;
    respects_auto ltac:(first [exact I | apply Hok; split; discriminate]).
Qed.

Lemma loops_respect_emits v vps ctx :
  respects (emits anyEvent)
    (forOf vps (fun viewPart => ViewPart_prepareRender v viewPart ctx))
  /\ respects (emits anyEvent)
    (forOf vps (fun viewPart =>
       ViewPart_render v viewPart ctx ;;; ViewPart_onDidRender v viewPart)).
Proof.
  destruct (emits_respected anyEvent) as (H1 & H2 & H3 & H4 & H5).
  split; respects_auto ltac:(exact I).
Qed.

Lemma coordSame_trans s1 s2 s3 : coordSame s1 s2 -> coordSame s2 s3 -> coordSame s1 s3.
Proof. intros (? & ? & ? & ?) (? & ? & ? & ?). repeat split; congruence. Qed.

(** The shape of a synchronous rendering. *)
Lemma flush_structure v s :
  let rendering := _createCoordinatedRendering v in
  exists o1 sA o2 sB evsA evsB s' evs34,
    safeInvokeNoArg (rendering_prepareRenderText rendering) s = (Returned o1, sA)
    /\ safeInvokeNoArg (rendering_renderText rendering) sA = (Returned o2, sB)
    /\ trace (user sB)
       = trace (user s) ++ EvPhase v PrepareRenderText :: evsA
           ++ EvPhase v RenderText :: evsB
    /\ Forall (early v) evsA /\ Forall (early v) evsB
    /\ _flushAccumulatedAndRenderNow v s = (Returned tt, s')
    /\ coordSame s s'
    /\ trace (user s') = trace (user sB) ++ evs34
    /\ match mjoin o2 with
       | None => evs34 = []
       | Some _ => EvPhase v PrepareRender ∈ evs34 /\ EvPhase v Render ∈ evs34
       end.
Proof.
  intros rendering.
  destruct (phases_respect_emits (early v) v (fun e H => H)) as [R1 R2].
  destruct (safeInvoke_phase (early v) (EvPhase v PrepareRenderText) _ s R1)
    as (o1 & sA & evsA & EA & CA & TA & FA).
  destruct (safeInvoke_phase (early v) (EvPhase v RenderText) _ sA R2)
    as (o2 & sB & evsB & EB & CB & TB & FB).
  assert (safeInvokeNoArg (rendering_prepareRenderText rendering) s = (Returned o1, sA))
    as EA' by exact EA.
  assert (safeInvokeNoArg (rendering_renderText rendering) sA = (Returned o2, sB))
    as EB' by exact EB.
  assert (trace (user sB)
          = trace (user s) ++ EvPhase v PrepareRenderText :: evsA
              ++ EvPhase v RenderText :: evsB) as TAB.
  { rewrite TB, TA. by rewrite <- app_assoc. }
  unfold _flushAccumulatedAndRenderNow. fold rendering.
  destruct (mjoin o2) as [[vps ctx]|] eqn:Ed.
  - destruct (loops_respect_emits v vps ctx) as [L3 L4].
    destruct (safeInvoke_phase anyEvent (EvPhase v PrepareRender) _ sB L3)
      as (o3 & sC & evsC & EC & CC & TC & _).
    destruct (safeInvoke_phase anyEvent (EvPhase v Render) _ sC L4)
      as (o4 & sD & evsD & ED & CD & TD & _).
    exists o1, sA, o2, sB, evsA, evsB, sD,
      (EvPhase v PrepareRender :: evsC ++ EvPhase v Render :: evsD).
    split; [done|]. split; [done|]. split; [done|]. split; [done|]. split; [done|].
    split; [|split; [|split]].
    + rewrite (bind_returned _ _ _ _ _ EA'), (bind_returned _ _ _ _ _ EB'), Ed.
      assert (safeInvokeNoArg (rendering_prepareRender rendering vps ctx) sB
              = (Returned o3, sC)) as EC' by exact EC.
      assert (safeInvokeNoArg (rendering_render rendering vps ctx) sC
              = (Returned o4, sD)) as ED' by exact ED.
      by rewrite (bind_returned _ _ _ _ _ EC'), (bind_returned _ _ _ _ _ ED').
    + eauto using coordSame_trans.
    + rewrite TD, TC. by rewrite <- app_assoc.
    + rewrite Ed. split; [apply elem_of_cons; by left|].
      apply elem_of_cons. right. apply elem_of_app. right. apply elem_of_cons. by left.
  - exists o1, sA, o2, sB, evsA, evsB, sB, [].
    split; [done|]. split; [done|]. split; [done|]. split; [done|]. split; [done|].
    split; [|split; [|split]].
    + by rewrite (bind_returned _ _ _ _ _ EA'), (bind_returned _ _ _ _ _ EB'), Ed.
    + eauto using coordSame_trans.
    + by rewrite app_nil_r.
    + by rewrite Ed.
Qed.

Lemma rendering_renderText_detached v s o :
  detached v s ->
  (safeInvokeNoArg (rendering_renderText (_createCoordinatedRendering v)) s).1 = Returned o ->
  mjoin o = None.
Proof.
  intros (view & Hv & Hc). unfold safeInvokeNoArg.
  unfold rendering_renderText, _createCoordinatedRendering.
  rewrite (bind_returned _ _ _ _ _ (emit_result _ _)).
  rewrite (bind_returned _ _ _ view _) by (apply getView_Some; exact Hv).
  rewrite Hc. simpl. by intros [= <-].
Qed.

Lemma prepareRenderText_detached v s :
  detached v s ->
  detached v (safeInvokeNoArg (rendering_prepareRenderText (_createCoordinatedRendering v)) s).2.
Proof.
  destruct detached_respected as (H1 & H2 & H3 & H4 & H5).
  assert (respects (fun s s' => forall v, detached v s -> detached v s')
            (safeInvokeNoArg (rendering_prepareRenderText (_createCoordinatedRendering v))))
    as Hr.
  { respects_auto ltac:(first [exact I | intros ?; reflexivity]). }
  intros Hd. by apply Hr.
Qed.
End RenderNow.

Section RenderFacts.
Implicit Types (s : VEnv) (v : ViewId) (view : View).

Lemma early_excludes v (l : list Event) :
  Forall (early v) l ->
  (EvPhase v PrepareRender ∉ l) /\ (EvPhase v Render ∉ l).
Proof.
  intros Hl. rewrite Forall_forall in Hl.
  split; intros Hin; destruct (Hl _ Hin) as [H1 H2]; done.
Qed.

Lemma first_phases_exclude v (evsA evsB : list Event) e :
  Forall (early v) evsA -> Forall (early v) evsB ->
  e = EvPhase v PrepareRender \/ e = EvPhase v Render ->
  e ∉ EvPhase v PrepareRenderText :: evsA ++ EvPhase v RenderText :: evsB.
Proof.
  intros FA FB He Hin.
  destruct (early_excludes _ _ FA) as [A1 A2].
  destruct (early_excludes _ _ FB) as [B1 B2].
  apply elem_of_cons in Hin as [->|Hin]; [by destruct He|].
  apply elem_of_app in Hin as [Hin|Hin]; [by destruct He as [->| ->]|].
  apply elem_of_cons in Hin as [->|Hin]; [by destruct He|].
  by destruct He as [->| ->].
Qed.

Lemma forceView_flags view :
  lines_shouldRender (_viewLines (forceView view)) = true
  /\ Forall (fun part => _shouldRender part = true) (_viewParts (forceView view)).
Proof.
  split; [done|]. simpl. apply Forall_fmap. by apply Forall_true.
Qed.

(** C6 (amended). [render(now, everything)]: with [everything] the text
    subsystem and every view part are forced, so that each reports
    shouldRender() when the rendering is carried out or scheduled; with
    [now = false] the call is [_scheduleRender()]; with [now] the call
    returns after a synchronous rendering that does not touch the
    coordinator: prepareRenderText and renderText are run, and
    prepareRender and render are run together or not at all.  They are not
    run when the root is detached; they are run when everything was forced,
    the root is attached and text rendering completes. *)
Theorem C6_render_now_or_later s v view :
  views (user s) !! v = Some view ->
  let s1 := withUser (<[v := forceView view]> (views (user s))) (trace (user s)) s in
  forceEverything v s = (Returned tt, s1)
  /\ lines_shouldRender (_viewLines (forceView view)) = true
  /\ Forall (fun part => _shouldRender part = true) (_viewParts (forceView view))
  /\ (forall now,
        View_render v now true s
        = if now then _flushAccumulatedAndRenderNow v s1 else View_scheduleRender v s1)
  /\ (forall now,
        View_render v now false s
        = if now then _flushAccumulatedAndRenderNow v s else View_scheduleRender v s)
  /\ (forall everything, exists s' evs,
        View_render v true everything s = (Returned tt, s')
        /\ coordSame s s'
        /\ trace (user s') = trace (user s) ++ evs
        /\ EvPhase v PrepareRenderText ∈ evs
        /\ EvPhase v RenderText ∈ evs
        /\ (EvPhase v PrepareRender ∈ evs <-> EvPhase v Render ∈ evs)
        /\ (domNodeIsConnected view = false -> EvPhase v PrepareRender ∉ evs)
        /\ (everything = true -> domNodeIsConnected view = true ->
            onRenderText (_viewLines view) = Completes ->
            EvPhase v PrepareRender ∈ evs /\ EvPhase v Render ∈ evs)).
Proof.
  intros Hv s1.
  pose proof (forceEverything_result v view s Hv) as Ef. fold s1 in Ef.
  destruct (forceView_flags view) as [Fl Fp].
  assert (forall now, View_render v now true s
            = if now then _flushAccumulatedAndRenderNow v s1
              else View_scheduleRender v s1) as Et.
  { intros now. unfold View_render. rewrite (bind_returned _ _ _ _ _ Ef).
    by destruct now. }
  assert (forall now, View_render v now false s
            = if now then _flushAccumulatedAndRenderNow v s
              else View_scheduleRender v s) as Efalse.
  { intros now. by destruct now. }
  split; [done|]. split; [done|]. split; [done|]. split; [done|]. split; [done|].
  intros everything.
  set (s0 := if everything then s1 else s).
  set (view0 := if everything then forceView view else view).
  assert (View_render v true everything s = _flushAccumulatedAndRenderNow v s0) as E0.
  { unfold s0. destruct everything; [apply (Et true)|apply (Efalse true)]. }
  assert (views (user s0) !! v = Some view0) as Hv0.
  { unfold s0, view0. destruct everything; [apply lookup_insert_eq|done]. }
  assert (trace (user s0) = trace (user s) /\ coordSame s s0) as [Tr0 C0].
  { unfold s0. by destruct everything. }
  assert (domNodeIsConnected view0 = domNodeIsConnected view) as Hc0.
  { unfold view0. by destruct everything. }
  destruct (flush_structure v s0)
    as (o1 & sA & o2 & sB & evsA & evsB & s' & evs34
        & EA & EB & TB & FA & FB & Efl & Cfl & Tfl & Hdata).
  exists s', ((EvPhase v PrepareRenderText :: evsA ++ EvPhase v RenderText :: evsB) ++ evs34).
  split; [by rewrite E0|]. split; [by eapply coordSame_trans|].
  split; [by rewrite Tfl, TB, Tr0, <- app_assoc|].
  split; [apply elem_of_app; left; apply elem_of_cons; by left|].
  split.
  { apply elem_of_app. left. apply elem_of_cons. right. apply elem_of_app. right.
    apply elem_of_cons. by left. }
  pose proof (first_phases_exclude v evsA evsB _ FA FB (or_introl eq_refl)) as N3.
  pose proof (first_phases_exclude v evsA evsB _ FA FB (or_intror eq_refl)) as N4.
  split; [|split].
  - destruct (mjoin o2).
    + destruct Hdata as [D3 D4]. split; intros _; apply elem_of_app; by right.
    + subst evs34. rewrite app_nil_r. split; intros Hin; done.
  - intros Hdet.
    assert (detached v s0) as Hd0.
    { exists view0. split; [done|]. by rewrite Hc0. }
    pose proof (prepareRenderText_detached v s0 Hd0) as HdA. rewrite EA in HdA.
    assert (mjoin o2 = None) as Hnone.
    { apply (rendering_renderText_detached v sA); [exact HdA|]. by rewrite EB. }
    rewrite Hnone in Hdata. subst evs34. by rewrite app_nil_r.
  - intros -> Hc Ht.
    assert (exists d, mjoin o2 = Some d) as [d Hd].
    { subst s0 view0. cbv beta iota in EA, Hv0. unfold safeInvokeNoArg in EA.
      rewrite (prepareRenderText_result v (forceView view) s1 Hv0) in EA.
      injection EA as _ <-.
      unfold safeInvokeNoArg in EB.
      erewrite renderText_with_text in EB.
      - injection EB as <- _. by eexists.
      - simpl. apply lookup_insert_eq.
      - done.
      - done.
      - done. }
    rewrite Hd in Hdata. destruct Hdata as [D3 D4].
    split; apply elem_of_app; by right.
Qed.
End RenderFacts.


(** * The properties at concrete inputs *)

Ltac not_in_list :=
  let H := fresh in
  intros H;
  repeat (apply elem_of_cons in H as [H|H]; [discriminate H|]);
  by apply elem_of_nil in H.

Lemma C1_phases_ordered_witness :
  exists w' log,
    _onRenderScheduled probeObj probeWorld = (Returned tt, w')
    /\ calls w' = log
    /\ participants PrepareRenderText log = [1; 2]
    /\ participants RenderText log = [1; 2].
Proof.
  destruct (C1_phases_ordered_over_batch probeObj probeWorld)
    as (w' & log & E & Hc & _ & H1 & H2 & _).
  exists w', log. repeat split; assumption.
Defined.

(** A participant scheduled while the callback runs is not processed by
    it: it is pending afterwards, with a frame requested for its window. *)
Example scheduled_during_callback_is_deferred :
  let w := {| env := (scheduleCoordinatedRendering eagerObj 1 (initialEnv tt)).2;
              calls := [] |} in
  let w' := (fireFrame eagerObj 0 w).2 in
  calls w' = [CallPrepareRenderText 1 true; CallRenderText 1 (Some ([1], 1));
              CallPrepareRender 1 [1] 1 true; CallRender 1 [1] 1 true]
  /\ _coordinatedRenderings (env w') = [9]
  /\ requested (frames (env w')) = {[ 1 := 9 ]}.
Proof. vm_compute. repeat split; reflexivity. Qed.

(** C2, as stated, fails: participant 2 is registered for window 2, yet
    the callback of window 1 processes it. *)
Lemma C2_counterexample :
  requested (frames probeEnv) !! 0 = Some 1
  /\ pendingFor probeObj 1 probeEnv = [1]
  /\ participants PrepareRenderText (calls (fireFrame probeObj 0 probeWorld).2) = [1; 2]
  /\ participants PrepareRenderText (calls (fireFrame probeObj 0 probeWorld).2)
     <> pendingFor probeObj 1 probeEnv.
Proof. vm_compute. repeat split; try reflexivity. discriminate. Qed.

Lemma C2_batch_witness :
  requested (frames (env eagerWorld)) !! 0 = Some 1
  /\ exists w' log,
       fireFrame eagerObj 0 eagerWorld = (Returned tt, w')
       /\ calls w' = log
       /\ participants PrepareRenderText log = [1]
       /\ (9 ∉ callee <$> log)
       /\ deferred eagerObj 9 (env w').
Proof.
  assert (requested (frames (env eagerWorld)) !! 0 = Some 1) as H
    by (vm_compute; reflexivity).
  split; [exact H|].
  destruct (C2_batch_is_pending_list_at_fire_time eagerObj eagerWorld 0 1 H)
    as (w' & log & E & Hc & Hb & _ & Hnot & _ & Hdef & _).
  assert (calls (fireFrame eagerObj 0 eagerWorld).2
          = [CallPrepareRenderText 1 true; CallRenderText 1 (Some ([1], 1));
             CallPrepareRender 1 [1] 1 true; CallRender 1 [1] 1 true]) as Hlog
    by (vm_compute; reflexivity).
  rewrite E in Hlog. simpl in Hlog. rewrite Hc in Hlog. simpl in Hlog.
  exists w', log. split; [exact E|]. split; [by rewrite Hc|]. split; [exact Hb|].
  split.
  { apply Hnot. vm_compute. not_in_list. }
  apply (Hdef 9 [] (CallPrepareRenderText 1 true)
           [CallRenderText 1 (Some ([1], 1)); CallPrepareRender 1 [1] 1 true;
            CallRender 1 [1] 1 true]
           (swapped 0 1 (env eagerWorld))
           (safeInvokeNoArg (prepareRenderText (eagerObj 1))
              (swapped 0 1 (env eagerWorld))).2).
  - exact Hlog.
  - reflexivity.
  - exists (Some tt). split; [vm_compute; reflexivity|reflexivity].
  - split; [vm_compute; apply list_elem_of_here|].
    exists 1. vm_compute. reflexivity.
  - intros c' a b Hc' Hp Hd.
    repeat (apply elem_of_cons in Hc' as [->|Hc']);
      [| | |by apply elem_of_nil in Hc'];
      destruct Hp as (o & Ho & _); unfold safeInvokeNoArg in Ho; simpl in Ho;
      injection Ho as _ <-; exact Hd.
Defined.

(** C3, as stated, fails: the batch of [editorA] is [0; 1; 2], part 1
    throws in prepareRender, and part 2 receives no prepareRender call. *)
Lemma C3_counterexample :
  calls frameOfA
  = [CallPrepareRenderText renderingA true;
     CallRenderText renderingA (Some ([0; 1; 2], contextA));
     CallPrepareRender renderingA [0; 1; 2] contextA false;
     CallRender renderingA [0; 1; 2] contextA true]
  /\ unexpectedErrors (env frameOfA) = [ExternalError 5]
  /\ (EvPartPrepareRender 0 1 ∈ trace (user (env frameOfA)))
  /\ (EvPartPrepareRender 0 2 ∉ trace (user (env frameOfA))).
Proof.
  split; [vm_compute; reflexivity|].
  split; [vm_compute; reflexivity|].
  assert (trace (user (env frameOfA))
          = [EvPhase 0 PrepareRenderText; EvRenderStart 0; EvPhase 0 RenderText;
             EvSetViewport 0 7; EvOnBeforeRender 0; EvPhase 0 PrepareRender;
             EvPartPrepareRender 0 0; EvPartPrepareRender 0 1; EvPhase 0 Render;
             EvPartRender 0 0; EvPartOnDidRender 0 0; EvPartRender 0 1;
             EvPartOnDidRender 0 1; EvPartRender 0 2; EvPartOnDidRender 0 2]) as ->
    by (vm_compute; reflexivity).
  split; [|not_in_list].
  do 7 apply list_elem_of_further. apply list_elem_of_here.
Qed.

Lemma C3_prepareRender_failure_witness :
  views (user demoEnv) !! 0 = Some editorA
  /\ exists s1 s2,
       safeInvokeNoArg
         (rendering_prepareRender (_createCoordinatedRendering 0) [0; 1; 2] contextA) demoEnv
       = (Returned None, s1)
       /\ safeInvokeNoArg
            (rendering_render (_createCoordinatedRendering 0) [0; 1; 2] contextA) s1
          = (Returned (Some tt), s2)
       /\ unexpectedErrors s2 = [ExternalError 5].
Proof.
  assert (views (user demoEnv) !! 0 = Some editorA) as Hv by (vm_compute; reflexivity).
  split; [exact Hv|].
  destruct (C3_prepareRender_failure_ends_the_phase_only
              demoEnv 0 editorA [0] 1 [2] contextA (ExternalError 5) Hv)
    as (s1 & s2 & E1 & E2 & _ & He).
  - intros q ->%list_elem_of_singleton. eexists. split; reflexivity.
  - eexists. split; reflexivity.
  - intros q Hq. simpl in Hq.
    repeat (apply elem_of_cons in Hq as [->|Hq]; [eexists; split; reflexivity|]).
    by apply elem_of_nil in Hq.
  - exists s1, s2. repeat split; assumption.
Defined.

Lemma C4_scheduleRender_witness :
  views (user demoEnv) !! 0 = Some editorA
  /\ isDisposed editorA = false
  /\ _renderAnimationFrame editorA = None
  /\ exists s1,
       View_scheduleRender 0 demoEnv = (Returned tt, s1)
       /\ forOf (replicate 3 0) View_scheduleRender s1 = (Returned tt, s1)
       /\ _coordinatedRenderings s1 = [renderingA].
Proof.
  assert (views (user demoEnv) !! 0 = Some editorA) as Hv by (vm_compute; reflexivity).
  split; [exact Hv|]. split; [reflexivity|]. split; [reflexivity|].
  destruct (C4_scheduleRender_idempotent demoEnv 0 editorA 3 Hv eq_refl eq_refl)
    as (s1 & E1 & E2 & E3 & _).
  - intros r' Hr'. by apply elem_of_nil in Hr'.
  - exists s1. repeat split; assumption.
Defined.

(** C5, as stated, fails: after the handle of participant 1 is disposed,
    window 1 has no pending participant but keeps its frame request. *)
Lemma C5_counterexample :
  let s := applyOps probeObj [OpSchedule 1; OpSchedule 2; OpDispose 1] (initialEnv tt) in
  pendingFor probeObj 1 s = []
  /\ _animationFrameRunners s !! 1 = Some 0
  /\ requested (frames s) !! 0 = Some 1.
Proof. vm_compute. repeat split; reflexivity. Qed.

Lemma C5_frame_handles_witness :
  let s := applyOps probeObj [OpSchedule 1; OpSchedule 2; OpDispose 1; OpDispose 2]
             (initialEnv tt) in
  (_coordinatedRenderings s = [] -> requested (frames s) = ∅)
  /\ forall h1 h2 (w : CodeWindow),
       requested (frames s) !! h1 = Some w ->
       requested (frames s) !! h2 = Some w -> h1 = h2.
Proof.
  intros s.
  destruct (C5_frame_handles_invariant probeObj tt
              [OpSchedule 1; OpSchedule 2; OpDispose 1; OpDispose 2])
    as (H1 & _ & H3 & _).
  split; [exact H3|exact H1].
Defined.

(** C6, as stated, fails: on a view whose root is detached,
    [render(true, true)] returns without running phases 3 and 4. *)
Lemma C6_counterexample :
  (View_render 1 true true demoEnv).1 = Returned tt
  /\ trace (user (View_render 1 true true demoEnv).2)
     = [EvPhase 1 PrepareRenderText; EvRenderStart 1; EvPhase 1 RenderText]
  /\ (EvPhase 1 PrepareRender ∉ trace (user (View_render 1 true true demoEnv).2))
  /\ (EvPhase 1 Render ∉ trace (user (View_render 1 true true demoEnv).2)).
Proof.
  assert (trace (user (View_render 1 true true demoEnv).2)
          = [EvPhase 1 PrepareRenderText; EvRenderStart 1; EvPhase 1 RenderText]) as E
    by (vm_compute; reflexivity).
  split; [vm_compute; reflexivity|]. split; [exact E|].
  rewrite E. split; not_in_list.
Qed.

Lemma C6_render_witness :
  views (user demoEnv) !! 2 = Some editorC
  /\ exists s' evs,
       View_render 2 true true demoEnv = (Returned tt, s')
       /\ _coordinatedRenderings s' = _coordinatedRenderings demoEnv
       /\ trace (user s') = trace (user demoEnv) ++ evs
       /\ EvPhase 2 PrepareRender ∈ evs
       /\ EvPhase 2 Render ∈ evs.
Proof.
  assert (views (user demoEnv) !! 2 = Some editorC) as Hv by (vm_compute; reflexivity).
  split; [exact Hv|].
  destruct (C6_render_now_or_later demoEnv 2 editorC Hv) as (_ & _ & _ & _ & _ & H).
  destruct (H true) as (s' & evs & E & (C1 & _) & T & _ & _ & _ & _ & Hall).
  destruct (Hall eq_refl eq_refl eq_refl) as [H3 H4].
  exists s', evs. repeat split; assumption.
Defined.

(** Disposing a view with a pending rendering cancels the rendering, and
    the frame request with it when nothing else is pending; scheduling on
    the disposed view then fails. *)
Example disposing_a_view_cancels_its_rendering :
  let s := ((View_scheduleRender 0 ;;; View_dispose 0) demoEnv).2 in
  _coordinatedRenderings s = []
  /\ requested (frames s) = ∅
  /\ isDisposed <$> views (user s) !! 0 = Some true
  /\ (View_scheduleRender 0 s).1 = Thrown BugIndicatingError.
Proof. vm_compute. repeat split; reflexivity. Qed.

(** C7, as stated, fails: on the disposed view [editorD],
    [render(true, false)] returns normally. *)
Lemma C7_counterexample :
  views (user demoEnv) !! 3 = Some editorD
  /\ isDisposed editorD = true
  /\ (View_render 3 true false demoEnv).1 = Returned tt.
Proof. vm_compute. repeat split; reflexivity. Qed.

Lemma C7_disposed_view_witness :
  views (user demoEnv) !! 3 = Some editorD
  /\ isDisposed editorD = true
  /\ View_scheduleRender 3 demoEnv = (Thrown BugIndicatingError, demoEnv)
  /\ exists s', View_render 3 false true demoEnv = (Thrown BugIndicatingError, s').
Proof.
  assert (views (user demoEnv) !! 3 = Some editorD) as Hv by (vm_compute; reflexivity).
  split; [exact Hv|]. split; [reflexivity|].
  destruct (C7_disposed_view_rejects_scheduling demoEnv 3 editorD Hv eq_refl)
    as (H1 & H2 & _).
  split; [exact H1|]. destruct (H2 true) as (s' & E & _). by exists s'.
Defined.

Lemma C8_detached_root_witness :
  let w := {| env := (View_scheduleRender 1 demoEnv).2; calls := [] |} in
  views (user (env w)) !! 1
  = Some (set_renderAnimationFrame
            (Some (RenderingDisposable {| rid := 0; this := 1; renderingWindow := 2 |}))
            editorB)
  /\ exists w' log,
       _onRenderScheduled viewObj w = (Returned tt, w')
       /\ calls w' = log
       /\ CallRenderText {| rid := 0; this := 1; renderingWindow := 2 |} None ∈ log.
Proof.
  intros w.
  assert (views (user (env w)) !! 1
          = Some (set_renderAnimationFrame
                    (Some (RenderingDisposable {| rid := 0; this := 1; renderingWindow := 2 |}))
                    editorB)) as Hv by (vm_compute; reflexivity).
  split; [exact Hv|].
  destruct (C8_detached_root_is_a_noop w 1 _ Hv eq_refl) as (w' & log & E & Hc & Hin & _).
  exists w', log. split; [exact E|]. split; [exact Hc|].
  apply Hin; [|reflexivity]. vm_compute. apply list_elem_of_here.
Defined.

Lemma C9_parts_recollected_witness :
  views (user demoEnv) !! 2 = Some editorC
  /\ _getViewPartsToRender editorC = []
  /\ exists s' viewParts ctx,
       rendering_renderText (_createCoordinatedRendering 2) demoEnv
       = (Returned (Some (viewParts, ctx)), s')
       /\ 1 ∈ viewParts.
Proof.
  assert (views (user demoEnv) !! 2 = Some editorC) as Hv by (vm_compute; reflexivity).
  split; [exact Hv|]. split; [reflexivity|].
  destruct (C9_parts_recollected_after_text_rendering demoEnv 2 editorC Hv
              eq_refl eq_refl eq_refl)
    as (s' & view' & viewParts & ctx & E & _ & _ & _ & _ & Hscroll & _).
  exists s', viewParts, ctx. split; [exact E|].
  apply (Hscroll 1 (demoPart false Completes)); [reflexivity|].
  apply list_elem_of_here.
Defined.

Lemma C10_render_despite_failure_witness :
  exists w' log,
    _onRenderScheduled markingObj markingWorld = (Returned tt, w')
    /\ calls w' = log
    /\ CallPrepareRender 2 [2] 2 false ∈ log
    /\ (exists ok e1 e2 o,
          CallRender 2 [2] 2 ok ∈ log
          /\ safeInvokeNoArg (render (markingObj 2) [2] 2) e1 = (Returned o, e2)
          /\ user e2 = user e1 ++ [2])
    /\ user (env w') = [1; 2].
Proof.
  destruct (C10_render_called_despite_prepareRender_failure markingObj markingWorld
              2 [2] 2)
    as (w' & log & E & Hc & _ & _ & H3 & H4).
  assert (calls (_onRenderScheduled markingObj markingWorld).2
          = [CallPrepareRenderText 1 true; CallPrepareRenderText 2 true;
             CallRenderText 1 (Some ([1], 1)); CallRenderText 2 (Some ([2], 2));
             CallPrepareRender 1 [1] 1 true; CallPrepareRender 2 [2] 2 false;
             CallRender 1 [1] 1 true; CallRender 2 [2] 2 true]) as Hlog
    by (vm_compute; reflexivity).
  assert (user (env (_onRenderScheduled markingObj markingWorld).2) = [1; 2]) as Hu
    by (vm_compute; reflexivity).
  rewrite E in Hlog, Hu. simpl in Hlog, Hu. rewrite Hc in Hlog. simpl in Hlog.
  assert (CallPrepareRender 2 [2] 2 false ∈ log) as Hin.
  { rewrite Hlog. do 5 apply list_elem_of_further. apply list_elem_of_here. }
  destruct (H3 false Hin) as [ok Hok].
  destruct (H4 ok Hok) as (l1 & l2 & e1 & e2 & o & _ & _ & Ho & _).
  exists w', log. split; [exact E|]. split; [by rewrite Hc|]. split; [exact Hin|].
  split; [|exact Hu].
  exists ok, e1, e2, o. split; [exact Hok|]. split; [exact Ho|].
  unfold safeInvokeNoArg in Ho. simpl in Ho. by injection Ho as _ <-.
Defined.

(** * The system as a whole *)


Section Handles.
Implicit Types (s : VEnv) (v : ViewId) (view : View) (r : Rendering).

Lemma handlesOk_fields s s' :
  _coordinatedRenderings s' = _coordinatedRenderings s ->
  _animationFrameRunners s' = _animationFrameRunners s ->
  frames s' = frames s ->
  handlesOk s -> handlesOk s'.
Proof.
  intros E1 E2 E3 [Hbij Hfresh Hcov]. split.
  - intros h win. rewrite E2, E3. apply Hbij.
  - intros h win. rewrite E3. apply Hfresh.
  - intros r. rewrite E1, E2. apply Hcov.
Qed.

Lemma handlesOk_schedule r s :
  handlesOk s -> handlesOk (scheduleCoordinatedRendering viewObj r s).2.
Proof.
  intros [Hbij Hfresh Hcov].
  rewrite scheduleCoordinatedRendering_result. simpl.
  destruct (_animationFrameRunners s !! renderingWindow r) as [h0|] eqn:Ew.
  - split; simpl; try done.
    intros r' [Hr'|Hr'%list_elem_of_singleton]%elem_of_app; [auto|].
    subst r'. by rewrite Ew.
  - split; simpl.
    + intros h win. rewrite !lookup_insert_Some. split.
      * intros [[<- <-]|[Hne Hh]]; [by left|]. right. split; [|by apply Hbij].
        intros <-. apply Hbij in Hh. congruence.
      * intros [[<- <-]|[Hne Hh]]; [by left|]. right. split; [|by apply Hbij].
        intros <-. apply Hbij, Hfresh in Hh. lia.
    + intros h win [[<- <-]|[Hne Hh]]%lookup_insert_Some; [lia|].
      apply Hfresh in Hh. lia.
    + intros r' [Hr'|Hr'%list_elem_of_singleton]%elem_of_app.
      * destruct (Hcov r' Hr') as [h' Hh'].
        destruct (decide (renderingWindow r = renderingWindow r')) as [E|Hne].
        -- rewrite <- E. rewrite lookup_insert_eq. eauto.
        -- rewrite lookup_insert_ne by done. eauto.
      * subst r'. rewrite lookup_insert_eq. eauto.
Qed.

Lemma handlesOk_dispose r s :
  handlesOk s -> handlesOk (dispose (RenderingDisposable r) s).2.
Proof.
  intros Hinv. rewrite dispose_result. simpl.
  destruct (indexOf r (_coordinatedRenderings s)) as [i|] eqn:Ei; [|done].
  destruct Hinv as [Hbij Hfresh Hcov].
  destruct (indexOf_Some _ _ _ Ei) as (l1 & l2 & El & Hnin & Hsp).
  case_decide as Hlen.
  - assert (requested (frames (disposeAllRunners
              (set_renderings (splice1 i (_coordinatedRenderings s)) s))) = ∅) as Hempty.
    { apply disposeAllRunners_empties. simpl. intros h win. apply Hbij. }
    split; simpl.
    + intros h win. simpl in Hempty. rewrite Hempty. by rewrite !lookup_empty.
    + intros h win. simpl in Hempty. rewrite Hempty. by rewrite lookup_empty.
    + intros r' Hr'. apply nil_length_inv in Hlen. rewrite Hlen in Hr'.
      by apply elem_of_nil in Hr'.
  - split; simpl; try done.
    intros r' Hr'. apply Hcov. rewrite El. rewrite Hsp in Hr'.
    apply elem_of_app in Hr' as [?|?]; apply elem_of_app; [by left|right].
    by apply elem_of_cons; right.
Qed.

Lemma handlesOk_fired s s' h (win : CodeWindow) :
  requested (frames s) !! h = Some win ->
  _coordinatedRenderings s' = [] ->
  _animationFrameRunners s' = delete win (_animationFrameRunners s) ->
  frames s' = cancelFrame h (frames s) ->
  handlesOk s -> handlesOk s'.
Proof.
  intros Hh E1 E2 E3 [Hbij Hfresh Hcov]. split.
  - intros h' win'. rewrite E2, E3. simpl.
    rewrite !lookup_delete_Some. rewrite Hbij. split.
    + intros [Hne Hw]. split; [|done]. intros <-.
      apply Hbij in Hh. congruence.
    + intros [Hne Hw]. split; [|done]. intros <-.
      apply Hbij in Hw. congruence.
  - intros h' win'. rewrite E3. simpl.
    intros [_ Hw]%lookup_delete_Some. by apply Hfresh in Hw.
  - intros r. rewrite E1. by intros ?%elem_of_nil.
Qed.
End Handles.

Section Arming.
Implicit Types (s : VEnv) (v : ViewId) (view : View) (r : Rendering).

Lemma viewsEvolve_respected (P : View -> View -> Prop) (benign : (View -> View) -> Prop) :
  (forall a, P a a) ->
  (forall a b c, P a b -> P b c -> P a c) ->
  (forall f, benign f -> forall view, P view (f view)) ->
  (forall s, viewsEvolve P s s)
  /\ (forall s1 s2 s3, viewsEvolve P s1 s2 -> viewsEvolve P s2 s3 -> viewsEvolve P s1 s3)
  /\ (forall e s, anyEvent e -> viewsEvolve P s (emit e s).2)
  /\ (forall v f s, benign f -> viewsEvolve P s (updateView v f s).2)
  /\ (forall e s, viewsEvolve P s (onUnexpectedError (R:=Rendering) e s).2).
Proof.
  intros Prefl Ptrans Pben.
  assert (forall s v, option_Forall2 P (views (user s) !! v) (views (user s) !! v)) as Hrefl.
  { intros s v. destruct (views (user s) !! v); by constructor. }
  split; [|split; [|split; [|split]]].
  - intros s. split; [done|]. apply Hrefl.
  - intros s1 s2 s3 [C12 H12] [C23 H23]. split; [by eapply coordSame_trans|].
    intros v. specialize (H12 v). specialize (H23 v).
    destruct H12 as [a b Hab|]; inversion H23; subst; constructor. eauto.
  - intros e s _. split; [by unfold coordSame|]. intros v. simpl. apply Hrefl.
  - intros v f s Hf. split; [by unfold coordSame|]. intros v'. simpl.
    rewrite lookup_alter. case_decide as Hv.
    + subst. destruct (views (user s) !! v'); constructor. by apply Pben.
    + apply Hrefl.
  - intros e s. split; [by unfold coordSame|]. intros v. simpl. apply Hrefl.
Qed.

Lemma armingKept_preorder :
  (forall a, armingKept a a)
  /\ (forall a b c, armingKept a b -> armingKept b c -> armingKept a c)
  /\ (forall f, keepsArming f -> forall view, armingKept view (f view)).
Proof.
  split; [done|]. split; [|done].
  intros a b c [? ?] [? ?]. split; congruence.
Qed.

Lemma armingCleared_preorder :
  (forall a, armingCleared a a)
  /\ (forall a b c, armingCleared a b -> armingCleared b c -> armingCleared a c)
  /\ (forall f, mayDisarm f -> forall view, armingCleared view (f view)).
Proof.
  split; [by split; [|left]|]. split; [|done].
  intros a b c [E1 H1] [E2 H2]. split; [congruence|].
  destruct H2 as [H2|H2]; [|by right]. rewrite H2. exact H1.
Qed.

Lemma flush_keeps_arming v :
  respects (viewsEvolve armingKept) (_flushAccumulatedAndRenderNow v).
Proof.
  destruct armingKept_preorder as (P1 & P2 & P3).
  destruct (viewsEvolve_respected armingKept keepsArming P1 P2 P3)
    as (H1 & H2 & H3 & H4 & H5).
  unfold _flushAccumulatedAndRenderNow.
  respects_auto ltac:(first [exact I | intros ?; split; reflexivity]).
Qed.

Lemma force_keeps_arming v :
  respects (viewsEvolve armingKept) (forceEverything v).
Proof.
  destruct armingKept_preorder as (P1 & P2 & P3).
  destruct (viewsEvolve_respected armingKept keepsArming P1 P2 P3)
    as (H1 & H2 & H3 & H4 & H5).
  unfold forceEverything.
  respects_auto ltac:(first [exact I | intros ?; split; reflexivity]).
Qed.

Lemma participant_may_disarm r :
  respects (viewsEvolve armingCleared) (safeInvokeNoArg (prepareRenderText (viewObj r)))
  /\ respects (viewsEvolve armingCleared) (safeInvokeNoArg (renderText (viewObj r)))
  /\ (forall vps ctx,
        respects (viewsEvolve armingCleared)
          (safeInvokeNoArg (prepareRender (viewObj r) vps ctx)))
  /\ (forall vps ctx,
        respects (viewsEvolve armingCleared)
          (safeInvokeNoArg (render (viewObj r) vps ctx))).
Proof.
  destruct armingCleared_preorder as (P1 & P2 & P3).
  destruct (viewsEvolve_respected armingCleared mayDisarm P1 P2 P3)
    as (H1 & H2 & H3 & H4 & H5).
  split; [|split; [|split]]; intros;
    respects_auto ltac:(first
      [ exact I
      | intros ?; split; [reflexivity|first [left; reflexivity|right; reflexivity]] ]).
Qed.

Lemma armingOk_evolve s s' :
  viewsEvolve armingKept s s' -> armingOk s -> armingOk s'.
Proof.
  intros [(C1 & C2 & C3 & C4) Hv] [Hnd Hrid Hpend Harm Hdisp]. split.
  - by rewrite C1.
  - intros r. rewrite C1, C4. apply Hrid.
  - intros r. rewrite C1. intros Hr. destruct (Hpend r Hr) as (view & Hview & Hf).
    specialize (Hv (this r)). rewrite Hview in Hv.
    inversion Hv as [a b [_ Hab] E1 E2|]; subst. exists b. split; [done|]. congruence.
  - intros v view r Hview Hf. rewrite C1.
    specialize (Hv v). rewrite Hview in Hv.
    inversion Hv as [a b [_ Hab] E1 E2|]; subst. symmetry in E1.
    apply (Harm v a r E1). congruence.
  - intros v view Hview Hd.
    specialize (Hv v). rewrite Hview in Hv.
    inversion Hv as [a b [Hd' Hab] E1 E2|]; subst. symmetry in E1.
    rewrite Hab. apply (Hdisp v a E1). congruence.
Qed.

Lemma handlesOk_evolve P s s' :
  viewsEvolve P s s' -> handlesOk s -> handlesOk s'.
Proof. intros [(C1 & C2 & C3 & C4) _]. by apply handlesOk_fields. Qed.
End Arming.

Section Steps.
Implicit Types (s : VEnv) (v : ViewId) (view : View) (r : Rendering).

Lemma bind_state {S A B} (m : Js S A) (k : A -> Js S B) (s : S) :
  ((let* x := m in k x) s).2 = (m s).2
  \/ exists a, m s = (Returned a, (m s).2) /\ ((let* x := m in k x) s).2 = (k a (m s).2).2.
Proof.
  unfold bind. destruct (m s) as [[a|e] s']; simpl; [right|left]; eauto.
Qed.

Lemma View_scheduleRender_missing v s :
  views (user s) !! v = None -> View_scheduleRender v s = (Thrown TypeError, s).
Proof.
  intros Hv. unfold View_scheduleRender, throwIfDisposed, bind, getView.
  by rewrite Hv.
Qed.

Lemma View_scheduleRender_result v view s :
  views (user s) !! v = Some view ->
  isDisposed view = false ->
  _renderAnimationFrame view = None ->
  let r := {| rid := nextRid (user s); this := v; renderingWindow := domNodeWindow view |} in
  let s1 := (newRendering v (domNodeWindow view) s).2 in
  let s2 := (scheduleCoordinatedRendering viewObj r s1).2 in
  View_scheduleRender v s =
    (Returned tt,
     withUser (<[v := set_renderAnimationFrame (Some (RenderingDisposable r)) view]>
                 (views (user s)))
              (trace (user s)) s2).
Proof.
  intros Hv Hlive Hf r s1 s2. unfold View_scheduleRender.
  erewrite bind_returned by (eapply throwIfDisposed_live; eauto).
  erewrite bind_returned by (eapply getView_Some; eauto).
  rewrite Hf.
  erewrite bind_returned by reflexivity.
  change (set_user _ s) with s1.
  rewrite (bind_returned _ _ s1 (RenderingDisposable r) s2).
  2:{ subst s2. rewrite !scheduleCoordinatedRendering_result. reflexivity. }
  assert (views (user s2) = views (user s) /\ trace (user s2) = trace (user s)) as [Ev Et].
  { subst s2. rewrite scheduleCoordinatedRendering_result. simpl.
    by case_match. }
  erewrite updateView_Some by (rewrite Ev; exact Hv).
  by rewrite Ev, Et.
Qed.

Lemma armingOk_schedule v view s :
  views (user s) !! v = Some view ->
  isDisposed view = false ->
  _renderAnimationFrame view = None ->
  handlesOk s -> armingOk s ->
  handlesOk (View_scheduleRender v s).2 /\ armingOk (View_scheduleRender v s).2.
Proof.
  intros Hv Hlive Hf Hh [Hnd Hrid Hpend Harm Hdisp].
  pose proof (View_scheduleRender_result v view s Hv Hlive Hf) as E. cbv zeta in E.
  set (r := {| rid := nextRid (user s); this := v; renderingWindow := domNodeWindow view |}) in *.
  set (s1 := (newRendering v (domNodeWindow view) s).2) in *.
  set (s2 := (scheduleCoordinatedRendering viewObj r s1).2) in *.
  rewrite E. cbn [snd]. clear E.
  assert (_coordinatedRenderings s2 = _coordinatedRenderings s ++ [r]
          /\ nextRid (user s2) = S (nextRid (user s))) as [Ep En].
  { subst s2. rewrite scheduleCoordinatedRendering_result. simpl.
    by case_match. }
  assert (handlesOk s2) as Hh2.
  { apply handlesOk_schedule. by eapply (handlesOk_fields s). }
  clearbody s2. clear s1.
  split.
  - by eapply (handlesOk_fields s2).
  - assert (r ∉ _coordinatedRenderings s) as Hfresh.
    { intros Hr. apply Hrid in Hr. simpl in Hr. lia. }
    assert (forall r', r' ∈ _coordinatedRenderings s -> this r' <> v) as Hother.
    { intros r' Hr' E. destruct (Hpend r' Hr') as (view' & Hv' & Hf').
      rewrite E in Hv'. congruence. }
    split; simpl; rewrite ?Ep, ?En.
    + apply NoDup_app. split; [done|]. split; [|apply NoDup_singleton].
      intros x Hx Hx'%list_elem_of_singleton. by subst x.
    + intros r' [Hr'|Hr'%list_elem_of_singleton]%elem_of_app.
      * apply Hrid in Hr'. lia.
      * subst r'. simpl. lia.
    + intros r' [Hr'|Hr'%list_elem_of_singleton]%elem_of_app; [|subst r'].
      * rewrite lookup_insert_ne by (apply not_eq_sym; by apply Hother). by apply Hpend.
      * simpl. rewrite lookup_insert_eq. eauto.
    + intros v' view' r'. destruct (decide (v' = v)) as [->|Hne].
      * rewrite lookup_insert_eq. intros [= <-]. simpl. intros [= <-].
        split; [|done]. apply elem_of_app. right. by apply list_elem_of_singleton.
      * rewrite lookup_insert_ne by done. intros Hv' Hf'.
        destruct (Harm v' view' r' Hv' Hf') as [? ?]. split; [|done].
        apply elem_of_app. by left.
    + intros v' view'. destruct (decide (v' = v)) as [->|Hne].
      * rewrite lookup_insert_eq. intros [= <-]. simpl. congruence.
      * rewrite lookup_insert_ne by done. apply Hdisp.
Qed.

Lemma systemOk_scheduleRender v s :
  handlesOk s -> armingOk s ->
  handlesOk (View_scheduleRender v s).2 /\ armingOk (View_scheduleRender v s).2.
Proof.
  intros Hh Ha. destruct (views (user s) !! v) as [view|] eqn:Hv.
  - destruct (isDisposed view) eqn:Hd.
    + unfold View_scheduleRender. by erewrite wrapper_disposed.
    + destruct (_renderAnimationFrame view) as [d|] eqn:Hf.
      * by erewrite View_scheduleRender_pending.
      * by eapply armingOk_schedule.
  - by rewrite View_scheduleRender_missing.
Qed.

Lemma View_dispose_missing v s :
  views (user s) !! v = None -> View_dispose v s = (Thrown TypeError, s).
Proof.
  intros Hv. unfold View_dispose, bind, getView. by rewrite Hv.
Qed.

Lemma View_dispose_idle v view s :
  views (user s) !! v = Some view ->
  _renderAnimationFrame view = None ->
  View_dispose v s =
    (Returned tt, withUser (<[v := set_isDisposed true view]> (views (user s)))
                           (trace (user s)) s).
Proof.
  intros Hv Hf. unfold View_dispose.
  erewrite bind_returned by (eapply getView_Some; eauto).
  rewrite Hf. erewrite bind_returned by reflexivity.
  by erewrite updateView_Some.
Qed.

Lemma View_dispose_armed v view r s :
  views (user s) !! v = Some view ->
  _renderAnimationFrame view = Some (RenderingDisposable r) ->
  let s1 := (dispose (RenderingDisposable r) s).2 in
  View_dispose v s =
    (Returned tt,
     withUser (<[v := set_isDisposed true (set_renderAnimationFrame None view)]>
                 (views (user s)))
              (trace (user s)) s1).
Proof.
  intros Hv Hf s1. unfold View_dispose.
  erewrite bind_returned by (eapply getView_Some; eauto).
  rewrite Hf.
  assert (user s1 = user s) as Eu.
  { subst s1. rewrite dispose_result. simpl.
    destruct (indexOf r (_coordinatedRenderings s)); [|done].
    by case_decide. }
  assert (dispose (RenderingDisposable r) s = (Returned tt, s1)) as Ed.
  { subst s1. by rewrite dispose_result. }
  erewrite bind_returned.
  2:{ erewrite bind_returned by exact Ed.
      apply updateView_Some. rewrite Eu. exact Hv. }
  erewrite updateView_Some.
  2:{ simpl. by rewrite lookup_insert_eq. }
  simpl. rewrite Eu. unfold withUser. simpl. by rewrite insert_insert_eq.
Qed.

Lemma systemOk_dispose v s :
  handlesOk s -> armingOk s ->
  handlesOk (View_dispose v s).2 /\ armingOk (View_dispose v s).2.
Proof.
  intros Hh Ha. destruct (views (user s) !! v) as [view|] eqn:Hv.
  2:{ by rewrite View_dispose_missing. }
  destruct Ha as [Hnd Hrid Hpend Harm Hdisp].
  destruct (_renderAnimationFrame view) as [[r]|] eqn:Hf.
  - pose proof (View_dispose_armed v view r s Hv Hf) as E. cbv zeta in E.
    set (s1 := (dispose (RenderingDisposable r) s).2) in *.
    rewrite E. cbn [snd]. clear E.
    destruct (Harm v view r Hv Hf) as [Hr Hthis].
    assert (exists l1 l2, _coordinatedRenderings s = l1 ++ r :: l2
              /\ _coordinatedRenderings s1 = l1 ++ l2
              /\ user s1 = user s) as (l1 & l2 & El & El' & Eu).
    { subst s1. rewrite dispose_result. simpl.
      destruct (indexOf r (_coordinatedRenderings s)) as [i|] eqn:Ei.
      - destruct (indexOf_Some _ _ _ Ei) as (l1 & l2 & El & _ & Hsp).
        exists l1, l2. split; [done|]. by case_decide.
      - by apply indexOf_None in Ei. }
    assert (handlesOk s1) as Hh1 by by apply handlesOk_dispose.
    clearbody s1.
    split.
    + by eapply (handlesOk_fields s1).
    + rewrite El in Hnd. apply NoDup_app in Hnd as (Hnd1 & Hnd12 & Hnd2).
      apply NoDup_cons in Hnd2 as [Hr2 Hnd2].
      assert (forall r', r' ∈ l1 ++ l2 -> r' ∈ _coordinatedRenderings s /\ r' <> r)
        as Hsub.
      { intros r' Hr'. rewrite El. split.
        - apply elem_of_app in Hr' as [?|?]; apply elem_of_app; [by left|right].
          by apply elem_of_cons; right.
        - intros ->. apply elem_of_app in Hr' as [Hr'|Hr']; [|done].
          apply (Hnd12 r Hr'). by apply elem_of_cons; left. }
      assert (forall r', r' ∈ l1 ++ l2 -> this r' <> v) as Hother.
      { intros r' Hr' E. destruct (Hsub r' Hr') as [Hin Hne].
        destruct (Hpend r' Hin) as (view' & Hv' & Hf').
        rewrite E in Hv'. congruence. }
      split; simpl; rewrite ?El', ?Eu.
      * apply NoDup_app. split; [done|]. split; [|done].
        intros x Hx1 Hx2. apply (Hnd12 x Hx1). by apply elem_of_cons; right.
      * intros r' Hr'. apply Hrid. by apply Hsub.
      * intros r' Hr'.
        rewrite lookup_insert_ne by (apply not_eq_sym; by apply Hother).
        apply Hpend. by apply Hsub.
      * intros v' view' r'. destruct (decide (v' = v)) as [->|Hne].
        -- rewrite lookup_insert_eq. by intros [= <-].
        -- rewrite lookup_insert_ne by done. intros Hv' Hf'.
           destruct (Harm v' view' r' Hv' Hf') as [Hin Ht]. split; [|done].
           assert (r' <> r) as Hner by (intros ->; congruence).
           rewrite El in Hin.
           apply elem_of_app in Hin as [?|Hin]; apply elem_of_app; [by left|right].
           apply elem_of_cons in Hin as [?|?]; done.
      * intros v' view'. destruct (decide (v' = v)) as [->|Hne].
        -- rewrite lookup_insert_eq. by intros [= <-].
        -- rewrite lookup_insert_ne by done. apply Hdisp.
  - rewrite (View_dispose_idle v view s Hv Hf). simpl.
    split; [by eapply (handlesOk_fields s)|].
    assert (forall r', r' ∈ _coordinatedRenderings s -> this r' <> v) as Hother.
    { intros r' Hr' E. destruct (Hpend r' Hr') as (view' & Hv' & Hf').
      rewrite E in Hv'. congruence. }
    split; simpl; try done.
    + intros r' Hr'.
      rewrite lookup_insert_ne by (apply not_eq_sym; by apply Hother).
      by apply Hpend.
    + intros v' view' r'. destruct (decide (v' = v)) as [->|Hne].
      * rewrite lookup_insert_eq. intros [= <-]. simpl. congruence.
      * rewrite lookup_insert_ne by done. apply Harm.
    + intros v' view'. destruct (decide (v' = v)) as [->|Hne].
      * rewrite lookup_insert_eq. by intros [= <-].
      * rewrite lookup_insert_ne by done. apply Hdisp.
Qed.

Lemma staysDisposed_refl s : staysDisposed s s.
Proof. intros v view Hv Hd. eauto. Qed.

Lemma staysDisposed_trans s1 s2 s3 :
  staysDisposed s1 s2 -> staysDisposed s2 s3 -> staysDisposed s1 s3.
Proof.
  intros H12 H23 v view Hv Hd. destruct (H12 v view Hv Hd) as (view' & Hv' & Hd').
  by apply (H23 v view').
Qed.

Lemma staysDisposed_evolve (P : View -> View -> Prop) s s' :
  (forall a b, P a b -> isDisposed b = isDisposed a) ->
  viewsEvolve P s s' -> staysDisposed s s'.
Proof.
  intros HP [_ Hev] v view Hv Hd. specialize (Hev v). rewrite Hv in Hev.
  inversion Hev as [a b Hab Ea Eb|]; subst. exists b. split; [done|].
  by rewrite (HP _ _ Hab).
Qed.

Lemma apiSafe_ret {A} (a : A) : apiSafe (ret a : Js VEnv A).
Proof. intros s Hs. split; [done|apply staysDisposed_refl]. Qed.

Lemma apiSafe_bind {A B} (m : Js VEnv A) (k : A -> Js VEnv B) :
  apiSafe m -> (forall a, apiSafe (k a)) -> apiSafe (let* x := m in k x).
Proof.
  intros Hm Hk s Hs. destruct (Hm s Hs) as [Hs1 Hd1].
  destruct (bind_state m k s) as [E|(a & _ & E)]; rewrite E; [done|].
  destruct (Hk a _ Hs1) as [Hs2 Hd2]. split; [done|].
  by eapply staysDisposed_trans.
Qed.

Lemma apiSafe_forOf {A} (l : list A) (body : A -> Js VEnv unit) :
  (forall x, apiSafe (body x)) -> apiSafe (forOf l body).
Proof.
  intros Hb. induction l as [|x l IH]; simpl.
  - apply apiSafe_ret.
  - apply apiSafe_bind; [apply Hb|intros _; apply IH].
Qed.

Lemma apiSafe_kept {A} (m : Js VEnv A) :
  respects (viewsEvolve armingKept) m -> apiSafe m.
Proof.
  intros Hm s [Hh Ha]. specialize (Hm s). split.
  - split; [by eapply handlesOk_evolve|by eapply armingOk_evolve].
  - eapply staysDisposed_evolve; [|exact Hm]. by intros a b [? ?].
Qed.

Lemma apiSafe_update v (f : View -> View) :
  keepsArming f -> apiSafe (updateView v f).
Proof.
  intros Hf. apply apiSafe_kept.
  destruct armingKept_preorder as (P1 & P2 & P3).
  destruct (viewsEvolve_respected armingKept keepsArming P1 P2 P3)
    as (H1 & H2 & H3 & H4 & H5).
  intros s. by apply H4.
Qed.

Lemma apiSafe_scheduleRender v : apiSafe (View_scheduleRender v).
Proof.
  intros s [Hh Ha]. split; [by apply systemOk_scheduleRender|].
  destruct (views (user s) !! v) as [view|] eqn:Hv.
  - destruct (isDisposed view) eqn:Hd.
    + unfold View_scheduleRender. erewrite wrapper_disposed by done.
      apply staysDisposed_refl.
    + destruct (_renderAnimationFrame view) as [d|] eqn:Hf.
      * erewrite View_scheduleRender_pending by done. apply staysDisposed_refl.
      * pose proof (View_scheduleRender_result v view s Hv Hd Hf) as E.
        cbv zeta in E. rewrite E. cbn [snd].
        intros v' view' Hv' Hd'. simpl.
        assert (v' <> v) as Hne by (intros ->; congruence).
        rewrite lookup_insert_ne by done. eauto.
  - rewrite View_scheduleRender_missing by done. apply staysDisposed_refl.
Qed.

Lemma apiSafe_dispose v : apiSafe (View_dispose v).
Proof.
  intros s [Hh Ha]. split; [by apply systemOk_dispose|].
  destruct (views (user s) !! v) as [view|] eqn:Hv.
  2:{ rewrite View_dispose_missing by done. apply staysDisposed_refl. }
  intros v' view' Hv' Hd'.
  destruct (_renderAnimationFrame view) as [[r]|] eqn:Hf.
  - pose proof (View_dispose_armed v view r s Hv Hf) as E.
    cbv zeta in E. rewrite E. cbn [snd]. simpl.
    destruct (decide (v' = v)) as [->|Hne].
    + rewrite lookup_insert_eq. eauto.
    + rewrite lookup_insert_ne by done. eauto.
  - rewrite (View_dispose_idle v view s Hv Hf). simpl.
    destruct (decide (v' = v)) as [->|Hne].
    + rewrite lookup_insert_eq. eauto.
    + rewrite lookup_insert_ne by done. eauto.
Qed.

Lemma apiSafe_render v now everything : apiSafe (View_render v now everything).
Proof.
  unfold View_render. apply apiSafe_bind.
  - destruct everything; [apply apiSafe_kept, force_keeps_arming|apply apiSafe_ret].
  - intros _. destruct now; [apply apiSafe_kept, flush_keeps_arming|].
    apply apiSafe_scheduleRender.
Qed.

Lemma flag_keepsArming b : keepsArming (set_shouldRecomputeGlyphMarginLanes b).
Proof. by intros view. Qed.

Lemma apiSafe_handleEvents v events : apiSafe (View_handleEvents v events).
Proof.
  unfold View_handleEvents. apply apiSafe_bind; [|intros _; apply apiSafe_scheduleRender].
  apply apiSafe_forOf. intros e. apply apiSafe_bind; [|intros _; apply apiSafe_ret].
  destruct e as [| |affects| |]; try apply apiSafe_ret.
  unfold View_onDecorationsChanged.
  apply apiSafe_bind; [|intros _; apply apiSafe_ret].
  destruct affects; [apply apiSafe_update, flag_keepsArming|apply apiSafe_ret].
Qed.

Lemma apiSafe_call v c : apiSafe (View_call v c).
Proof.
  destruct c as [|now everything| |events| | | |b|b| | |b| |]; simpl.
  - apply apiSafe_scheduleRender.
  - apply apiSafe_render.
  - apply apiSafe_dispose.
  - apply apiSafe_handleEvents.
  - apply apiSafe_bind; [|intros _]; apply apiSafe_scheduleRender.
  - apply apiSafe_scheduleRender.
  - apply apiSafe_scheduleRender.
  - apply apiSafe_bind; [|intros _; apply apiSafe_scheduleRender].
    destruct b; [apply apiSafe_scheduleRender|apply apiSafe_ret].
  - destruct b; [apply apiSafe_scheduleRender|apply apiSafe_ret].
  - apply apiSafe_scheduleRender.
  - apply apiSafe_bind; [apply apiSafe_update, flag_keepsArming|].
    intros _. apply apiSafe_scheduleRender.
  - destruct b; [|apply apiSafe_ret].
    apply apiSafe_bind; [apply apiSafe_update, flag_keepsArming|].
    intros _. apply apiSafe_scheduleRender.
  - apply apiSafe_bind; [apply apiSafe_update, flag_keepsArming|].
    intros _. apply apiSafe_scheduleRender.
  - apply apiSafe_scheduleRender.
Qed.
End Steps.

Section Frames.
Implicit Types (s : VEnv) (v : ViewId) (view : View) (r : Rendering) (w : VWorld).

Lemma fireFrame_idle h w :
  requested (frames (env w)) !! h = None -> fireFrame viewObj h w = (Returned tt, w).
Proof.
  intros Hh. destruct w as [e cs]. simpl in *. unfold fireFrame.
  rewrite (bind_returned _ _ _ (frames e) {| env := e; calls := cs |}) by reflexivity.
  by rewrite Hh.
Qed.

Lemma onRenderScheduled_split w :
  _onRenderScheduled viewObj w =
    (phaseOne (_coordinatedRenderings (env w)) ;;;
     laterPhases (_coordinatedRenderings (env w)))
      {| env := set_renderings [] (env w); calls := calls w |}.
Proof.
  destruct w as [e cs]. unfold _onRenderScheduled.
  rewrite (bind_returned _ _ _ (_coordinatedRenderings e) {| env := e; calls := cs |})
    by reflexivity.
  rewrite (bind_returned _ _ _ tt {| env := set_renderings [] e; calls := cs |})
    by reflexivity.
  reflexivity.
Qed.

Lemma viewsEvolve_cleared_refl s : viewsEvolve armingCleared s s.
Proof.
  destruct armingCleared_preorder as (P1 & P2 & P3).
  by apply (viewsEvolve_respected armingCleared mayDisarm P1 P2 P3).
Qed.

Lemma viewsEvolve_cleared_trans s1 s2 s3 :
  viewsEvolve armingCleared s1 s2 -> viewsEvolve armingCleared s2 s3 ->
  viewsEvolve armingCleared s1 s3.
Proof.
  destruct armingCleared_preorder as (P1 & P2 & P3).
  by apply (viewsEvolve_respected armingCleared mayDisarm P1 P2 P3).
Qed.

Lemma rearmed_evolve l s s' :
  viewsEvolve armingCleared s s' -> rearmed l s -> rearmed l s'.
Proof.
  intros [_ Hv] Hl r view' Hr Hview' Hlive. specialize (Hv (this r)).
  rewrite Hview' in Hv. inversion Hv as [a b [Hd Hf] E1 E2|]; subst.
  symmetry in E1. assert (_renderAnimationFrame a = None) as Ha.
  { apply (Hl r a Hr E1). congruence. }
  destruct Hf as [Hf|Hf]; congruence.
Qed.

Lemma prepareRenderText_rearms r s :
  rearmed [r] (safeInvokeNoArg (prepareRenderText (viewObj r)) s).2.
Proof.
  intros r' view' Hr'%list_elem_of_singleton Hview' Hlive. subst r'.
  pose proof (proj1 (participant_may_disarm r) s) as [_ Hev].
  specialize (Hev (this r)). rewrite Hview' in Hev.
  inversion Hev as [view0 b [Hd0 _] E1 E2|]; subst. symmetry in E1.
  assert (isDisposed view0 = false) as Hlive0 by congruence.
  revert Hview'. unfold safeInvokeNoArg, prepareRenderText, viewObj.
  rewrite (bind_returned _ _ s tt s) by (by eapply throwIfDisposed_live).
  unfold tryFinally.
  set (body := rendering_prepareRenderText (_createCoordinatedRendering (this r))).
  assert (respects (viewsEvolve armingCleared) body) as Hbody.
  { destruct armingCleared_preorder as (P1 & P2 & P3).
    destruct (viewsEvolve_respected armingCleared mayDisarm P1 P2 P3)
      as (H1 & H2 & H3 & H4 & H5).
    subst body.
    respects_auto ltac:(first
      [ exact I
      | intros ?; split; [reflexivity|first [left; reflexivity|right; reflexivity]] ]). }
  specialize (Hbody s). destruct (body s) as [o s1]. simpl in Hbody.
  destruct Hbody as [_ Hv1]. specialize (Hv1 (this r)). rewrite E1 in Hv1.
  inversion Hv1 as [a view1 _ E3 E4|]; subst. symmetry in E4.
  rewrite (updateView_Some _ _ _ _ E4).
  destruct o as [a'|e]; simpl; rewrite lookup_insert_eq; by intros [= <-].
Qed.

Lemma phaseOne_rearms l w :
  exists e' cs,
    phaseOne l w = (Returned tt, {| env := e'; calls := cs |})
    /\ viewsEvolve armingCleared (env w) e'
    /\ rearmed l e'.
Proof.
  revert w. induction l as [|r l IH]; intros w.
  - exists (env w), (calls w). destruct w as [e cs]. simpl.
    split; [done|]. split; [apply viewsEvolve_cleared_refl|].
    by intros r view ?%elem_of_nil.
  - destruct (safeInvokeNoArg_returns (prepareRenderText (viewObj r)) (env w))
      as (o & s' & E).
    assert (viewsEvolve armingCleared (env w) s') as Hev.
    { pose proof (proj1 (participant_may_disarm r) (env w)) as H. by rewrite E in H. }
    assert (rearmed [r] s') as Hr.
    { pose proof (prepareRenderText_rearms r (env w)) as H. by rewrite E in H. }
    set (w1 := {| env := s'; calls := calls w ++ [CallPrepareRenderText r (completed o)] |}).
    destruct (IH w1) as (e' & cs & E' & Hev' & Hl).
    exists e', cs. split; [|split].
    + change (phaseOne (r :: l) w) with
        (((let* res := inEnv (safeInvokeNoArg (prepareRenderText (viewObj r))) in
           logCall (CallPrepareRenderText r (completed res))) ;;; phaseOne l) w).
      rewrite (bind_returned _ _ w tt w1); [exact E'|].
      rewrite (bind_returned _ _ w o {| env := s'; calls := calls w |}); [done|].
      unfold inEnv, zoom. by rewrite E.
    + by eapply viewsEvolve_cleared_trans.
    + intros r' view Hr' Hview Hlive. apply elem_of_cons in Hr' as [->|Hr'].
      * apply (rearmed_evolve [r] s' e' Hev' Hr r view); [|done..].
        by apply list_elem_of_singleton.
      * by apply (Hl r' view).
Qed.

Lemma laterPhases_respects (Rel : VEnv -> VEnv -> Prop) e0 l :
  (forall s1 s2 s3, Rel s1 s2 -> Rel s2 s3 -> Rel s1 s3) ->
  (forall r, respects Rel (safeInvokeNoArg (renderText (viewObj r)))) ->
  (forall r vps ctx, respects Rel (safeInvokeNoArg (prepareRender (viewObj r) vps ctx))) ->
  (forall r vps ctx, respects Rel (safeInvokeNoArg (render (viewObj r) vps ctx))) ->
  logs (Rel e0) (laterPhases l) (fun _ _ => True).
Proof.
  intros Htrans H2 H3 H4.
  assert (forall {T} (f : Js VEnv T),
            respects Rel (safeInvokeNoArg f) ->
            logs (Rel e0)
                 (inEnv (safeInvokeNoArg f) : Js VWorld (option T))
                 (fun o cs => cs = [] /\ True)) as Hsafe.
  { intros T f Hf. apply (logs_safeInvoke _ f (fun _ => True)).
    intros s Hs. split; [|done]. eapply Htrans; [exact Hs|apply Hf]. }
  unfold laterPhases. eapply logs_weaken; [|done].
  eapply logs_bind.
  - apply (logs_forCollect _ _ (fun _ _ => True) CallRenderText).
    intros r. eapply logs_weaken.
    + eapply logs_bind; [apply Hsafe, H2|].
      intros res. eapply logs_bind; [apply logs_logCall|].
      intros ?. apply (logs_ret _ _ (fun d cs => d = mjoin res /\ cs = [])). done.
    + simpl. intros d cs (res & cs1 & cs2 & -> & [-> _] & [] & cs3 & cs4 & -> & -> & -> & ->).
      done.
  - intros datas. eapply logs_bind.
    + apply (logs_forOf _ _ (fun _ _ => True)).
      intros [r [[vps ctx]|]]; simpl.
      * eapply logs_weaken; [|done].
        eapply logs_bind; [apply Hsafe, H3|].
        intros res. apply logs_logCall.
      * by apply logs_ret.
    + intros ?. apply (logs_forOf _ _ (fun _ _ => True)).
      intros [r [[vps ctx]|]]; simpl.
      * eapply logs_weaken; [|done].
        eapply logs_bind; [apply Hsafe, H4|].
        intros res. apply logs_logCall.
      * by apply logs_ret.
Qed.

Lemma laterPhases_evolve e0 l :
  logs (viewsEvolve armingCleared e0) (laterPhases l) (fun _ _ => True).
Proof.
  apply laterPhases_respects.
  - apply viewsEvolve_cleared_trans.
  - intros r. apply participant_may_disarm.
  - intros r. apply participant_may_disarm.
  - intros r. apply participant_may_disarm.
Qed.

Lemma fireFrame_result h (win : CodeWindow) w :
  requested (frames (env w)) !! h = Some win ->
  armingOk (env w) ->
  exists e' cs,
    fireFrame viewObj h w = (Returned tt, {| env := e'; calls := cs |})
    /\ _coordinatedRenderings e' = []
    /\ _animationFrameRunners e' = delete win (_animationFrameRunners (env w))
    /\ frames e' = cancelFrame h (frames (env w))
    /\ nextRid (user e') = nextRid (user (env w))
    /\ forall v,
         option_Forall2
           (fun a b => isDisposed b = isDisposed a /\ _renderAnimationFrame b = None)
           (views (user (env w)) !! v) (views (user e') !! v).
Proof.
  intros Hh [Hnd Hrid Hpend Harm Hdisp].
  rewrite (fireFrame_runs_callback _ _ _ _ Hh), onRenderScheduled_split. simpl.
  set (batch := _coordinatedRenderings (env w)).
  set (w0 := {| env := _; calls := _ |}).
  destruct (phaseOne_rearms batch w0) as (e1 & cs1 & E1 & Hev1 & Hre1).
  rewrite (bind_returned _ _ _ _ _ E1).
  destruct (laterPhases_evolve e1 batch {| env := e1; calls := cs1 |}
              (viewsEvolve_cleared_refl e1))
    as ([] & e' & cs & E2 & Hev2 & _).
  exists e', (cs1 ++ cs). split; [exact E2|].
  pose proof (rearmed_evolve _ _ _ Hev2 Hre1) as Hre.
  pose proof (viewsEvolve_cleared_trans _ _ _ Hev1 Hev2) as [(C1 & C2 & C3 & C4) Hv].
  repeat split; try done.
  intros v. specialize (Hv v). simpl in Hv.
  inversion Hv as [a b [Hd Hf] Ea Eb|]; constructor. symmetry in Ea, Eb.
  split; [done|].
  destruct (_renderAnimationFrame a) as [[r]|] eqn:Ha; [|by destruct Hf].
  destruct (Harm v a r Ea Ha) as [Hr <-].
  apply (Hre r b Hr Eb). rewrite Hd.
  destruct (isDisposed a) eqn:Hda; [|done].
  rewrite (Hdisp _ a Ea Hda) in Ha. done.
Qed.

Lemma systemOk_fireFrame h w :
  handlesOk (env w) -> armingOk (env w) ->
  handlesOk (env (fireFrame viewObj h w).2) /\ armingOk (env (fireFrame viewObj h w).2).
Proof.
  intros Hh Ha. destruct (requested (frames (env w)) !! h) as [win|] eqn:Eh.
  - destruct (fireFrame_result h win w Eh Ha)
      as (e' & cs & -> & E1 & E2 & E3 & E4 & Hv). simpl.
    split; [by eapply (handlesOk_fired (env w))|].
    split; rewrite ?E1.
    + apply NoDup_nil_2.
    + by intros r ?%elem_of_nil.
    + by intros r ?%elem_of_nil.
    + intros v view r Hview Hf. specialize (Hv v). rewrite Hview in Hv.
      inversion Hv as [a b [_ Hb] Ea Eb|]; subst. congruence.
    + intros v view Hview _. specialize (Hv v). rewrite Hview in Hv.
      by inversion Hv as [a b [_ Hb] Ea Eb|]; subst.
  - by rewrite fireFrame_idle.
Qed.

Lemma systemOk_start (vs : gmap ViewId View) :
  handlesOk (constructedEnv vs) /\ armingOk (constructedEnv vs).
Proof.
  split; split; simpl.
  - intros h win. by rewrite !lookup_empty.
  - intros h win. by rewrite lookup_empty.
  - by intros r ?%elem_of_nil.
  - apply NoDup_nil_2.
  - by intros r ?%elem_of_nil.
  - by intros r ?%elem_of_nil.
  - intros v view r. rewrite lookup_fmap.
    destruct (vs !! v); simpl; [|done]. by intros [= <-].
  - intros v view. rewrite lookup_fmap.
    destruct (vs !! v); simpl; [|done]. by intros [= <-].
Qed.

Lemma stepView_call v c w :
  stepView (DoCall v c) w = {| env := (View_call v c (env w)).2; calls := calls w |}.
Proof.
  destruct w as [e cs]. simpl. unfold inEnv, zoom. simpl.
  by destruct (View_call v c e).
Qed.

Lemma systemOk_step op w :
  handlesOk (env w) /\ armingOk (env w) ->
  handlesOk (env (stepView op w)) /\ armingOk (env (stepView op w)).
Proof.
  intros Hs. destruct op as [v c|h].
  - rewrite stepView_call. simpl. by apply (apiSafe_call v c (env w)).
  - destruct Hs. by apply systemOk_fireFrame.
Qed.

Lemma systemOk_run ops w :
  handlesOk (env w) /\ armingOk (env w) ->
  handlesOk (env (runViews ops w)) /\ armingOk (env (runViews ops w)).
Proof.
  revert w. unfold runViews.
  induction ops as [|op ops IH]; intros w Hw; simpl; [done|].
  apply IH. by apply systemOk_step.
Qed.

Lemma systemOk_reachable vs ops :
  handlesOk (env (runViews ops (startWorld vs)))
  /\ armingOk (env (runViews ops (startWorld vs))).
Proof. apply systemOk_run, systemOk_start. Qed.
End Frames.

Section System.
Implicit Types (s : VEnv) (v : ViewId) (view : View) (r : Rendering) (w : VWorld).

Lemma stepView_calls op w :
  exists cs,
    calls (stepView op w) = calls w ++ cs
    /\ forall c, c ∈ cs ->
         callee c ∈ _coordinatedRenderings (env w).
Proof.
  destruct op as [v c|h].
  - rewrite stepView_call. exists []. simpl. rewrite app_nil_r.
    split; [done|by intros ? ?%elem_of_nil].
  - destruct (requested (frames (env w)) !! h) as [win|] eqn:Eh.
    + destruct (fireFrame_blocks viewObj w h win Eh)
        as (e' & L1 & datas & css3 & css4 & E & H1 & H2 & H3 & H4).
      simpl. rewrite E. simpl. eexists. split; [reflexivity|].
      by apply (blocks_facts _ _ _ _ _ H1 H2 H3 H4).
    + simpl. rewrite fireFrame_idle by done. exists [].
      rewrite app_nil_r. split; [done|by intros c ?%elem_of_nil].
Qed.

Lemma disposed_stays op w :
  systemOk (env w) -> staysDisposed (env w) (env (stepView op w)).
Proof.
  intros Hs. destruct op as [v c|h].
  - rewrite stepView_call. simpl. by apply (apiSafe_call v c (env w)).
  - simpl. destruct (requested (frames (env w)) !! h) as [win|] eqn:Eh.
    + destruct (fireFrame_result h win w Eh (proj2 Hs))
        as (e' & cs & -> & _ & _ & _ & _ & Hviews). simpl.
      intros v view Hv Hd. specialize (Hviews v). rewrite Hv in Hviews.
      inversion Hviews as [a b [Hab _] Ea Eb|]; subst. exists b. split; [done|].
      congruence.
    + rewrite fireFrame_idle by done. apply staysDisposed_refl.
Qed.
End System.

(** The states [runViews ops (startWorld vs)] are those the system reaches
    from freshly constructed views by client calls and frames, one at a
    time: a collaborator of a view (a view part, the text subsystem, a
    widget store) does not call back into a view or into the coordinator
    while a call or a frame runs. *)
Section Reachable.
Implicit Types (s : VEnv) (v : ViewId) (view : View) (r : Rendering) (w : VWorld).

(** X1: in every reachable state, each pending rendering has exactly one
    outstanding frame request for the window it was registered with. *)
Theorem pending_rendering_has_one_frame (vs : gmap ViewId View) ops r :
  let s := env (runViews ops (startWorld vs)) in
  r ∈ _coordinatedRenderings s ->
  exists h,
    requested (frames s) !! h = Some (renderingWindow r)
    /\ forall h', requested (frames s) !! h' = Some (renderingWindow r) -> h' = h.
Proof.
  intros s Hr. destruct (systemOk_reachable vs ops) as [[Hbij _ Hcov] _].
  fold s in Hbij, Hcov. destruct (Hcov r Hr) as [h Hh].
  exists h. split; [by apply Hbij|].
  intros h' Hh'%Hbij. congruence.
Qed.

(** X2: in every reachable state, no two pending renderings belong to the
    same view. *)
Theorem one_pending_rendering_per_view (vs : gmap ViewId View) ops :
  NoDup (this <$> _coordinatedRenderings (env (runViews ops (startWorld vs)))).
Proof.
  destruct (systemOk_reachable vs ops) as [_ [Hnd _ Hpend _ _]].
  apply NoDup_fmap_2_strong; [|done].
  intros r1 r2 H1 H2 E.
  destruct (Hpend r1 H1) as (view1 & Hv1 & Hf1).
  destruct (Hpend r2 H2) as (view2 & Hv2 & Hf2).
  rewrite E in Hv1. congruence.
Qed.

(** X3: in every reachable state, a pending rendering belongs to a view
    that is not disposed and holds the cancellation handle of exactly this
    rendering. *)
Theorem pending_rendering_belongs_to_live_view (vs : gmap ViewId View) ops r :
  let s := env (runViews ops (startWorld vs)) in
  r ∈ _coordinatedRenderings s ->
  exists view,
    views (user s) !! this r = Some view
    /\ isDisposed view = false
    /\ _renderAnimationFrame view = Some (RenderingDisposable r).
Proof.
  intros s Hr. destruct (systemOk_reachable vs ops) as [_ [_ _ Hpend _ Hdisp]].
  fold s in Hpend, Hdisp. destruct (Hpend r Hr) as (view & Hv & Hf).
  exists view. split; [done|]. split; [|done].
  destruct (isDisposed view) eqn:Hd; [|done].
  rewrite (Hdisp _ _ Hv Hd) in Hf. done.
Qed.

(** X4: in every reachable state, a view that holds a cancellation handle
    is registered with the coordinator: the handle's rendering is pending
    and is the view's own. *)
Theorem armed_view_is_pending (vs : gmap ViewId View) ops v view d :
  let s := env (runViews ops (startWorld vs)) in
  views (user s) !! v = Some view ->
  _renderAnimationFrame view = Some d ->
  exists r, d = RenderingDisposable r /\ r ∈ _coordinatedRenderings s /\ this r = v.
Proof.
  intros s Hv Hf. destruct (systemOk_reachable vs ops) as [_ [_ _ _ Harm _]].
  fold s in Harm. destruct d as [r]. exists r. split; [done|]. by apply (Harm v view).
Qed.

(** X5: a frame that fires in a reachable state returns normally, consumes
    its request and forgets the runner of its window, and leaves nothing
    pending and no view holding a cancellation handle: every view can
    schedule again. *)
Theorem frame_drains_and_rearms (vs : gmap ViewId View) ops h (win : CodeWindow) :
  let w := runViews ops (startWorld vs) in
  requested (frames (env w)) !! h = Some win ->
  let res := fireFrame viewObj h w in
  res.1 = Returned tt
  /\ _coordinatedRenderings (env res.2) = []
  /\ requested (frames (env res.2)) = delete h (requested (frames (env w)))
  /\ _animationFrameRunners (env res.2) !! win = None
  /\ forall v view,
       views (user (env res.2)) !! v = Some view -> _renderAnimationFrame view = None.
Proof.
  intros w Hh res. destruct (systemOk_reachable vs ops) as [_ Ha]. fold w in Ha.
  destruct (fireFrame_result h win w Hh Ha) as (e' & cs & E & E1 & E2 & E3 & _ & Hv).
  subst res. rewrite E. simpl. split; [done|]. split; [done|].
  split; [by rewrite E3|]. split; [by rewrite E2, lookup_delete_eq|].
  intros v view Hview. specialize (Hv v). rewrite Hview in Hv.
  by inversion Hv as [a b [_ Hb] Ea Eb|]; subst.
Qed.

(** X6: in a reachable state, scheduleRender on a view that is not disposed
    is never lost: afterwards the view has a pending rendering with an
    outstanding frame request for its window, and whichever frame fires
    next, of whatever window, calls its prepareRenderText. *)
Theorem scheduled_render_reaches_next_frame (vs : gmap ViewId View) ops v view :
  let s := env (runViews ops (startWorld vs)) in
  views (user s) !! v = Some view ->
  isDisposed view = false ->
  let s' := (View_scheduleRender v s).2 in
  exists r,
    r ∈ _coordinatedRenderings s' /\ this r = v
    /\ (exists h, requested (frames s') !! h = Some (renderingWindow r))
    /\ forall h (win : CodeWindow),
         requested (frames s') !! h = Some win ->
         exists ok,
           CallPrepareRenderText r ok
             ∈ calls (fireFrame viewObj h {| env := s'; calls := [] |}).2.
Proof.
  intros s Hv Hlive s'.
  destruct (systemOk_reachable vs ops) as [Hh Ha]. fold s in Hh, Ha.
  destruct (systemOk_scheduleRender v s Hh Ha) as [[Hbij _ Hcov] [_ _ _ Harm _]].
  fold s' in Hbij, Hcov, Harm.
  assert (exists view' r, views (user s') !! v = Some view'
            /\ _renderAnimationFrame view' = Some (RenderingDisposable r))
    as (view' & r & Hv' & Hf').
  { subst s'. destruct (_renderAnimationFrame view) as [[r]|] eqn:Hf.
    - erewrite View_scheduleRender_pending by done. eauto.
    - pose proof (View_scheduleRender_result v view s Hv Hlive Hf) as E.
      cbv zeta in E. rewrite E. cbn [snd]. simpl.
      rewrite lookup_insert_eq. eauto. }
  destruct (Harm v view' r Hv' Hf') as [Hr Hthis].
  exists r. split; [done|]. split; [done|]. split.
  { destruct (Hcov r Hr) as [h Hrun]. exists h. by apply Hbij. }
  intros h win Hreq.
  destruct (fireFrame_blocks viewObj {| env := s'; calls := [] |} h win Hreq)
    as (e' & L1 & datas & css3 & css4 & -> & H1 & _).
  simpl in *. apply list_elem_of_lookup in Hr as [i Hi].
  destruct (Forall2_lookup_l _ _ _ _ _ H1 Hi) as (c & Hc & ok & ->).
  exists ok. apply elem_of_app. left. by eapply list_elem_of_lookup_2.
Qed.

Lemma disposed_view_not_called ops w v :
  handlesOk (env w) /\ armingOk (env w) ->
  (exists view, views (user (env w)) !! v = Some view /\ isDisposed view = true) ->
  exists cs,
    calls (runViews ops w) = calls w ++ cs
    /\ forall c, c ∈ cs -> this (callee c) <> v.
Proof.
  revert w. unfold runViews.
  induction ops as [|op ops IH]; intros w Hok (view & Hv & Hd); simpl.
  { exists []. rewrite app_nil_r. split; [done|by intros c ?%elem_of_nil]. }
  destruct (stepView_calls op w) as (cs1 & E1 & Hcs1).
  destruct (IH (stepView op w)) as (cs2 & E2 & Hcs2).
  { by apply systemOk_step. }
  { by apply (disposed_stays op w Hok v view). }
  exists (cs1 ++ cs2). split.
  { rewrite E2, E1. by rewrite app_assoc. }
  intros c [Hc|Hc]%elem_of_app; [|by apply Hcs2].
  intros E. destruct Hok as [_ [_ _ Hpend _ Hdisp]].
  destruct (Hpend _ (Hcs1 c Hc)) as (view' & Hv' & Hf').
  rewrite E, Hv in Hv'. injection Hv' as <-.
  rewrite (Hdisp _ _ Hv Hd) in Hf'. done.
Qed.

(** X7: once a view is disposed, the coordinator never calls a rendering of
    it again, whatever clients call and whichever frames fire
    afterwards. *)
Theorem disposed_view_gets_no_frame_calls (vs : gmap ViewId View) ops1 ops2 v view :
  let w := runViews ops1 (startWorld vs) in
  views (user (env w)) !! v = Some view ->
  isDisposed view = true ->
  exists cs,
    calls (runViews ops2 w) = calls w ++ cs
    /\ forall c, c ∈ cs -> this (callee c) <> v.
Proof.
  intros w Hv Hd. apply disposed_view_not_called; [|by eauto].
  apply systemOk_reachable.
Qed.
End Reachable.

(** * The rendering of one view *)

Section OneView.
Implicit Types (s : VEnv) (v : ViewId) (view : View) (ps : list nat).

Lemma safeInvoke_returned {T} (f : Js VEnv T) s a s' :
  f s = (Returned a, s') -> safeInvokeNoArg f s = (Returned (Some a), s').
Proof. intros E. unfold safeInvokeNoArg. by rewrite E. Qed.

Lemma safeInvoke_thrown {T} (f : Js VEnv T) s e s' :
  f s = (Thrown e, s') ->
  safeInvokeNoArg f s = (Returned None, set_errors (unexpectedErrors s' ++ [e]) s').
Proof. intros E. unfold safeInvokeNoArg. by rewrite E. Qed.

Lemma acknowledge_lookup ps (parts : list ViewPart) i part :
  parts !! i = Some part ->
  acknowledge ps parts !! i
  = Some (if decide (i ∈ ps) then set_shouldRender false part else part).
Proof.
  intros Hi. induction ps as [|p ps IH].
  - simpl. rewrite Hi. destruct (decide (i ∈ [])) as [Hin|]; [|done].
    by apply elem_of_nil in Hin.
  - change (acknowledge (p :: ps) parts)
      with (alter (set_shouldRender false) p (acknowledge ps parts)).
    destruct (decide (i = p)) as [->|Hne].
    + rewrite list_lookup_alter_eq, IH. simpl.
      destruct (decide (p ∈ p :: ps)) as [_|Hn]; [|exfalso; apply Hn; by left].
      by destruct (decide (p ∈ ps)).
    + rewrite list_lookup_alter_ne by done. rewrite IH.
      destruct (decide (i ∈ ps)) as [Hin|Hnin];
        destruct (decide (i ∈ p :: ps)) as [Hin'|Hnin']; try done.
      * exfalso. apply Hnin'. by right.
      * by apply elem_of_cons in Hin' as [?|?].
Qed.

Lemma acknowledge_snoc ps p (parts : list ViewPart) :
  acknowledge (ps ++ [p]) parts = acknowledge ps (alter (set_shouldRender false) p parts).
Proof. unfold acknowledge. by rewrite foldr_app. Qed.

(** The render loop over parts whose render completes. *)
Lemma render_loop_result v ctx ps :
  forall s view,
    views (user s) !! v = Some view ->
    (forall q, q ∈ ps ->
       exists part, _viewParts view !! q = Some part /\ onRender part = Completes) ->
    forOf ps (fun viewPart =>
                ViewPart_render v viewPart ctx ;;; ViewPart_onDidRender v viewPart) s
    = (Returned tt,
       withUser (<[v := set_viewParts (acknowledge (reverse ps) (_viewParts view)) view]>
                   (views (user s)))
         (trace (user s) ++ (ps ≫= fun q => [EvPartRender v q; EvPartOnDidRender v q])) s).
Proof.
  induction ps as [|p ps IH]; intros s view Hv Hps.
  - simpl. by rewrite set_viewParts_id, (insert_id _ _ _ Hv), app_nil_r, withUser_id.
  - destruct (Hps p) as (part0 & Hp & Hb); [by left|].
    set (view1 := set_viewParts (alter (set_shouldRender false) p (_viewParts view)) view).
    set (s1 := withUser (<[v := view1]> (views (user s)))
                 (trace (user s) ++ [EvPartRender v p; EvPartOnDidRender v p]) s).
    assert ((ViewPart_render v p ctx ;;; ViewPart_onDidRender v p) s = (Returned tt, s1)) as E1.
    { erewrite bind_returned.
      2: { erewrite ViewPart_render_result; [|exact Hv|exact Hp].
           rewrite Hb. reflexivity. }
      erewrite ViewPart_onDidRender_result; [|exact Hv|exact Hp].
      unfold s1, withUser. simpl. by rewrite <- app_assoc. }
    simpl. rewrite (bind_returned _ _ _ _ _ E1). etransitivity.
    { apply (IH s1 view1).
      - simpl. apply lookup_insert_eq.
      - intros q Hq. destruct (Hps q) as (part & Hq' & Hbq); [by right|]. simpl.
        destruct (decide (q = p)) as [->|Hne].
        + rewrite list_lookup_alter_eq, Hq'. simpl. by eexists.
        + rewrite list_lookup_alter_ne by done. by eexists. }
    unfold s1, withUser. simpl. rewrite insert_insert_eq, <- app_assoc.
    by rewrite reverse_cons, acknowledge_snoc.
Qed.

(** Phase 2 when the text subsystem is clean and some part is dirty. *)
Lemma renderText_parts_only v view s :
  views (user s) !! v = Some view ->
  domNodeIsConnected view = true ->
  lines_shouldRender (_viewLines view) = false ->
  _getViewPartsToRender view <> [] ->
  rendering_renderText (_createCoordinatedRendering v) s
  = (Returned (Some (_getViewPartsToRender view,
                     {| ctxView := v; ctxViewportData := linesViewportData view |})),
     withUser (views (user s))
       (trace (user s) ++ [EvPhase v RenderText; EvSetViewport v (linesViewportData view)]
          ++ (if contentWidgets_shouldRender view then [EvOnBeforeRender v] else [])) s).
Proof.
  intros Hv Hc Hl Hps.
  unfold rendering_renderText, _createCoordinatedRendering.
  rewrite (bind_returned _ _ _ _ _ (emit_result _ _)).
  rewrite (bind_returned _ _ _ view _) by (apply getView_Some; exact Hv).
  rewrite Hc, Hl. cbn [negb andb]. cbv beta iota zeta.
  rewrite bool_decide_false.
  2:{ intros Hlen. by apply nil_length_inv in Hlen. }
  rewrite (bind_returned _ _ _ _ _ (emit_result _ _)).
  destruct (contentWidgets_shouldRender view).
  - rewrite (bind_returned _ _ _ _ _ (emit_result _ _)).
    unfold bind, ret, withUser. simpl. by rewrite <- !app_assoc.
  - unfold bind, ret, withUser. simpl. by rewrite <- !app_assoc.
Qed.

(** Phase 2 when there is nothing to do. *)
Lemma renderText_null v view s :
  views (user s) !! v = Some view ->
  domNodeIsConnected view = false \/ quiescent view ->
  rendering_renderText (_createCoordinatedRendering v) s
  = (Returned None,
     withUser (views (user s)) (trace (user s) ++ [EvPhase v RenderText]) s).
Proof.
  intros Hv Hidle.
  unfold rendering_renderText, _createCoordinatedRendering.
  rewrite (bind_returned _ _ _ _ _ (emit_result _ _)).
  rewrite (bind_returned _ _ _ view _) by (apply getView_Some; exact Hv).
  destruct (domNodeIsConnected view) eqn:Hc; [|done].
  destruct Hidle as [?|[Hl Hps]]; [done|].
  rewrite Hl, Hps. done.
Qed.

Lemma bind_not_null {A B} (m : Js VEnv A) (k : A -> Js VEnv (option B)) s :
  (forall a s', (k a s').1 <> Returned None) ->
  ((let* x := m in k x) s).1 <> Returned None.
Proof. intros Hk. unfold bind. destruct (m s) as [[a|e] s']; [apply Hk|done]. Qed.

(** X8: phase 2 of a view hands back null exactly when the root of the
    view is detached or neither the text subsystem nor any view part
    needs rendering. *)
Theorem renderText_null_iff v view s :
  views (user s) !! v = Some view ->
  (rendering_renderText (_createCoordinatedRendering v) s).1 = Returned None
  <-> domNodeIsConnected view = false \/ quiescent view.
Proof.
  intros Hv. split.
  2:{ intros Hidle. by rewrite (renderText_null v view s Hv Hidle). }
  destruct (domNodeIsConnected view) eqn:Hc; [|by left].
  destruct (lines_shouldRender (_viewLines view)) eqn:Hl.
  - unfold rendering_renderText, _createCoordinatedRendering.
    rewrite (bind_returned _ _ _ _ _ (emit_result _ _)).
    rewrite (bind_returned _ _ _ view _) by (apply getView_Some; exact Hv).
    rewrite Hc, Hl. cbn [negb andb]. cbv beta iota zeta.
    intros E. exfalso. revert E.
    apply bind_not_null. intros _ s1.
    apply bind_not_null. intros _ s2.
    apply bind_not_null. by intros x s3.
  - destruct (decide (_getViewPartsToRender view = [])) as [Hps|Hps].
    + intros _. right. by split.
    + by rewrite (renderText_parts_only v view s Hv Hc Hl Hps).
Qed.

Lemma partsToRenderFrom_increasing parts :
  forall k i j p q,
    i < j ->
    partsToRenderFrom k parts !! i = Some p ->
    partsToRenderFrom k parts !! j = Some q ->
    p < q.
Proof.
  induction parts as [|part parts IH]; intros k i j p q Hij Hi Hj; simpl in *.
  - by rewrite lookup_nil in Hi.
  - destruct (_shouldRender part).
    + destruct j as [|j]; [lia|]. destruct i as [|i]; simpl in *.
      * injection Hi as <-.
        assert (q ∈ partsToRenderFrom (S k) parts) as Hq
          by (by eapply list_elem_of_lookup_2).
        apply elem_of_partsToRenderFrom in Hq as (n & _ & -> & _). lia.
      * apply (IH (S k) i j); [lia|done..].
    + by apply (IH (S k) i j).
Qed.

(** X20: _getViewPartsToRender lists exactly the view parts whose
    shouldRender() is true, each once, in the order of _viewParts. *)
Theorem getViewPartsToRender_lists_dirty_parts_once view :
  (forall p,
     p ∈ _getViewPartsToRender view
     <-> exists part, _viewParts view !! p = Some part /\ _shouldRender part = true)
  /\ (forall i j p q,
        i < j ->
        _getViewPartsToRender view !! i = Some p ->
        _getViewPartsToRender view !! j = Some q ->
        p < q).
Proof.
  split; [apply elem_of_getViewPartsToRender|].
  apply partsToRenderFrom_increasing.
Qed.

(** A synchronous rendering of a view that has nothing to render. *)
Lemma flush_idle_result v view s :
  views (user s) !! v = Some view ->
  domNodeIsConnected view = false \/ quiescent view ->
  _flushAccumulatedAndRenderNow v s
  = (Returned tt,
     withUser (<[v := set_shouldRecomputeGlyphMarginLanes false view]> (views (user s)))
       (trace (user s) ++ [EvPhase v PrepareRenderText]
          ++ (if _shouldRecomputeGlyphMarginLanes view
              then [EvComputeGlyphMarginLanes v] else [])
          ++ [EvRenderStart v; EvPhase v RenderText]) s).
Proof.
  intros Hv Hidle. unfold _flushAccumulatedAndRenderNow. cbv zeta.
  erewrite bind_returned.
  2:{ apply safeInvoke_returned. apply (prepareRenderText_result v view s Hv). }
  erewrite bind_returned.
  2:{ apply safeInvoke_returned.
      apply (renderText_null v (set_shouldRecomputeGlyphMarginLanes false view)).
      - simpl. apply lookup_insert_eq.
      - destruct Hidle as [?|[? ?]]; [left|right; split]; assumption. }
  simpl. unfold ret, withUser, set_user. simpl.
  destruct (_shouldRecomputeGlyphMarginLanes view); simpl; by rewrite <- !app_assoc.
Qed.

Lemma acknowledged_quiescent view :
  lines_shouldRender (_viewLines view) = false ->
  quiescent (set_viewParts
               (acknowledge (reverse (_getViewPartsToRender view)) (_viewParts view)) view).
Proof.
  intros Hl. split; [done|].
  destruct (_getViewPartsToRender (set_viewParts _ view)) as [|p l] eqn:E; [done|].
  exfalso. assert (p ∈ _getViewPartsToRender
                     (set_viewParts
                        (acknowledge (reverse (_getViewPartsToRender view)) (_viewParts view))
                        view)) as Hp by (rewrite E; by left).
  apply elem_of_getViewPartsToRender in Hp as (part' & Hp & Hd). simpl in Hp.
  destruct (_viewParts view !! p) as [part|] eqn:Hpart.
  - rewrite (acknowledge_lookup _ _ _ _ Hpart) in Hp. injection Hp as <-.
    destruct (decide (p ∈ reverse (_getViewPartsToRender view))) as [Hin|Hnin]; [done|].
    apply Hnin. rewrite elem_of_reverse. apply elem_of_getViewPartsToRender. by exists part.
  - apply lookup_ge_None in Hpart.
    assert (length (acknowledge (reverse (_getViewPartsToRender view)) (_viewParts view))
            = length (_viewParts view)) as Hlen.
    { generalize (reverse (_getViewPartsToRender view)). intros ps.
      induction ps as [|q ps IH]; simpl; [done|]. by rewrite length_alter. }
    apply lookup_lt_Some in Hp. lia.
Qed.

Lemma prepareRender_keeps_views v ps ctx :
  respects (viewsEvolve eq)
    (safeInvokeNoArg (rendering_prepareRender (_createCoordinatedRendering v) ps ctx)).
Proof.
  destruct (viewsEvolve_respected eq (fun f => forall view, f view = view))
    as (H1 & H2 & H3 & H4 & H5); [done|by intros a b c -> ->|by intros f Hf view|].
  respects_auto ltac:(exact I).
Qed.

(** X9: a synchronous rendering of a view whose root is attached leaves
    nothing to render and the glyph margin flag cleared, provided text
    rendering and the render calls of the parts complete; a part that
    throws in prepareRender does not prevent it. *)
Theorem flush_leaves_view_clean v view s :
  views (user s) !! v = Some view ->
  domNodeIsConnected view = true ->
  onRenderText (_viewLines view) = Completes ->
  Forall (fun part => onRender part = Completes) (_viewParts view) ->
  exists view',
    views (user (_flushAccumulatedAndRenderNow v s).2) !! v = Some view'
    /\ quiescent view'
    /\ _shouldRecomputeGlyphMarginLanes view' = false.
Proof.
  intros Hv Hc Ht Hparts.
  set (view1 := set_shouldRecomputeGlyphMarginLanes false view).
  assert (exists s1, rendering_prepareRenderText (_createCoordinatedRendering v) s
                     = (Returned tt, s1)
                     /\ views (user s1) !! v = Some view1) as (s1 & E1 & Hv1).
  { eexists. split; [apply (prepareRenderText_result v view s Hv)|].
    simpl. apply lookup_insert_eq. }
  destruct (lines_shouldRender (_viewLines view)) eqn:Hl;
    [|destruct (decide (_getViewPartsToRender view = [])) as [Hps|Hps]].
  3:{ (* only parts *)
    unfold _flushAccumulatedAndRenderNow. cbv zeta.
    erewrite bind_returned by (apply safeInvoke_returned; exact E1).
    erewrite bind_returned.
    2:{ apply safeInvoke_returned. by apply (renderText_parts_only v view1 s1 Hv1). }
    set (s2 := withUser _ _ s1).
    set (ps2 := _getViewPartsToRender view1).
    set (ctx := {| ctxView := v; ctxViewportData := _ |}).
    change (mjoin (Some (Some (ps2, ctx)))) with (Some (ps2, ctx)). cbv beta iota.
    destruct (safeInvokeNoArg_returns
                (rendering_prepareRender (_createCoordinatedRendering v) ps2 ctx) s2)
      as (o3 & s3 & E3).
    pose proof (prepareRender_keeps_views v ps2 ctx s2) as [_ Hev]. rewrite E3 in Hev.
    specialize (Hev v). simpl in Hev. rewrite Hv1 in Hev.
    inversion Hev as [a b Hab Ea Eb|]; subst b. symmetry in Eb.
    erewrite bind_returned by exact E3.
    erewrite bind_returned.
    2:{ apply safeInvoke_returned. unfold rendering_render, _createCoordinatedRendering.
        rewrite (bind_returned _ _ _ _ _ (emit_result _ _)).
        apply (render_loop_result v ctx ps2 _ view1); [exact Eb|].
        intros q (part & Hq & _)%elem_of_getViewPartsToRender.
        exists part. split; [done|].
        by apply (Forall_lookup_1 _ _ _ _ Hparts Hq). }
    simpl. rewrite lookup_insert_eq. eexists. split; [done|]. split; [|done].
    by apply (acknowledged_quiescent view1). }
  2:{ (* nothing to do *)
    rewrite (flush_idle_result v view s Hv) by (right; by split).
    simpl. rewrite lookup_insert_eq. eexists. split; [done|]. by repeat split. }
  (* text rendering *)
  set (view2 := set_viewLines (set_lines_shouldRender false (_viewLines view1))
                  (set_viewParts
                     (invalidate (scrollInvalidates (_viewLines view1)) (_viewParts view1))
                     view1)).
  unfold _flushAccumulatedAndRenderNow. cbv zeta.
  erewrite bind_returned by (apply safeInvoke_returned; exact E1).
  erewrite bind_returned.
  2:{ apply safeInvoke_returned. by apply (renderText_with_text v view1 s1 Hv1). }
  set (s2 := withUser _ _ s1).
  fold view2.
  set (ps2 := _getViewPartsToRender view2).
  set (ctx := {| ctxView := v; ctxViewportData := _ |}).
  change (mjoin (Some (Some (ps2, ctx)))) with (Some (ps2, ctx)). cbv beta iota.
  assert (views (user s2) !! v = Some view2) as Hv2.
  { subst s2. simpl. apply lookup_insert_eq. }
  destruct (safeInvokeNoArg_returns
              (rendering_prepareRender (_createCoordinatedRendering v) ps2 ctx) s2)
    as (o3 & s3 & E3).
  pose proof (prepareRender_keeps_views v ps2 ctx s2) as [_ Hev]. rewrite E3 in Hev.
  specialize (Hev v). rewrite Hv2 in Hev.
  inversion Hev as [a b Hab Ea Eb|]; subst b. symmetry in Eb.
  erewrite bind_returned by exact E3.
  erewrite bind_returned.
  2:{ apply safeInvoke_returned. unfold rendering_render, _createCoordinatedRendering.
      rewrite (bind_returned _ _ _ _ _ (emit_result _ _)).
      apply (render_loop_result v ctx ps2 _ view2); [exact Eb|].
      intros q (part & Hq & _)%elem_of_getViewPartsToRender.
      exists part. split; [done|]. simpl in Hq.
      destruct (lookup_lt_is_Some_2 (_viewParts view) q) as [part0 Hq0].
      { apply lookup_lt_Some in Hq. by rewrite invalidate_length in Hq. }
      rewrite (invalidate_lookup _ _ _ _ Hq0) in Hq. injection Hq as <-.
      pose proof (Forall_lookup_1 _ _ _ _ Hparts Hq0) as Hr.
      by destruct (decide _). }
  simpl. rewrite lookup_insert_eq. eexists. split; [done|]. split; [|done].
  by apply (acknowledged_quiescent view2).
Qed.

(** X10: a synchronous rendering of a view that has nothing to render, or
    whose root is detached, calls neither the text subsystem nor any view
    part, and changes nothing but the glyph margin flag. *)
Theorem idle_view_renders_nothing v view s :
  views (user s) !! v = Some view ->
  domNodeIsConnected view = false \/ quiescent view ->
  let res := _flushAccumulatedAndRenderNow v s in
  res.1 = Returned tt
  /\ views (user res.2)
     = <[v := set_shouldRecomputeGlyphMarginLanes false view]> (views (user s))
  /\ trace (user res.2)
     = trace (user s) ++ [EvPhase v PrepareRenderText]
         ++ (if _shouldRecomputeGlyphMarginLanes view
             then [EvComputeGlyphMarginLanes v] else [])
         ++ [EvRenderStart v; EvPhase v RenderText]
  /\ unexpectedErrors res.2 = unexpectedErrors s.
Proof.
  intros Hv Hidle res. subst res. by rewrite (flush_idle_result v view s Hv Hidle).
Qed.

(** X11: when a view part throws in render, the render phase of the view
    ends there with one report to the error sink: the parts before it have
    rendered and acknowledged, the throwing part is not acknowledged, and
    it and every part after it are left as they were, dirty flag
    included. *)
Theorem render_failure_keeps_parts_dirty v view s pre p post part e ctx :
  views (user s) !! v = Some view ->
  (forall q, q ∈ pre ->
     exists part', _viewParts view !! q = Some part' /\ onRender part' = Completes) ->
  _viewParts view !! p = Some part ->
  onRender part = Throws e ->
  let res := safeInvokeNoArg
               (rendering_render (_createCoordinatedRendering v) (pre ++ p :: post) ctx) s in
  res.1 = Returned None
  /\ unexpectedErrors res.2 = unexpectedErrors s ++ [e]
  /\ trace (user res.2)
     = trace (user s) ++ EvPhase v Render
         :: (pre ≫= fun q => [EvPartRender v q; EvPartOnDidRender v q])
         ++ [EvPartRender v p]
  /\ exists view',
       views (user res.2) !! v = Some view'
       /\ (forall q part', q ∈ pre -> _viewParts view' !! q = Some part' ->
             _shouldRender part' = false)
       /\ (forall q, q ∉ pre -> _viewParts view' !! q = _viewParts view !! q).
Proof.
  intros Hv Hpre Hp He res.
  set (view1 := set_viewParts (acknowledge (reverse pre) (_viewParts view)) view).
  assert (p ∉ pre) as Hnin.
  { intros Hin. destruct (Hpre p Hin) as (part' & Hp' & Hc). congruence. }
  assert (exists s', rendering_render (_createCoordinatedRendering v) (pre ++ p :: post) ctx s
            = (Thrown e, s')
            /\ unexpectedErrors s' = unexpectedErrors s
            /\ trace (user s')
               = trace (user s) ++ EvPhase v Render
                   :: (pre ≫= fun q => [EvPartRender v q; EvPartOnDidRender v q])
                   ++ [EvPartRender v p]
            /\ views (user s') !! v = Some view1) as (s' & E & Herr & Htr & Hv').
  { unfold rendering_render, _createCoordinatedRendering.
    rewrite (bind_returned _ _ _ _ _ (emit_result _ _)).
    set (s0 := withUser _ _ s).
    rewrite forOf_app.
    erewrite bind_returned.
    2:{ apply (render_loop_result v ctx pre s0 view); [exact Hv|exact Hpre]. }
    fold view1. set (s1 := withUser _ _ s0).
    assert (views (user s1) !! v = Some view1) as Hv1 by apply lookup_insert_eq.
    assert (_viewParts view1 !! p = Some part) as Hp1.
    { simpl. rewrite (acknowledge_lookup _ _ _ _ Hp).
      destruct (decide (p ∈ reverse pre)) as [Hin|]; [|done].
      rewrite elem_of_reverse in Hin. done. }
    eexists. split.
    { simpl. apply bind_thrown, bind_thrown.
      rewrite (ViewPart_render_result v view1 p part ctx s1 Hv1 Hp1), He. reflexivity. }
    simpl. split; [done|]. split; [|apply lookup_insert_eq].
    by rewrite <- !app_assoc. }
  subst res. rewrite (safeInvoke_thrown _ _ _ _ E). simpl.
  split; [done|]. split; [by rewrite Herr|]. split; [done|].
  exists view1. split; [done|]. split.
  - intros q part' Hq. simpl.
    destruct (Hpre q Hq) as (part0 & Hq0 & _).
    rewrite (acknowledge_lookup _ _ _ _ Hq0).
    destruct (decide (q ∈ reverse pre)) as [_|Hn]; [by intros [= <-]|].
    exfalso. apply Hn. by rewrite elem_of_reverse.
  - intros q Hq. simpl.
    destruct (_viewParts view !! q) as [part0|] eqn:Hq0.
    + rewrite (acknowledge_lookup _ _ _ _ Hq0).
      destruct (decide (q ∈ reverse pre)) as [Hin|]; [|done].
      rewrite elem_of_reverse in Hin. done.
    + apply lookup_ge_None. apply lookup_ge_None in Hq0.
      assert (length (acknowledge (reverse pre) (_viewParts view))
              = length (_viewParts view)) as Hlen.
      { generalize (reverse pre). intros ps.
        induction ps as [|q' ps IH]; simpl; [done|]. by rewrite length_alter. }
      lia.
Qed.
End OneView.

(** * The glyph margin flag *)

Section Lanes.
Implicit Types (s : VEnv) (v : ViewId) (view : View) (r : Rendering) (w : VWorld).

Lemma lanesComputed_app v evs1 evs2 :
  lanesComputed v (evs1 ++ evs2) = lanesComputed v evs1 ++ lanesComputed v evs2.
Proof. apply filter_app. Qed.

Lemma lanesComputed_none v evs :
  Forall notLanes evs -> lanesComputed v evs = [].
Proof.
  induction 1 as [|e evs He _ IH]; [done|].
  unfold lanesComputed. rewrite filter_cons_False; [exact IH|].
  intros ->. exact He.
Qed.

(** Phase 1 of a participant whose view is alive. *)
Lemma participant_prepareRenderText_result r view s :
  views (user s) !! this r = Some view ->
  isDisposed view = false ->
  safeInvokeNoArg (prepareRenderText (viewObj r)) s
  = (Returned (Some tt),
     withUser (<[this r := set_renderAnimationFrame None
                             (set_shouldRecomputeGlyphMarginLanes false view)]>
                 (views (user s)))
       (trace (user s) ++ [EvPhase (this r) PrepareRenderText]
          ++ (if _shouldRecomputeGlyphMarginLanes view
              then [EvComputeGlyphMarginLanes (this r)] else [])
          ++ [EvRenderStart (this r)]) s).
Proof.
  intros Hv Hlive. apply safeInvoke_returned.
  unfold prepareRenderText, viewObj.
  rewrite (bind_returned _ _ s tt s) by (by eapply throwIfDisposed_live).
  unfold tryFinally. rewrite (prepareRenderText_result _ _ _ Hv).
  erewrite updateView_Some by (simpl; apply lookup_insert_eq).
  simpl. unfold withUser. simpl. by rewrite insert_insert_eq.
Qed.

Lemma phaseOne_lanes l :
  forall w v view,
    (forall r, r ∈ l ->
       exists view', views (user (env w)) !! this r = Some view'
                     /\ isDisposed view' = false) ->
    NoDup (this <$> l) ->
    views (user (env w)) !! v = Some view ->
    exists e' cs evs,
      phaseOne l w = (Returned tt, {| env := e'; calls := cs |})
      /\ trace (user e') = trace (user (env w)) ++ evs
      /\ if decide (v ∈ this <$> l)
         then views (user e') !! v
              = Some (set_renderAnimationFrame None
                        (set_shouldRecomputeGlyphMarginLanes false view))
              /\ lanesComputed v evs
                 = (if _shouldRecomputeGlyphMarginLanes view
                    then [EvComputeGlyphMarginLanes v] else [])
         else views (user e') !! v = Some view /\ lanesComputed v evs = [].
Proof.
  induction l as [|r l IH]; intros w v view Hlive Hnd Hv.
  - exists (env w), (calls w), []. destruct w as [e cs]. simpl.
    rewrite app_nil_r. split; [done|]. split; [done|].
    destruct (decide (v ∈ [])) as [Hin|]; [by apply elem_of_nil in Hin|done].
  - destruct (Hlive r) as (viewr & Hr & Hliver); [by left|].
    pose proof (participant_prepareRenderText_result r viewr (env w) Hr Hliver) as E.
    set (evsr := [EvPhase (this r) PrepareRenderText] ++
                 (if _shouldRecomputeGlyphMarginLanes viewr
                  then [EvComputeGlyphMarginLanes (this r)] else []) ++
                 [EvRenderStart (this r)]) in E.
    set (s1 := withUser _ _ (env w)) in E.
    set (w1 := {| env := s1; calls := calls w ++ [CallPrepareRenderText r true] |}).
    assert (phaseOne (r :: l) w = phaseOne l w1) as Estep.
    { change (phaseOne (r :: l) w) with
        (((let* res := inEnv (safeInvokeNoArg (prepareRenderText (viewObj r))) in
           logCall (CallPrepareRenderText r (completed res))) ;;; phaseOne l) w).
      rewrite (bind_returned _ _ w tt w1); [done|].
      rewrite (bind_returned _ _ w (Some tt) {| env := s1; calls := calls w |}); [done|].
      unfold inEnv, zoom. by rewrite E. }
    apply NoDup_cons in Hnd as [Hrl Hnd]. fold (fmap this l) in Hrl, Hnd.
    assert (forall r', r' ∈ l ->
              exists view', views (user (env w1)) !! this r' = Some view'
                            /\ isDisposed view' = false) as Hlive1.
    { intros r' Hr'. simpl.
      assert (this r' <> this r) as Hne.
      { intros Heq. apply Hrl. rewrite <- Heq. by apply list_elem_of_fmap_2. }
      rewrite lookup_insert_ne by done. apply Hlive. by right. }
    destruct (decide (v = this r)) as [->|Hne].
    + destruct (IH w1 (this r)
                  (set_renderAnimationFrame None
                     (set_shouldRecomputeGlyphMarginLanes false viewr)) Hlive1 Hnd)
        as (e' & cs & evs & E' & Htr & Hres).
      { simpl. apply lookup_insert_eq. }
      destruct (decide (this r ∈ this <$> l)) as [?|_]; [done|].
      destruct Hres as [Hv' Hnone].
      exists e', cs, (evsr ++ evs). split; [by rewrite Estep|]. split.
      { rewrite Htr. simpl. by rewrite <- app_assoc. }
      destruct (decide (this r ∈ this <$> r :: l)) as [_|Hn].
      2:{ exfalso. apply Hn. by left. }
      assert (viewr = view) as -> by congruence.
      split; [done|]. rewrite lanesComputed_app, Hnone, app_nil_r.
      unfold lanesComputed, evsr.
      destruct (_shouldRecomputeGlyphMarginLanes view); simpl.
      * rewrite filter_cons_False by done. rewrite filter_cons_True by done.
        by rewrite filter_cons_False by done.
      * rewrite filter_cons_False by done. by rewrite filter_cons_False by done.
    + destruct (IH w1 v view Hlive1 Hnd) as (e' & cs & evs & E' & Htr & Hres).
      { simpl. by rewrite lookup_insert_ne. }
      exists e', cs, (evsr ++ evs). split; [by rewrite Estep|]. split.
      { rewrite Htr. simpl. by rewrite <- app_assoc. }
      assert (lanesComputed v evsr = []) as Hnone.
      { unfold lanesComputed, evsr.
        destruct (_shouldRecomputeGlyphMarginLanes viewr); simpl.
        - rewrite filter_cons_False by done.
          rewrite filter_cons_False by (intros [= ?]; congruence).
          by rewrite filter_cons_False by done.
        - rewrite filter_cons_False by done. by rewrite filter_cons_False by done. }
      rewrite lanesComputed_app, Hnone, app_nil_l.
      destruct (decide (v ∈ this <$> l)) as [Hin|Hnin];
        destruct (decide (v ∈ this <$> r :: l)) as [Hin'|Hnin'].
      * exact Hres.
      * exfalso. apply Hnin'. rewrite fmap_cons. by right.
      * rewrite fmap_cons in Hin'. by apply elem_of_cons in Hin' as [?|?].
      * exact Hres.
Qed.

Lemma flagKept_preorder :
  (forall a, flagKept a a)
  /\ (forall a b c, flagKept a b -> flagKept b c -> flagKept a c)
  /\ (forall f, keepsFlag f -> forall view, flagKept view (f view)).
Proof.
  split; [done|]. split; [|done].
  intros a b c H1 H2. unfold flagKept in *. congruence.
Qed.

Lemma later_phases_keep_flags r :
  respects (viewsEvolve flagKept) (safeInvokeNoArg (renderText (viewObj r)))
  /\ (forall vps ctx,
        respects (viewsEvolve flagKept)
          (safeInvokeNoArg (prepareRender (viewObj r) vps ctx)))
  /\ (forall vps ctx,
        respects (viewsEvolve flagKept)
          (safeInvokeNoArg (render (viewObj r) vps ctx))).
Proof.
  destruct flagKept_preorder as (P1 & P2 & P3).
  destruct (viewsEvolve_respected flagKept keepsFlag P1 P2 P3)
    as (H1 & H2 & H3 & H4 & H5).
  split; [|split]; intros;
    respects_auto ltac:(first [ exact I | intros ?; reflexivity ]).
Qed.

Lemma later_phases_compute_no_lanes r :
  respects (emits notLanes) (safeInvokeNoArg (renderText (viewObj r)))
  /\ (forall vps ctx,
        respects (emits notLanes)
          (safeInvokeNoArg (prepareRender (viewObj r) vps ctx)))
  /\ (forall vps ctx,
        respects (emits notLanes)
          (safeInvokeNoArg (render (viewObj r) vps ctx))).
Proof.
  destruct (emits_respected notLanes) as (H1 & H2 & H3 & H4 & H5).
  split; [|split]; intros; respects_auto ltac:(exact I).
Qed.

(** What a frame does to the glyph margin lanes of a view. *)
Lemma frame_lanes h (win : CodeWindow) w v view :
  systemOk (env w) ->
  requested (frames (env w)) !! h = Some win ->
  views (user (env w)) !! v = Some view ->
  exists e' cs evs view',
    fireFrame viewObj h w = (Returned tt, {| env := e'; calls := cs |})
    /\ trace (user e') = trace (user (env w)) ++ evs
    /\ views (user e') !! v = Some view'
    /\ if decide (v ∈ this <$> _coordinatedRenderings (env w))
       then _shouldRecomputeGlyphMarginLanes view' = false
            /\ lanesComputed v evs
               = (if _shouldRecomputeGlyphMarginLanes view
                  then [EvComputeGlyphMarginLanes v] else [])
       else _shouldRecomputeGlyphMarginLanes view' = _shouldRecomputeGlyphMarginLanes view
            /\ lanesComputed v evs = [].
Proof.
  intros [Hh Ha] Hreq Hv.
  rewrite (fireFrame_runs_callback _ _ _ _ Hreq), onRenderScheduled_split. simpl.
  set (batch := _coordinatedRenderings (env w)).
  set (w0 := {| env := _; calls := _ |}).
  destruct (phaseOne_lanes batch w0 v view) as (e1 & cs1 & evs1 & E1 & Htr1 & Hres1).
  { intros r Hr. simpl. destruct Ha as [_ _ Hpend _ Hdisp].
    destruct (Hpend r Hr) as (view' & Hv' & Hf'). exists view'. split; [done|].
    destruct (isDisposed view') eqn:Hd; [|done].
    rewrite (Hdisp _ _ Hv' Hd) in Hf'. done. }
  { destruct Ha as [Hnd _ Hpend _ _]. apply NoDup_fmap_2_strong; [|done].
    intros r1 r2 H1 H2 E.
    destruct (Hpend r1 H1) as (view1 & Hv1 & Hf1).
    destruct (Hpend r2 H2) as (view2 & Hv2 & Hf2).
    rewrite E in Hv1. congruence. }
  { exact Hv. }
  rewrite (bind_returned _ _ _ _ _ E1).
  destruct (emits_respected notLanes) as (Q1 & Q2 & _).
  destruct (laterPhases_respects (emits notLanes) e1 batch Q2
              (fun r => proj1 (later_phases_compute_no_lanes r))
              (fun r => proj1 (proj2 (later_phases_compute_no_lanes r)))
              (fun r => proj2 (proj2 (later_phases_compute_no_lanes r)))
              {| env := e1; calls := cs1 |} (Q1 e1))
    as ([] & e' & cs & E2 & [_ (evs2 & Htr2 & Hok)] & _).
  destruct flagKept_preorder as (P1 & P2 & P3).
  destruct (viewsEvolve_respected flagKept keepsFlag P1 P2 P3) as (F1 & F2 & _).
  destruct (laterPhases_respects (viewsEvolve flagKept) e1 batch F2
              (fun r => proj1 (later_phases_keep_flags r))
              (fun r => proj1 (proj2 (later_phases_keep_flags r)))
              (fun r => proj2 (proj2 (later_phases_keep_flags r)))
              {| env := e1; calls := cs1 |} (F1 e1))
    as ([] & e'' & cs' & E2' & [_ Hflags] & _).
  rewrite E2 in E2'. injection E2' as <- _.
  assert (exists view1, views (user e1) !! v = Some view1) as [view1 Hv1].
  { destruct (decide (v ∈ this <$> batch)); destruct Hres1 as [-> _]; eauto. }
  specialize (Hflags v). rewrite Hv1 in Hflags.
  inversion Hflags as [a view' Hfl Ea Eb|]; subst a. symmetry in Eb.
  exists e', (cs1 ++ cs), (evs1 ++ evs2), view'.
  split; [exact E2|]. split.
  { rewrite Htr2, Htr1. simpl. by rewrite app_assoc. }
  split; [done|].
  rewrite lanesComputed_app, (lanesComputed_none v evs2 Hok), app_nil_r.
  unfold flagKept in Hfl.
  destruct (decide (v ∈ this <$> batch)); destruct Hres1 as [Hv1' Hl1];
    rewrite Hv1 in Hv1'; injection Hv1' as ->; (split; [|done]); by rewrite Hfl.
Qed.
End Lanes.

Section Calls.
Implicit Types (s : VEnv) (v : ViewId) (view : View) (r : Rendering) (w : VWorld).

Lemma set_renderAnimationFrame_id view d :
  _renderAnimationFrame view = d -> set_renderAnimationFrame d view = view.
Proof. intros <-. by destruct view. Qed.

Lemma scheduleRender_arms v view s :
  views (user s) !! v = Some view ->
  isDisposed view = false ->
  exists r s',
    View_scheduleRender v s = (Returned tt, s')
    /\ views (user s') !! v
       = Some (set_renderAnimationFrame (Some (RenderingDisposable r)) view)
    /\ trace (user s') = trace (user s).
Proof.
  intros Hv Hlive. destruct (_renderAnimationFrame view) as [[r]|] eqn:Hf.
  - exists r, s. rewrite (View_scheduleRender_pending v view _ s Hv Hlive Hf).
    by rewrite (set_renderAnimationFrame_id _ _ Hf).
  - pose proof (View_scheduleRender_result v view s Hv Hlive Hf) as E. cbv zeta in E.
    eexists _, _. split; [exact E|]. simpl. by rewrite lookup_insert_eq.
Qed.

Lemma then_schedule {A} (pre : Js VEnv A) v view1 s a s1 :
  pre s = (Returned a, s1) ->
  views (user s1) !! v = Some view1 ->
  isDisposed view1 = false ->
  trace (user s1) = trace (user s) ->
  exists r s',
    (pre ;;; View_scheduleRender v) s = (Returned tt, s')
    /\ views (user s') !! v
       = Some (set_renderAnimationFrame (Some (RenderingDisposable r)) view1)
    /\ trace (user s') = trace (user s).
Proof.
  intros E Hv Hlive Ht. rewrite (bind_returned _ _ _ _ _ E), <- Ht.
  by apply scheduleRender_arms.
Qed.

Lemma handleEvents_dispatch v events :
  forall s view,
    views (user s) !! v = Some view ->
    ViewEventHandler_handleEvents v events s
    = (Returned tt,
       withUser (<[v := if existsb affectsGlyphMargin events
                        then set_shouldRecomputeGlyphMarginLanes true view
                        else view]> (views (user s)))
         (trace (user s)) s).
Proof.
  induction events as [|e events IH]; intros s view Hv.
  - simpl. by rewrite (insert_id _ _ _ Hv), withUser_id.
  - set (view1 := if affectsGlyphMargin e
                  then set_shouldRecomputeGlyphMarginLanes true view else view).
    set (s1 := withUser (<[v := view1]> (views (user s))) (trace (user s)) s).
    assert (forall (k : Js VEnv unit), 
              (match e with
               | ViewConfigurationChanged => View_onConfigurationChanged v
               | ViewCursorStateChanged => View_onCursorStateChanged v
               | ViewDecorationsChanged affects => View_onDecorationsChanged v affects
               | ViewFocusChanged => View_onFocusChanged v
               | ViewThemeChanged => View_onThemeChanged v
               end ;;; k) s = k s1) as Estep.
    { intros k. subst s1 view1.
      destruct e as [| |[]| |]; simpl;
        try (rewrite (insert_id _ _ _ Hv), withUser_id; reflexivity).
      unfold View_onDecorationsChanged.
      erewrite bind_returned; [reflexivity|].
      erewrite bind_returned by (by apply updateView_Some). reflexivity. }
    unfold ViewEventHandler_handleEvents in *. simpl forOf.
    unfold bind at 1. rewrite Estep. unfold ret at 1.
    etransitivity; [apply (IH s1 view1); apply lookup_insert_eq|].
    subst s1. unfold withUser. simpl. rewrite insert_insert_eq.
    subst view1. by destruct (affectsGlyphMargin e), (existsb affectsGlyphMargin events).
Qed.

(** A call that ends in [_scheduleRender], on a view that is not
    disposed. *)
Lemma scheduling_call_result v c view s :
  views (user s) !! v = Some view ->
  isDisposed view = false ->
  schedules c = true ->
  exists r s',
    View_call v c s = (Returned tt, s')
    /\ views (user s') !! v
       = Some (set_renderAnimationFrame (Some (RenderingDisposable r)) (touched c view))
    /\ trace (user s') = trace (user s).
Proof.
  intros Hv Hlive Hc.
  assert (forall (k : Js VEnv unit), (ret tt ;;; k) s = k s) as Hret by done.
  destruct c as [|now everything| |events| | | |b|b| | |b| |]; simpl in *;
    try discriminate; try (by apply scheduleRender_arms).
  - destruct now; [done|]. unfold View_render.
    destruct everything.
    + eapply then_schedule; [by apply forceEverything_result| |done|done].
      simpl. apply lookup_insert_eq.
    + rewrite Hret. by apply scheduleRender_arms.
  - unfold View_handleEvents.
    eapply then_schedule; [by apply handleEvents_dispatch| | |done].
    + simpl. apply lookup_insert_eq.
    + by destruct (existsb affectsGlyphMargin events).
  - unfold View_addContentWidget, View_layoutContentWidget.
    destruct (scheduleRender_arms v view s Hv Hlive) as (r & s1 & E1 & Hv1 & Ht1).
    destruct (then_schedule (View_scheduleRender v) v _ s tt s1 E1 Hv1 Hlive Ht1)
      as (r' & s' & E' & Hv' & Ht').
    exists r', s'. split; [done|]. by rewrite Hv', Ht'.
  - unfold View_addOverlayWidget, View_layoutOverlayWidget. destruct b.
    + destruct (scheduleRender_arms v view s Hv Hlive) as (r & s1 & E1 & Hv1 & Ht1).
      destruct (then_schedule (View_scheduleRender v) v _ s tt s1 E1 Hv1 Hlive Ht1)
        as (r' & s' & E' & Hv' & Ht').
      exists r', s'. split; [done|]. by rewrite Hv', Ht'.
    + rewrite Hret. by apply scheduleRender_arms.
  - subst b. by apply scheduleRender_arms.
  - unfold View_addGlyphMarginWidget.
    eapply then_schedule; [by apply updateView_Some| |done|done].
    simpl. apply lookup_insert_eq.
  - subst b. eapply then_schedule; [by apply updateView_Some| |done|done].
    simpl. apply lookup_insert_eq.
  - unfold View_removeGlyphMarginWidget.
    eapply then_schedule; [by apply updateView_Some| |done|done].
    simpl. apply lookup_insert_eq.
Qed.
End Calls.

Section ReachableLanes.
Implicit Types (s : VEnv) (v : ViewId) (view : View) (r : Rendering) (w : VWorld).

Lemma filter_none {A} (P : A -> Prop) `{!forall x, Decision (P x)} (l : list A) :
  Forall (fun x => ~ P x) l -> filter P l = [].
Proof.
  induction 1 as [|x l Hx _ IH]; [done|]. by rewrite filter_cons_False.
Qed.

(** X12: a frame computes the glyph margin lanes of a view exactly when
    the view has a pending rendering and its flag is set, and then once. *)
Theorem frame_computes_lanes_iff_flagged (vs : gmap ViewId View) ops h
    (win : CodeWindow) v view :
  let w := runViews ops (startWorld vs) in
  requested (frames (env w)) !! h = Some win ->
  views (user (env w)) !! v = Some view ->
  exists evs,
    trace (user (env (fireFrame viewObj h w).2)) = trace (user (env w)) ++ evs
    /\ lanesComputed v evs
       = if bool_decide (v ∈ this <$> _coordinatedRenderings (env w))
            && _shouldRecomputeGlyphMarginLanes view
         then [EvComputeGlyphMarginLanes v] else [].
Proof.
  intros w Hreq Hv.
  destruct (frame_lanes h win w v view (systemOk_reachable vs ops) Hreq Hv)
    as (e' & cs & evs & view' & -> & Htr & _ & Hres).
  exists evs. split; [done|].
  destruct (decide (v ∈ this <$> _coordinatedRenderings (env w))) as [Hin|Hnin].
  - rewrite (bool_decide_eq_true_2 _ Hin). by destruct Hres as [_ ->].
  - rewrite (bool_decide_eq_false_2 _ Hnin). by destruct Hres as [_ ->].
Qed.

(** X13: after a change of the glyph margin (a glyph margin widget added,
    moved or removed, or a decorations event that affects the glyph
    margin) on a view that is not disposed, the frame that fires next
    computes the lanes of the view, once, and clears the flag. *)
Theorem glyph_change_recomputes_lanes_in_next_frame (vs : gmap ViewId View) ops
    v view c h (win : CodeWindow) :
  let s := env (runViews ops (startWorld vs)) in
  views (user s) !! v = Some view ->
  isDisposed view = false ->
  changesGlyphs c = true ->
  let s' := (View_call v c s).2 in
  requested (frames s') !! h = Some win ->
  let w' := (fireFrame viewObj h {| env := s'; calls := [] |}).2 in
  exists evs view',
    trace (user (env w')) = trace (user s') ++ evs
    /\ lanesComputed v evs = [EvComputeGlyphMarginLanes v]
    /\ views (user (env w')) !! v = Some view'
    /\ _shouldRecomputeGlyphMarginLanes view' = false.
Proof.
  intros s Hv Hlive Hc s' Hreq w'.
  assert (schedules c = true) as Hs by (by destruct c as [| | | | | | | | | | |[]| |]).
  destruct (scheduling_call_result v c view s Hv Hlive Hs) as (r & s1 & E & Hv1 & _).
  assert (s' = s1) as -> by (subst s'; by rewrite E).
  destruct (apiSafe_call v c s (systemOk_reachable vs ops)) as [Hok _].
  rewrite E in Hok. simpl in Hok.
  destruct (proj2 Hok) as [_ _ _ Harm _].
  destruct (Harm v _ r Hv1 eq_refl) as [Hr Hthis].
  destruct (frame_lanes h win {| env := s1; calls := [] |} v _ Hok Hreq Hv1)
    as (e' & cs & evs & view' & E' & Htr & Hv' & Hres).
  subst w'. rewrite E'. simpl in *. exists evs, view'.
  destruct (decide (v ∈ this <$> _coordinatedRenderings s1)) as [_|Hn].
  2:{ exfalso. apply Hn. rewrite <- Hthis. by apply list_elem_of_fmap_2. }
  destruct Hres as [Hflag Hl]. split; [done|]. split; [|done].
  rewrite Hl. destruct c as [| | |events| | | | | | | |b| |]; simpl in *; try done.
  - by rewrite Hc.
  - by rewrite Hc.
Qed.

(** X14: a call of the widget, zone or event interface that ends in
    _scheduleRender, on a view that is not disposed, returns normally and
    leaves the view with exactly one pending rendering, which has an
    outstanding frame request; the call that schedules twice
    (addContentWidget, addOverlayWidget) registers once. *)
Theorem scheduling_call_leaves_view_pending (vs : gmap ViewId View) ops v view c :
  let s := env (runViews ops (startWorld vs)) in
  views (user s) !! v = Some view ->
  isDisposed view = false ->
  schedules c = true ->
  let res := View_call v c s in
  res.1 = Returned tt
  /\ exists r,
       views (user res.2) !! v
       = Some (set_renderAnimationFrame (Some (RenderingDisposable r)) (touched c view))
       /\ filter (fun r' => this r' = v) (_coordinatedRenderings res.2) = [r]
       /\ exists h, requested (frames res.2) !! h = Some (renderingWindow r).
Proof.
  intros s Hv Hlive Hs res.
  destruct (scheduling_call_result v c view s Hv Hlive Hs) as (r & s1 & E & Hv1 & _).
  destruct (apiSafe_call v c s (systemOk_reachable vs ops)) as [Hok _].
  subst res. rewrite E in *. simpl in *. split; [done|]. exists r. split; [done|].
  destruct Hok as [[Hbij _ Hcov] [Hnd _ Hpend Harm _]].
  destruct (Harm v _ r Hv1 eq_refl) as [Hr Hthis]. split.
  - apply list_elem_of_split in Hr as (l1 & l2 & El). rewrite El in *.
    assert (forall r', r' ∈ l1 ++ l2 -> this r' <> v) as Hother.
    { intros r' Hr' Heq.
      destruct (Hpend r') as (view' & Hv' & Hf').
      { apply elem_of_app in Hr' as [?|?]; apply elem_of_app; [by left|right].
        by apply elem_of_cons; right. }
      rewrite Heq, Hv1 in Hv'. injection Hv' as <-. simpl in Hf'. injection Hf' as ->.
      apply NoDup_app in Hnd as (_ & Hnd1 & Hnd2).
      apply NoDup_cons in Hnd2 as [Hnd2 _].
      apply elem_of_app in Hr' as [Hr'|Hr']; [|done].
      apply (Hnd1 _ Hr'). by left. }
    rewrite filter_app, filter_cons_True by done.
    rewrite !filter_none; [done| |].
    + apply Forall_forall. intros r' Hr'. apply Hother, elem_of_app. by right.
    + apply Forall_forall. intros r' Hr'. apply Hother, elem_of_app. by left.
  - destruct (Hcov r Hr) as [h Hh]. exists h. by apply Hbij.
Qed.
End ReachableLanes.

(** * Disposal *)

Section Disposal.
Implicit Types (s : VEnv) (v : ViewId) (view : View) (r : Rendering).

Lemma filter_all {A} (P : A -> Prop) `{!forall x, Decision (P x)} (l : list A) :
  Forall P l -> filter P l = l.
Proof.
  induction 1 as [|x l Hx _ IH]; [done|]. by rewrite filter_cons_True, IH.
Qed.

(** X15: dispose is idempotent: a second dispose changes nothing, and in
    particular does not reach the coordinator. *)
Theorem View_dispose_idempotent v s :
  (View_dispose v ;;; View_dispose v) s = View_dispose v s.
Proof.
  destruct (views (user s) !! v) as [view|] eqn:Hv.
  2:{ rewrite (View_dispose_missing v s Hv). apply bind_thrown.
      by apply View_dispose_missing. }
  destruct (_renderAnimationFrame view) as [[r]|] eqn:Hf.
  - pose proof (View_dispose_armed v view r s Hv Hf) as E. cbv zeta in E.
    rewrite (bind_returned _ _ _ _ _ E), E.
    erewrite View_dispose_idle; [|simpl; apply lookup_insert_eq|done].
    unfold withUser. simpl. by rewrite insert_insert_eq.
  - pose proof (View_dispose_idle v view s Hv Hf) as E.
    rewrite (bind_returned _ _ _ _ _ E), E.
    erewrite View_dispose_idle; [|simpl; apply lookup_insert_eq|done].
    unfold withUser. simpl. by rewrite insert_insert_eq.
Qed.

(** X16: disposing a view takes its own rendering, if it has one, off the
    pending list and nothing else: the renderings of the other views stay
    pending, in their order, and the other views are untouched. *)
Theorem dispose_removes_only_own_rendering (vs : gmap ViewId View) ops v view :
  let s := env (runViews ops (startWorld vs)) in
  views (user s) !! v = Some view ->
  let res := View_dispose v s in
  res.1 = Returned tt
  /\ _coordinatedRenderings res.2
     = filter (fun r => this r <> v) (_coordinatedRenderings s)
  /\ views (user res.2)
     = <[v := set_isDisposed true (set_renderAnimationFrame None view)]> (views (user s)).
Proof.
  intros s Hv res.
  destruct (systemOk_reachable vs ops) as [_ [Hnd _ Hpend Harm _]].
  fold s in Hnd, Hpend, Harm. subst res.
  destruct (_renderAnimationFrame view) as [[r]|] eqn:Hf.
  - pose proof (View_dispose_armed v view r s Hv Hf) as E. cbv zeta in E.
    rewrite E. cbn [fst snd]. split; [done|]. split; [|done].
    destruct (Harm v view r Hv Hf) as [Hr Hthis].
    unfold withUser, set_user. cbn [_coordinatedRenderings].
    rewrite dispose_result. cbn [snd].
    destruct (indexOf r (_coordinatedRenderings s)) as [i|] eqn:Ei.
    2:{ by apply indexOf_None in Ei. }
    destruct (indexOf_Some _ _ _ Ei) as (l1 & l2 & El & Hnin & Hsp).
    assert (_coordinatedRenderings
              (if decide (length (splice1 i (_coordinatedRenderings s)) = 0)
               then set_runners ∅
                      (disposeAllRunners
                         (set_renderings (splice1 i (_coordinatedRenderings s)) s))
               else set_renderings (splice1 i (_coordinatedRenderings s)) s)
            = l1 ++ l2) as ->.
    { by case_decide. }
    rewrite El in *.
    assert (forall r', r' ∈ l1 ++ l2 -> this r' <> v) as Hother.
    { intros r' Hr' Heq.
      destruct (Hpend r') as (view' & Hv' & Hf').
      { apply elem_of_app in Hr' as [?|?]; apply elem_of_app; [by left|right].
        by apply elem_of_cons; right. }
      rewrite Heq, Hv in Hv'. injection Hv' as <-. rewrite Hf in Hf'.
      injection Hf' as ->.
      apply NoDup_app in Hnd as (_ & Hnd1 & Hnd2).
      apply NoDup_cons in Hnd2 as [Hnd2 _].
      apply elem_of_app in Hr' as [Hr'|Hr']; [|done].
      apply (Hnd1 _ Hr'). by left. }
    rewrite filter_app, filter_cons_False by (intros Hn; by apply Hn).
    rewrite !filter_all; [done| |].
    + apply Forall_forall. intros r' Hr'. apply Hother, elem_of_app. by right.
    + apply Forall_forall. intros r' Hr'. apply Hother, elem_of_app. by left.
  - rewrite (View_dispose_idle v view s Hv Hf). simpl. split; [done|]. split.
    + rewrite filter_all; [done|]. apply Forall_forall. intros r' Hr' Heq.
      destruct (Hpend r' Hr') as (view' & Hv' & Hf'). rewrite Heq in Hv'. congruence.
    + by rewrite (set_renderAnimationFrame_id view None Hf).
Qed.
End Disposal.

(** * The computation of the glyph margin lanes *)

Section GlyphFacts.
Variable validateRange : GlyphLanes.Range -> GlyphLanes.Range.
Variable compareRangesUsingStarts : GlyphLanes.Range -> GlyphLanes.Range -> Z.

Local Abbreviation insertGlyph := (GlyphLanes.insertGlyph compareRangesUsingStarts).
Local Abbreviation sortGlyphs := (GlyphLanes.sortGlyphs compareRangesUsingStarts).
Local Abbreviation startsBefore := (GlyphLanes.startsBefore compareRangesUsingStarts).
Local Abbreviation sortedByStart := (GlyphLanes.sortedByStart compareRangesUsingStarts).

Lemma insertGlyph_Permutation g l : insertGlyph g l ≡ₚ g :: l.
Proof.
  induction l as [|h l IH]; simpl; [done|].
  case_match; [done|]. rewrite IH. apply Permutation_swap.
Qed.

Lemma sortGlyphs_Permutation l : sortGlyphs l ≡ₚ l.
Proof.
  induction l as [|g l IH]; simpl; [done|].
  rewrite insertGlyph_Permutation. by rewrite IH.
Qed.

Lemma insertGlyph_sorted g l :
  GlyphLanes.consistentComparator compareRangesUsingStarts ->
  sortedByStart l -> sortedByStart (insertGlyph g l).
Proof.
  intros [Htotal Htrans]. induction l as [|h l IH]; intros Hl; simpl in *.
  - done.
  - destruct Hl as [Hh Hl].
    destruct (Z.leb_spec (compareRangesUsingStarts (GlyphLanes.range g) (GlyphLanes.range h)) 0)
      as [Hle|Hgt]; simpl.
    + split; [|done]. constructor; [done|].
      eapply Forall_impl; [exact Hh|]. intros x Hx.
      eapply Htrans; [exact Hle|exact Hx].
    + split; [|by apply IH].
      rewrite insertGlyph_Permutation. constructor; [|done].
      destruct (Htotal (GlyphLanes.range g) (GlyphLanes.range h)) as [?|?]; [lia|done].
Qed.

Lemma sortGlyphs_sorted l :
  GlyphLanes.consistentComparator compareRangesUsingStarts ->
  sortedByStart (sortGlyphs l).
Proof.
  intros Hc. induction l as [|g l IH]; simpl; [done|]. by apply insertGlyph_sorted.
Qed.

Lemma mapWithMax_glyphs {A} (f : A -> Z -> GlyphLanes.Glyph * Z) (l : list A) m :
  (forall x m', f x m'
     = ((f x 0%Z).1, Z.max m' (GlyphLanes.endLineNumber (GlyphLanes.range (f x 0%Z).1)))) ->
  (GlyphLanes.mapWithMax f l m).1 = (fun x => (f x 0%Z).1) <$> l
  /\ (m <= (GlyphLanes.mapWithMax f l m).2)%Z
  /\ Forall (fun g => (GlyphLanes.endLineNumber (GlyphLanes.range g)
                       <= (GlyphLanes.mapWithMax f l m).2)%Z)
            ((fun x => (f x 0%Z).1) <$> l)
  /\ ((GlyphLanes.mapWithMax f l m).2 = m
      \/ exists g, g ∈ (fun x => (f x 0%Z).1) <$> l
                   /\ GlyphLanes.endLineNumber (GlyphLanes.range g)
                      = (GlyphLanes.mapWithMax f l m).2).
Proof.
  intros Hf. revert m. induction l as [|x l IH]; intros m; simpl.
  - split; [done|]. split; [lia|]. split; [done|by left].
  - rewrite (Hf x m). 
    set (g := (f x 0%Z).1).
    set (m1 := Z.max m (GlyphLanes.endLineNumber (GlyphLanes.range g))).
    destruct (IH m1) as (E1 & Hle & Hall & Hmax).
    destruct (GlyphLanes.mapWithMax f l m1) as [gs m2] eqn:E. simpl in *.
    split; [by rewrite E1|]. split; [lia|]. split.
    + constructor; [lia|done].
    + destruct Hmax as [->|(g' & Hg' & Eg')].
      * destruct (Z.max_spec m (GlyphLanes.endLineNumber (GlyphLanes.range g)))
          as [[_ Hm]|[_ Hm]]; fold m1 in Hm.
        -- right. exists g. split; [by left|done].
        -- by left.
      * right. exists g'. split; [by right|done].
Qed.

(** The shape of the result. *)
Lemma computeGlyphMarginLanes_shape decorations widgets :
  exists maxLineNumber glyphs,
    GlyphLanes._computeGlyphMarginLanes validateRange compareRangesUsingStarts
      decorations widgets
    = GlyphLanes.LaneReset maxLineNumber
        :: ((fun g => GlyphLanes.LanePush (GlyphLanes.lane g) (GlyphLanes.range g)
                        (GlyphLanes.persist g)) <$> glyphs)
    /\ glyphs = sortGlyphs
                  ((GlyphLanes.glyphOfDecoration <$> decorations)
                   ++ (GlyphLanes.glyphOfWidget validateRange <$> widgets))
    /\ (0 <= maxLineNumber)%Z
    /\ Forall (fun g => (GlyphLanes.endLineNumber (GlyphLanes.range g) <= maxLineNumber)%Z)
         ((GlyphLanes.glyphOfDecoration <$> decorations)
          ++ (GlyphLanes.glyphOfWidget validateRange <$> widgets))
    /\ (maxLineNumber = 0%Z
        \/ exists g, g ∈ (GlyphLanes.glyphOfDecoration <$> decorations)
                          ++ (GlyphLanes.glyphOfWidget validateRange <$> widgets)
                     /\ GlyphLanes.endLineNumber (GlyphLanes.range g) = maxLineNumber).
Proof.
  unfold GlyphLanes._computeGlyphMarginLanes.
  destruct (mapWithMax_glyphs GlyphLanes.decorationGlyph decorations 0)
    as (E1 & Hle1 & Hall1 & Hmax1); [done|].
  destruct (GlyphLanes.mapWithMax GlyphLanes.decorationGlyph decorations 0)
    as [gs1 m1] eqn:Ed. simpl in *.
  destruct (mapWithMax_glyphs (GlyphLanes.widgetGlyph validateRange) widgets m1)
    as (E2 & Hle2 & Hall2 & Hmax2); [done|].
  destruct (GlyphLanes.mapWithMax (GlyphLanes.widgetGlyph validateRange) widgets m1)
    as [gs2 m2] eqn:Ew. simpl in *.
  exists m2, (sortGlyphs (gs1 ++ gs2)). split; [done|].
  subst gs1 gs2. split; [done|]. split; [lia|]. split.
  - apply Forall_app. split; [|done].
    eapply Forall_impl; [exact Hall1|]. intros g Hg. simpl in Hg. lia.
  - destruct Hmax2 as [->|(g & Hg & Eg)].
    + destruct Hmax1 as [->|(g & Hg & Eg)]; [by left|].
      right. exists g. split; [|done]. apply elem_of_app. by left.
    + right. exists g. split; [|done]. apply elem_of_app. by right.
Qed.

(** X17: the lane model receives one push per margin decoration and per
    glyph margin widget, with the decoration's lane (Center when it names
    none) and range, and the widget's lane and validated range: nothing is
    lost, duplicated or invented by the sort. *)
Theorem lanes_pushed_are_the_glyphs decorations widgets :
  exists maxLineNumber glyphs,
    GlyphLanes._computeGlyphMarginLanes validateRange compareRangesUsingStarts
      decorations widgets
    = GlyphLanes.LaneReset maxLineNumber
        :: ((fun g => GlyphLanes.LanePush (GlyphLanes.lane g) (GlyphLanes.range g)
                        (GlyphLanes.persist g)) <$> glyphs)
    /\ glyphs ≡ₚ (GlyphLanes.glyphOfDecoration <$> decorations)
                  ++ (GlyphLanes.glyphOfWidget validateRange <$> widgets).
Proof.
  destruct (computeGlyphMarginLanes_shape decorations widgets)
    as (m & glyphs & E & -> & _).
  eexists m, _. split; [exact E|]. apply sortGlyphs_Permutation.
Qed.

(** X18: with a comparator that is a total preorder, the glyphs are pushed
    sorted by their start. *)
Theorem lanes_pushed_in_start_order decorations widgets :
  GlyphLanes.consistentComparator compareRangesUsingStarts ->
  exists maxLineNumber glyphs,
    GlyphLanes._computeGlyphMarginLanes validateRange compareRangesUsingStarts
      decorations widgets
    = GlyphLanes.LaneReset maxLineNumber
        :: ((fun g => GlyphLanes.LanePush (GlyphLanes.lane g) (GlyphLanes.range g)
                        (GlyphLanes.persist g)) <$> glyphs)
    /\ sortedByStart glyphs.
Proof.
  intros Hc. destruct (computeGlyphMarginLanes_shape decorations widgets)
    as (m & glyphs & E & -> & _).
  eexists m, _. split; [exact E|]. by apply sortGlyphs_sorted.
Qed.

(** X19: the lane model is reset, before the first push, to the largest end
    line among the glyphs pushed (0 when there is none or none is
    positive), so every pushed range ends within the lines it was reset
    to. *)
Theorem lanes_reset_covers_every_push decorations widgets :
  exists maxLineNumber pushes,
    GlyphLanes._computeGlyphMarginLanes validateRange compareRangesUsingStarts
      decorations widgets
    = GlyphLanes.LaneReset maxLineNumber :: pushes
    /\ (0 <= maxLineNumber)%Z
    /\ (forall c, c ∈ pushes ->
          exists lane range persist,
            c = GlyphLanes.LanePush lane range persist
            /\ (GlyphLanes.endLineNumber range <= maxLineNumber)%Z)
    /\ (maxLineNumber = 0%Z
        \/ exists lane range persist,
             GlyphLanes.LanePush lane range persist ∈ pushes
             /\ GlyphLanes.endLineNumber range = maxLineNumber).
Proof.
  destruct (computeGlyphMarginLanes_shape decorations widgets)
    as (m & glyphs & E & Eg & H0 & Hall & Hmax).
  assert (glyphs ≡ₚ (GlyphLanes.glyphOfDecoration <$> decorations)
                    ++ (GlyphLanes.glyphOfWidget validateRange <$> widgets)) as Hperm.
  { rewrite Eg. apply sortGlyphs_Permutation. }
  eexists m, _. split; [exact E|]. split; [done|]. split.
  - intros c (g & -> & Hg)%list_elem_of_fmap. eexists _, _, _. split; [done|].
    rewrite Hperm in Hg. by apply (proj1 (Forall_forall _ _) Hall g).
  - destruct Hmax as [->|(g & Hg & Eg')]; [by left|]. right.
    exists (GlyphLanes.lane g), (GlyphLanes.range g), (GlyphLanes.persist g).
    split; [|done]. apply list_elem_of_fmap. exists g. split; [done|].
    by rewrite Hperm.
Qed.
End GlyphFacts.

(** * The further properties at concrete inputs *)

Lemma pending_rendering_has_one_frame_witness :
  let s := env (runViews demoOps (startWorld demoViews)) in
  renderingOf0 ∈ _coordinatedRenderings s
  /\ exists h,
       requested (frames s) !! h = Some 1
       /\ forall h', requested (frames s) !! h' = Some 1 -> h' = h.
Proof.
  intros s.
  assert (renderingOf0 ∈ _coordinatedRenderings s) as Hin
    by (vm_compute; apply list_elem_of_here).
  split; [exact Hin|].
  exact (pending_rendering_has_one_frame demoViews demoOps renderingOf0 Hin).
Defined.

Lemma pending_rendering_belongs_to_live_view_witness :
  let s := env (runViews demoOps (startWorld demoViews)) in
  renderingOf1 ∈ _coordinatedRenderings s
  /\ exists view,
       views (user s) !! 1 = Some view
       /\ isDisposed view = false
       /\ _renderAnimationFrame view = Some (RenderingDisposable renderingOf1).
Proof.
  intros s.
  assert (renderingOf1 ∈ _coordinatedRenderings s) as Hin
    by (vm_compute; apply list_elem_of_further, list_elem_of_here).
  split; [exact Hin|].
  exact (pending_rendering_belongs_to_live_view demoViews demoOps renderingOf1 Hin).
Defined.

Lemma armed_view_is_pending_witness :
  let s := env (runViews demoOps (startWorld demoViews)) in
  let view := set_renderAnimationFrame (Some (RenderingDisposable renderingOf0))
                (constructed editorA) in
  views (user s) !! 0 = Some view
  /\ exists r,
       RenderingDisposable renderingOf0 = RenderingDisposable r
       /\ r ∈ _coordinatedRenderings s /\ this r = 0.
Proof.
  intros s view.
  assert (views (user s) !! 0 = Some view) as Hv by (vm_compute; reflexivity).
  split; [exact Hv|].
  exact (armed_view_is_pending demoViews demoOps 0 view _ Hv eq_refl).
Defined.

Lemma frame_drains_and_rearms_witness :
  let w := runViews demoOps (startWorld demoViews) in
  requested (frames (env w)) !! 0 = Some 1
  /\ (fireFrame viewObj 0 w).1 = Returned tt
  /\ _coordinatedRenderings (env (fireFrame viewObj 0 w).2) = [].
Proof.
  intros w.
  assert (requested (frames (env w)) !! 0 = Some 1) as Hh by (vm_compute; reflexivity).
  split; [exact Hh|].
  destruct (frame_drains_and_rearms demoViews demoOps 0 1 Hh) as (H1 & H2 & _).
  split; [exact H1|exact H2].
Defined.

Lemma scheduled_render_reaches_next_frame_witness :
  let s := env (runViews demoOps (startWorld demoViews)) in
  views (user s) !! 3 = Some (constructed editorD)
  /\ exists r,
       r ∈ _coordinatedRenderings (View_scheduleRender 3 s).2 /\ this r = 3
       /\ exists h,
            requested (frames (View_scheduleRender 3 s).2) !! h
            = Some (renderingWindow r).
Proof.
  intros s.
  assert (views (user s) !! 3 = Some (constructed editorD)) as Hv
    by (vm_compute; reflexivity).
  split; [exact Hv|].
  destruct (scheduled_render_reaches_next_frame demoViews demoOps 3 _ Hv eq_refl)
    as (r & Hr & Hthis & Hh & _).
  exists r. split; [exact Hr|]. split; [exact Hthis|exact Hh].
Defined.

Lemma disposed_view_gets_no_frame_calls_witness :
  let w := runViews demoOps (startWorld demoViews) in
  views (user (env w)) !! 2 = Some (set_isDisposed true (constructed editorC))
  /\ exists cs,
       calls (runViews [DoFrame 0; DoCall 2 (RenderCall true true); DoFrame 1] w)
       = calls w ++ cs
       /\ forall c, c ∈ cs -> this (callee c) <> 2.
Proof.
  intros w.
  assert (views (user (env w)) !! 2 = Some (set_isDisposed true (constructed editorC)))
    as Hv by (vm_compute; reflexivity).
  split; [exact Hv|].
  exact (disposed_view_gets_no_frame_calls demoViews demoOps
           [DoFrame 0; DoCall 2 (RenderCall true true); DoFrame 1] 2 _ Hv eq_refl).
Defined.

Lemma renderText_null_iff_witness :
  views (user demoEnv) !! 1 = Some editorB
  /\ ((rendering_renderText (_createCoordinatedRendering 1) demoEnv).1 = Returned None
      <-> domNodeIsConnected editorB = false \/ quiescent editorB).
Proof.
  assert (views (user demoEnv) !! 1 = Some editorB) as Hv by (vm_compute; reflexivity).
  split; [exact Hv|].
  exact (renderText_null_iff 1 editorB demoEnv Hv).
Defined.

Lemma flush_leaves_view_clean_witness :
  views (user demoEnv) !! 2 = Some editorC
  /\ exists view',
       views (user (_flushAccumulatedAndRenderNow 2 demoEnv).2) !! 2 = Some view'
       /\ quiescent view'
       /\ _shouldRecomputeGlyphMarginLanes view' = false.
Proof.
  assert (views (user demoEnv) !! 2 = Some editorC) as Hv by (vm_compute; reflexivity).
  split; [exact Hv|].
  apply (flush_leaves_view_clean 2 editorC demoEnv Hv eq_refl eq_refl).
  simpl. repeat constructor.
Defined.

Lemma idle_view_renders_nothing_witness :
  views (user demoEnv) !! 1 = Some editorB
  /\ domNodeIsConnected editorB = false
  /\ trace (user (_flushAccumulatedAndRenderNow 1 demoEnv).2)
     = [EvPhase 1 PrepareRenderText; EvRenderStart 1; EvPhase 1 RenderText].
Proof.
  assert (views (user demoEnv) !! 1 = Some editorB) as Hv by (vm_compute; reflexivity).
  split; [exact Hv|]. split; [reflexivity|].
  destruct (idle_view_renders_nothing 1 editorB demoEnv Hv (or_introl eq_refl))
    as (_ & _ & Ht & _).
  exact Ht.
Defined.

Lemma render_failure_keeps_parts_dirty_witness :
  views (user demoEnvE) !! 4 = Some editorE
  /\ unexpectedErrors
       (safeInvokeNoArg
          (rendering_render (_createCoordinatedRendering 4) ([0] ++ 1 :: [2]) contextA)
          demoEnvE).2
     = unexpectedErrors demoEnvE ++ [ExternalError 7]
  /\ trace (user (safeInvokeNoArg
                    (rendering_render (_createCoordinatedRendering 4) ([0] ++ 1 :: [2])
                       contextA)
                    demoEnvE).2)
     = trace (user demoEnvE) ++ EvPhase 4 Render
         :: ([0] ≫= fun q => [EvPartRender 4 q; EvPartOnDidRender 4 q])
         ++ [EvPartRender 4 1].
Proof.
  assert (views (user demoEnvE) !! 4 = Some editorE) as Hv by (vm_compute; reflexivity).
  split; [exact Hv|].
  destruct (render_failure_keeps_parts_dirty 4 editorE demoEnvE [0] 1 [2]
              {| _shouldRender := true; onPrepareRender := Completes;
                 onRender := Throws (ExternalError 7) |}
              (ExternalError 7) contextA Hv)
    as (_ & He & Ht & _).
  - intros q Hq. apply list_elem_of_singleton in Hq. subst q.
    exists (demoPart true Completes). split; reflexivity.
  - reflexivity.
  - reflexivity.
  - split; [exact He|exact Ht].
Defined.

Lemma frame_computes_lanes_iff_flagged_witness :
  let w := runViews [DoCall 0 AddGlyphMarginWidget; DoCall 1 ScheduleRender]
             (startWorld demoViews) in
  requested (frames (env w)) !! 0 = Some 1
  /\ exists evs,
       trace (user (env (fireFrame viewObj 0 w).2)) = trace (user (env w)) ++ evs
       /\ lanesComputed 0 evs = [EvComputeGlyphMarginLanes 0]
       /\ lanesComputed 1 evs = [].
Proof.
  intros w.
  assert (requested (frames (env w)) !! 0 = Some 1) as Hh by (vm_compute; reflexivity).
  split; [exact Hh|].
  destruct (frame_computes_lanes_iff_flagged demoViews
              [DoCall 0 AddGlyphMarginWidget; DoCall 1 ScheduleRender] 0 1 0
              (set_renderAnimationFrame (Some (RenderingDisposable renderingOf0))
                 (set_shouldRecomputeGlyphMarginLanes true (constructed editorA)))
              Hh)
    as (evs & Ht & H0); [vm_compute; reflexivity|].
  destruct (frame_computes_lanes_iff_flagged demoViews
              [DoCall 0 AddGlyphMarginWidget; DoCall 1 ScheduleRender] 0 1 1
              (set_renderAnimationFrame
                 (Some (RenderingDisposable {| rid := 1; this := 1; renderingWindow := 2 |}))
                 (constructed editorB))
              Hh)
    as (evs' & Ht' & H1); [vm_compute; reflexivity|].
  fold w in Ht, Ht'. rewrite Ht in Ht'. apply app_inv_head in Ht'. subst evs'.
  exists evs. split; [exact Ht|]. split; [exact H0|exact H1].
Defined.

Lemma glyph_change_recomputes_lanes_witness :
  let s := env (runViews [] (startWorld demoViews)) in
  let s' := (View_call 0 (HandleEvents [ViewFocusChanged; ViewDecorationsChanged true]) s).2 in
  views (user s) !! 0 = Some (constructed editorA)
  /\ requested (frames s') !! 0 = Some 1
  /\ exists evs view',
       trace (user (env (fireFrame viewObj 0 {| env := s'; calls := [] |}).2))
       = trace (user s') ++ evs
       /\ lanesComputed 0 evs = [EvComputeGlyphMarginLanes 0]
       /\ views (user (env (fireFrame viewObj 0 {| env := s'; calls := [] |}).2)) !! 0
          = Some view'
       /\ _shouldRecomputeGlyphMarginLanes view' = false.
Proof.
  intros s s'.
  assert (views (user s) !! 0 = Some (constructed editorA)) as Hv
    by (vm_compute; reflexivity).
  assert (requested (frames s') !! 0 = Some 1) as Hh by (vm_compute; reflexivity).
  split; [exact Hv|]. split; [exact Hh|].
  exact (glyph_change_recomputes_lanes_in_next_frame demoViews [] 0 _
           (HandleEvents [ViewFocusChanged; ViewDecorationsChanged true]) 0 1
           Hv eq_refl eq_refl Hh).
Defined.

Lemma scheduling_call_leaves_view_pending_witness :
  let s := env (runViews demoOps (startWorld demoViews)) in
  views (user s) !! 3 = Some (constructed editorD)
  /\ (View_call 3 AddContentWidget s).1 = Returned tt
  /\ exists r,
       filter (fun r' => this r' = 3)
         (_coordinatedRenderings (View_call 3 AddContentWidget s).2) = [r].
Proof.
  intros s.
  assert (views (user s) !! 3 = Some (constructed editorD)) as Hv
    by (vm_compute; reflexivity).
  split; [exact Hv|].
  destruct (scheduling_call_leaves_view_pending demoViews demoOps 3 _ AddContentWidget
              Hv eq_refl eq_refl)
    as (H1 & r & _ & Hr & _).
  split; [exact H1|]. exists r. exact Hr.
Defined.

Lemma dispose_removes_only_own_rendering_witness :
  let s := env (runViews [DoCall 0 ScheduleRender; DoCall 2 ScheduleRender]
                  (startWorld demoViews)) in
  views (user s) !! 2
  = Some (set_renderAnimationFrame
            (Some (RenderingDisposable {| rid := 1; this := 2; renderingWindow := 1 |}))
            (constructed editorC))
  /\ _coordinatedRenderings (View_dispose 2 s).2 = [renderingOf0].
Proof.
  intros s.
  assert (views (user s) !! 2
          = Some (set_renderAnimationFrame
                    (Some (RenderingDisposable
                             {| rid := 1; this := 2; renderingWindow := 1 |}))
                    (constructed editorC))) as Hv by (vm_compute; reflexivity).
  split; [exact Hv|].
  destruct (dispose_removes_only_own_rendering demoViews
              [DoCall 0 ScheduleRender; DoCall 2 ScheduleRender] 2 _ Hv)
    as (_ & Hp & _).
  etransitivity; [exact Hp|]. vm_compute. reflexivity.
Defined.

Lemma lanes_pushed_in_start_order_witness :
  GlyphLanes.consistentComparator GlyphLanes.compareStarts
  /\ exists maxLineNumber glyphs,
       GlyphLanes._computeGlyphMarginLanes GlyphLanes.clipToFourLines
         GlyphLanes.compareStarts GlyphLanes.demoDecorations GlyphLanes.demoWidgets
       = GlyphLanes.LaneReset maxLineNumber
           :: ((fun g => GlyphLanes.LanePush (GlyphLanes.lane g) (GlyphLanes.range g)
                           (GlyphLanes.persist g)) <$> glyphs)
       /\ GlyphLanes.sortedByStart GlyphLanes.compareStarts glyphs.
Proof.
  assert (GlyphLanes.consistentComparator GlyphLanes.compareStarts) as Hc.
  { split.
    - intros a b. unfold GlyphLanes.compareStarts.
      destruct (Z.eqb_spec (GlyphLanes.startLineNumber a) (GlyphLanes.startLineNumber b)),
               (Z.eqb_spec (GlyphLanes.startLineNumber b) (GlyphLanes.startLineNumber a));
        lia.
    - intros a b c. unfold GlyphLanes.compareStarts.
      destruct (Z.eqb_spec (GlyphLanes.startLineNumber a) (GlyphLanes.startLineNumber b)),
               (Z.eqb_spec (GlyphLanes.startLineNumber b) (GlyphLanes.startLineNumber c)),
               (Z.eqb_spec (GlyphLanes.startLineNumber a) (GlyphLanes.startLineNumber c));
        lia. }
  split; [exact Hc|].
  exact (lanes_pushed_in_start_order GlyphLanes.clipToFourLines GlyphLanes.compareStarts
           GlyphLanes.demoDecorations GlyphLanes.demoWidgets Hc).
Defined.

(** The scenario: the widget on line 9 is clipped to line 4, the glyphs on
    line 1 come first, the decoration before the widget. *)
Example lanes_of_the_scenario :
  GlyphLanes._computeGlyphMarginLanes GlyphLanes.clipToFourLines
    GlyphLanes.compareStarts GlyphLanes.demoDecorations GlyphLanes.demoWidgets
  = [ GlyphLanes.LaneReset 4;
      GlyphLanes.LanePush GlyphLanes.LaneRight (GlyphLanes.lineRange 1 1) (Some true);
      GlyphLanes.LanePush GlyphLanes.LaneLeft (GlyphLanes.lineRange 1 1) None;
      GlyphLanes.LanePush GlyphLanes.LaneCenter (GlyphLanes.lineRange 3 1) None;
      GlyphLanes.LanePush GlyphLanes.LaneLeft (GlyphLanes.lineRange 4 1) None ].
Proof. vm_compute. reflexivity. Qed.
